(** * Maçon: the [template] tag and its [refresh] method (src/main.js)

    A shallow embedding of [template(strings, ...args)] over a small model
    of the DOM store that jQuery manipulates.  Nodes are heap objects with
    an identity; a jQuery object is the list of the identities it holds.
    The two entry points of the host library that turn text into nodes
    ([$(html)] and the string case of [replaceWith]) are parameters of the
    development. *)

From Stdlib Require Import Ascii String DecimalString.
From Stdlib Require DecimalNat DecimalFacts.
From stdpp Require Import base option list gmap strings.

Open Scope string_scope.
Open Scope list_scope.
Open Scope nat_scope.

(** ** Markup and the DOM store *)

(** What a parser returns: markup as a tree, before it becomes live nodes. *)
#[warnings="-register-all"]
Inductive html : Type :=
| HElem (tag : string) (attrs : list (string * string)) (kids : list html)
| HText (text : string).

Definition nid := nat.

Inductive nodeKind : Type :=
| Element (tagName : string)
| TextNode (data : string).

Record node : Type := mkNode {
  kind : nodeKind;
  attributes : list (string * string);
  childNodes : list nid;
  parentNode : option nid
}.

Record Dom : Type := mkDom {
  heap : gmap nid node;
  fresh : nid
}.

#[global] Instance nodeKind_eq_dec : EqDecision nodeKind.
Proof. solve_decision. Defined.

#[global] Instance node_eq_dec : EqDecision node.
Proof. solve_decision. Defined.

Definition getNode (d : Dom) (n : nid) : option node := heap d !! n.

Definition alterNode (f : node -> node) (n : nid) (d : Dom) : Dom :=
  mkDom (alter f n (heap d)) (fresh d).

Definition withKids (ks : list nid) (nd : node) : node :=
  mkNode (kind nd) (attributes nd) ks (parentNode nd).

Definition withParent (p : option nid) (nd : node) : node :=
  mkNode (kind nd) (attributes nd) (childNodes nd) p.

Definition withAttrs (a : list (string * string)) (nd : node) : node :=
  mkNode (kind nd) a (childNodes nd) (parentNode nd).

Definition kidsOf (d : Dom) (n : nid) : list nid :=
  match getNode d n with Some nd => childNodes nd | None => [] end.

Definition parentOf (d : Dom) (n : nid) : option nid :=
  match getNode d n with Some nd => parentNode nd | None => None end.

Definition attrsOf (d : Dom) (n : nid) : list (string * string) :=
  match getNode d n with Some nd => attributes nd | None => [] end.

Definition kindOf (d : Dom) (n : nid) : option nodeKind :=
  kind <$> getNode d n.

(** Markup without children: a text, or an element that holds nothing. *)
Definition childless (h : html) : Prop :=
  match h with
  | HElem _ _ (_ :: _) => False
  | _ => True
  end.

(** A store that only gained nodes: identities below the old counter keep
    their record. *)
Definition extends (d d' : Dom) : Prop :=
  fresh d ≤ fresh d' ∧ ∀ x : nid, x < fresh d → getNode d' x = getNode d x.

(** A node that is, in [d'], of the kind, with the attributes and under the
    parent it has in [d]. *)
Definition keeps (x : nid) (d d' : Dom) : Prop :=
  kindOf d' x = kindOf d x ∧ attrsOf d' x = attrsOf d x ∧ parentOf d' x = parentOf d x.

(** Creating a node gives it the next unused identity. *)
Definition newNode (k : nodeKind) (a : list (string * string))
    (p : option nid) (d : Dom) : nid * Dom :=
  (fresh d, mkDom (<[fresh d := mkNode k a [] p]> (heap d)) (S (fresh d))).

(** Turning parsed markup into live nodes, children in document order. *)
Fixpoint alloc (p : option nid) (h : html) (d : Dom) : nid * Dom :=
  match h with
  | HText s => newNode (TextNode s) [] p d
  | HElem t a ks =>
      let '(n, d0) := newNode (Element t) a p d in
      let '(cs, d1) :=
        (fix allocKids (ks : list html) (d : Dom) : list nid * Dom :=
           match ks with
           | [] => ([], d)
           | k :: r =>
               let '(c, d') := alloc (Some n) k d in
               let '(cs, d'') := allocKids r d' in
               (c :: cs, d'')
           end) ks d0 in
      (n, alterNode (withKids cs) n d1)
  end.

Fixpoint allocAll (p : option nid) (hs : list html) (d : Dom) : list nid * Dom :=
  match hs with
  | [] => ([], d)
  | h :: r =>
      let '(c, d') := alloc p h d in
      let '(cs, d'') := allocAll p r d' in
      (c :: cs, d'')
  end.

(** [node.parentNode.removeChild(node)], a no-op on a parentless node. *)
Definition detachNode (n : nid) (d : Dom) : Dom :=
  match parentOf d n with
  | Some p =>
      alterNode (withParent None) n
        (alterNode (fun pn => withKids (filter (fun c => c ≠ n) (childNodes pn)) pn) p d)
  | None => d
  end.

(** Descendants of a node in document order.  The store is a graph, so the
    walk is bounded; [size (heap d)] steps reach every node of a tree. *)
Fixpoint descendants (fuel : nat) (d : Dom) (n : nid) : list nid :=
  match fuel with
  | 0 => []
  | S k => flat_map (fun c => c :: descendants k d c) (kidsOf d n)
  end.

(** The inclusive ancestors of a node, nearest first. *)
Fixpoint ancestors (fuel : nat) (d : Dom) (n : nid) : list nid :=
  match fuel with
  | 0 => [n]
  | S k => n :: match parentOf d n with Some p => ancestors k d p | None => [] end
  end.

Fixpoint getAttribute (name : string) (a : list (string * string)) : option string :=
  match a with
  | [] => None
  | (k, v) :: r => if decide (k = name) then Some v else getAttribute name r
  end.

(** [element.removeAttribute(name)]: the first attribute of that name goes. *)
Fixpoint removeAttribute (name : string) (a : list (string * string))
    : list (string * string) :=
  match a with
  | [] => []
  | (k, v) :: r => if decide (k = name) then r else (k, v) :: removeAttribute name r
  end.

(** [element.setAttribute(name, value)]: overwrite in place, else append. *)
Fixpoint setAttribute (name value : string) (a : list (string * string))
    : list (string * string) :=
  match a with
  | [] => [(name, value)]
  | (k, v) :: r =>
      if decide (k = name) then (k, value) :: r else (k, v) :: setAttribute name value r
  end.

(** The nodes at or above [lo] form a forest: each exists, lists its
    children once, above itself, and is the parent of each of them. *)
Definition forest (lo : nid) (d : Dom) : Prop :=
  ∀ q, lo ≤ q < fresh d →
    is_Some (getNode d q) ∧ NoDup (kidsOf d q) ∧
    ∀ c, c ∈ kidsOf d q → q < c < fresh d ∧ parentOf d c = Some q.

(** [x] is a proper descendant of [r], by the child lists. *)
Inductive below (d : Dom) (r : nid) : nid → Prop :=
| below_kid x : x ∈ kidsOf d r → below d r x
| below_step y x : below d r y → x ∈ kidsOf d y → below d r x.

(** A store that only gained nodes, the new ones holding new nodes only. *)
Definition grows (d d' : Dom) : Prop :=
  extends d d' ∧
  ∀ q c, fresh d ≤ q < fresh d' → c ∈ kidsOf d' q → fresh d ≤ c.

(** What a step from [d] to [d'] leaves of an existing node [r]: its kind,
    its attributes, its parent, and the child lists it stands in.  No
    identity is used twice. *)
Definition untouched (r : nid) (d d' : Dom) : Prop :=
  r < fresh d →
  fresh d ≤ fresh d' ∧
  kindOf d' r = kindOf d r ∧ attrsOf d' r = attrsOf d r ∧ parentOf d' r = parentOf d r ∧
  (∀ q, q < fresh d' → r ∈ kidsOf d' q → q < fresh d ∧ r ∈ kidsOf d q) ∧
  (∀ q, q < fresh d → r ∈ kidsOf d q → r ∈ kidsOf d' q).

(** ** JavaScript values that reach [template] *)

(** Decimal text of a number, as [`${index}`] and string concatenation
    produce it. *)
Definition showNat (n : nat) : string :=
  NilZero.string_of_uint (Nat.to_uint n).

(** jQuery's [.data()] turns an attribute into a number only when the text
    is the canonical decimal form of that number: printed back, the number
    is the same text.  Any other text is read as another kind of value (a
    JSON array, a property name such as [length]); what is proved of
    resolved markers is stated for markers whose index is a number. *)
Definition readIndex (s : string) : option nat :=
  match NilZero.uint_of_string s with
  | Some u => if decide (showNat (Nat.of_uint u) = s) then Some (Nat.of_uint u) else None
  | None => None
  end.

(** Values other than functions: strings, natural numbers, [undefined],
    jQuery objects and arrays.  An array is flat: its members are
    primitives or jQuery objects (a bare DOM element is the jQuery object
    of that one node).  Booleans, [null] and plain objects, which the
    documentation of [template] rules out, have no counterpart here. *)
Inductive item : Type :=
| IStr (s : string)
| INum (n : nat)
| IUndef
| IJq (nodes : list nid).

Inductive data : Type :=
| DItem (it : item)
| DArr (items : list item).

#[global] Instance item_eq_dec : EqDecision item.
Proof. solve_decision. Defined.

#[global] Instance data_eq_dec : EqDecision data.
Proof. solve_decision. Defined.

(** The nodes a value holds, and the values made of nodes only. *)
Definition itemsOf (v : data) : list item :=
  match v with DArr items => items | DItem it => [it] end.

Definition itemNodes (it : item) : list nid :=
  match it with IJq ns => ns | _ => [] end.

Definition valueNodes (v : data) : list nid :=
  flat_map itemNodes (itemsOf v).

Definition isNodes (it : item) : Prop :=
  match it with IJq _ => True | _ => False end.

Definition onlyNodes (v : data) : Prop := Forall isNodes (itemsOf v).

(** A jQuery object or an array: what [createReference] gives a marker. *)
Definition nodeLike (v : data) : Prop :=
  match v with DItem (IJq _) | DArr _ => True | _ => False end.

(** [$(html)] reads a string as markup or as a selector. *)
Fixpoint lastChar (s : string) : option ascii :=
  match s with
  | EmptyString => None
  | String c EmptyString => Some c
  | String _ r => lastChar r
  end.

(** The strings [$] takes for markup without looking further: three
    characters or more, the first [<], the last [>]. *)
Definition isMarkup (s : string) : bool :=
  match s with
  | String c (String _ (String _ _) as r) =>
      bool_decide (c = "<"%char) && bool_decide (lastChar r = Some ">"%char)
  | _ => false
  end.

Section Template.

(** The state the callbacks close over.  A callback reads it, may build or
    move nodes, and returns a value that is not itself a function.  It has
    no access to the reference table, so it cannot start a [refresh] of the
    component being built. *)
Context {St : Type}.

Definition callback : Type := St -> Dom -> data * Dom.

Inductive value : Type :=
| VData (v : data)
| VFun (f : callback).

(** [$(html)] on a markup string, and the nodes jQuery makes of a non-empty
    string handed to [replaceWith] (a text node when it holds no markup). *)
Variable parseHTML : string -> list html.
Variable parseFragment : string -> list html.

(** [typeof evaluated == "string"] *)
Definition isString (v : data) : option string :=
  match v with DItem (IStr s) => Some s | _ => None end.

(** String concatenation of a value that is neither a function, a jQuery
    object nor an array: [prev + value + ...]. *)
Definition toText (it : item) : string :=
  match it with
  | IStr s => s
  | INum n => showNat n
  | IUndef => "undefined"
  | IJq _ => "[object Object]"
  end.

Definition marker (index : nat) : string :=
  "<b data-slot-index=" +:+ showNat index +:+ "></b>".

(** ** jQuery operations used by [template] *)

(** [$(html)], for a text that jQuery reads as markup ([isMarkup]); any
    other text is a selector, run on the document. *)
Definition jq (html : string) (d : Dom) : list nid * Dom :=
  allocAll None (parseHTML html) d.

Definition isSlot (d : Dom) (n : nid) : bool :=
  match getNode d n with
  | Some nd =>
      match kind nd with
      | Element t =>
          bool_decide (t = "b") && bool_decide (is_Some (getAttribute "data-slot-index" (attributes nd)))
      | TextNode _ => false
      end
  | None => false
  end.

(** [component.find("b[data-slot-index]")]: matching proper descendants. *)
Definition findSlots (component : list nid) (d : Dom) : list nid :=
  flat_map (fun r => filter (fun n => isSlot d n = true) (descendants (size (heap d)) d r))
    component.

(** [$(this).data("slotIndex")], when it is a number. *)
Definition slotIndex (d : Dom) (n : nid) : option nat :=
  getAttribute "data-slot-index" (attrsOf d n) ≫= readIndex.

(** [fragment.appendChild(node)]: the node leaves wherever it is, the
    fragment included, and becomes the last child of the fragment. *)
Definition moveToEnd (frag : list nid) (n : nid) : list nid :=
  filter (fun c => c ≠ n) frag ++ [n].

Definition fragAppend (frag : list nid) (n : nid) (d : Dom) : list nid * Dom :=
  (moveToEnd frag n, detachNode n d).

(** The nodes one argument of a DOM-insertion method stands for, appended
    to the fragment under construction.  Nodes of [skip] (the collection
    the method is called on) are left out and reported. *)
Fixpoint fragNodes (skip : list nid) (ns : list nid)
    (acc : list nid * bool * Dom) : list nid * bool * Dom :=
  match ns with
  | [] => acc
  | n :: r =>
      let '(frag, ign, d) := acc in
      if decide (n ∈ skip) then fragNodes skip r (frag, true, d)
      else let '(frag', d') := fragAppend frag n d in fragNodes skip r (frag', ign, d')
  end.

Definition fragItem (skip : list nid) (acc : list nid * bool * Dom) (it : item)
    : list nid * bool * Dom :=
  let '(frag, ign, d) := acc in
  match it with
  | IStr s =>
      if decide (s = EmptyString) then acc
      else let '(ns, d') := allocAll None (parseFragment s) d in (frag ++ ns, ign, d')
  | INum n =>
      let '(t, d') := newNode (TextNode (showNat n)) [] None d in (frag ++ [t], ign, d')
  | IUndef => acc
  | IJq ns => fragNodes skip ns acc
  end.

(** jQuery's [buildFragment] on the flattened argument list. *)
Definition buildFragment (skip : list nid) (v : data) (d : Dom)
    : list nid * bool * Dom :=
  fold_left (fragItem skip) (itemsOf v) ([], false, d).

(** A DOM insertion throws when a node to insert is an inclusive ancestor
    of the node it would go under. *)
Definition hierarchyOk (frag : list nid) (p : nid) (d : Dom) : bool :=
  forallb (fun a => bool_decide (a ∉ frag)) (ancestors (size (heap d)) d p).

Definition adopt (p : nid) (frag : list nid) (d : Dom) : Dom :=
  foldr (alterNode (withParent (Some p))) d frag.

Definition spliceAt (this : nid) (frag : list nid) (ks : list nid) : list nid :=
  flat_map (fun c => if decide (c = this) then frag else [c]) ks.

(** [$(this).replaceWith(value)].  jQuery calls a function argument and
    inserts what it returns; the fragment replaces the element under its
    parent, and an element without a parent is left alone. *)
Definition replaceWith (this : nid) (v : value) (st : St) (d : Dom) : option Dom :=
  let '(dv, d0) := match v with VFun f => f st d | VData dv => (dv, d) end in
  let '(frag, ignored, d1) := buildFragment [this] dv d0 in
  if ignored then Some d1
  else match parentOf d1 this with
       | Some p =>
           if hierarchyOk frag p d1 then
             Some (alterNode (withParent None) this
                     (adopt p frag
                        (alterNode (fun pn => withKids (spliceAt this frag (childNodes pn)) pn)
                           p d1)))
           else None
       | None => Some d1
       end.

(** [collection.contents()] *)
Definition contents (c : list nid) (d : Dom) : list nid :=
  flat_map (kidsOf d) c.

(** [collection.detach()] *)
Definition detach (c : list nid) (d : Dom) : Dom :=
  fold_left (fun d n => detachNode n d) c d.

(** [collection.empty()]: every element of the collection loses its
    children, which live on without a parent. *)
Definition emptyNode (r : nid) (d : Dom) : Dom :=
  match getNode d r with
  | Some nd =>
      match kind nd with
      | Element _ =>
          alterNode (withKids []) r
            (fold_left (fun d c => alterNode (withParent None) c d) (childNodes nd) d)
      | TextNode _ => d
      end
  | None => d
  end.

Definition empty (c : list nid) (d : Dom) : Dom :=
  fold_left (fun d r => emptyNode r d) c d.

(** A deep copy of a node, with new identities. *)
Fixpoint cloneNode (fuel : nat) (p : option nid) (n : nid) (d : Dom) : list nid * Dom :=
  match fuel with
  | 0 => ([], d)
  | S k =>
      match getNode d n with
      | Some nd =>
          let '(c, d0) := newNode (kind nd) (attributes nd) p d in
          let '(cs, d1) :=
            fold_left (fun '(acc, d) kid =>
                         let '(ks, d') := cloneNode k (Some c) kid d in (acc ++ ks, d'))
              (childNodes nd) ([], d0) in
          ([c], alterNode (withKids cs) c d1)
      | None => ([], d)
      end
  end.

Definition cloneAll (frag : list nid) (d : Dom) : list nid * Dom :=
  fold_left (fun '(acc, d) n =>
               let '(ks, d') := cloneNode (S (size (heap d))) None n d in (acc ++ ks, d'))
    frag ([], d).

(** [target.appendChild(fragment)] for an element target. *)
Definition appendChildren (target : nid) (frag : list nid) (d : Dom) : option Dom :=
  match getNode d target with
  | Some nd =>
      match kind nd with
      | Element _ =>
          if hierarchyOk frag target d then
            Some (adopt target frag
                    (alterNode (fun pn => withKids (childNodes pn ++ frag) pn) target d))
          else None
      | TextNode _ => Some d
      end
  | None => Some d
  end.

(** Every target but the last receives a copy; the last one the nodes. *)
Fixpoint appendEach (targets : list nid) (frag : list nid) (d : Dom) : option Dom :=
  match targets with
  | [] => Some d
  | [t] => appendChildren t frag d
  | t :: r =>
      let '(copy, d') := cloneAll frag d in
      d'' ← appendChildren t copy d'; appendEach r frag d''
  end.

(** [collection.append(content)] with a jQuery object as content. *)
Definition append (c : list nid) (content : list nid) (d : Dom) : option Dom :=
  match c with
  | [] => Some d
  | _ =>
      let '(frag, _, d1) := buildFragment c (DItem (IJq content)) d in
      match frag with
      | [] => Some d1
      | _ => appendEach c frag d1
      end
  end.

(** ** [template] and the functions of its closure *)

(** What one call of [template] closes over. *)
Record Closure : Type := mkClosure {
  strings : list string;
  args : list value;
  references : gmap nat data;
  componentInstance : list nid
}.

(** [strings[i]]; reading past the end gives [undefined], which string
    concatenation spells out. *)
Definition stringAt (strings : list string) (i : nat) : string :=
  nth i strings "undefined".

(** [args[index]], for an index that is a number. *)
Definition argAt (args : list value) (index : option nat) : value :=
  match index ≫= (args !!.) with
  | Some v => v
  | None => VData (DItem IUndef)
  end.

Definition createReference (references : gmap nat data) (v : value) (index : nat)
    (st : St) (d : Dom) : string * gmap nat data * Dom :=
  match v with
  | VFun f =>
      let '(evaluated, d') := f st d in
      match isString evaluated with
      | Some s => (s, references, d')
      | None => (marker index, <[index := evaluated]> references, d')
      end
  | VData (DItem (IJq _)) | VData (DArr _) => (marker index, references, d)
  | VData (DItem it) => (toText it, references, d)
  end.

Definition getReferenceValue (references : gmap nat data) (v : value)
    (index : option nat) : value :=
  match index ≫= (references !!.) with
  | Some r => VData r
  | None => v
  end.

(** The [args.reduce(...)] of [buildComponent], from position [i] on. *)
Fixpoint assemble (strings : list string) (i : nat) (vs : list value) (st : St)
    (acc : string * gmap nat data * Dom) : string * gmap nat data * Dom :=
  match vs with
  | [] => acc
  | v :: r =>
      let '(prev, refs, d) := acc in
      let '(piece, refs', d') := createReference refs v i st d in
      assemble strings (S i) r st (prev +:+ piece +:+ stringAt strings (S i), refs', d')
  end.

(** The body of the [.each] callback in [buildComponent]. *)
Definition resolveSlot (references : gmap nat data) (args : list value) (st : St)
    (this : nid) (d : Dom) : option Dom :=
  let index := slotIndex d this in
  let value := getReferenceValue references (argAt args index) index in
  replaceWith this value st d.

Fixpoint each (f : nid -> Dom -> option Dom) (c : list nid) (d : Dom) : option Dom :=
  match c with
  | [] => Some d
  | this :: r => d' ← f this d; each f r d'
  end.

Definition buildComponent (strings : list string) (args : list value)
    (references : gmap nat data) (st : St) (d : Dom)
    : option (list nid * gmap nat data * Dom) :=
  let '(html, refs, d1) := assemble strings 0 args st (stringAt strings 0, references, d) in
  let '(component, d2) := jq html d1 in
  d3 ← each (resolveSlot refs args st) (findSlots component d2) d2;
  Some (component, ∅, d3).

(** The live [for ... of destinationDOM.attributes] loop: position [i] is
    read from the attribute list as it is after the removals so far. *)
Fixpoint removeLive (fuel i : nat) (a : list (string * string)) : list (string * string) :=
  match fuel with
  | 0 => a
  | S k =>
      match a !! i with
      | Some (name, _) => removeLive k (S i) (removeAttribute name a)
      | None => a
      end
  end.

Definition copyAttrList (source destination : list (string * string))
    : list (string * string) :=
  fold_left (fun a '(name, value) => setAttribute name value a) source
    (removeLive (length destination) 0 destination).

Definition elementAttrs (d : Dom) (n : option nid) : option (list (string * string)) :=
  nd ← n ≫= getNode d;
  match kind nd with Element _ => Some (attributes nd) | TextNode _ => None end.

Definition copyAttributes (sourceDOM destinationDOM : option nid) (d : Dom) : option Dom :=
  dst ← elementAttrs d destinationDOM;
  src ← elementAttrs d sourceDOM;
  r ← destinationDOM;
  Some (alterNode (withAttrs (copyAttrList src dst)) r d).

Definition refresh (c : Closure) (st : St) (d : Dom) : option (Closure * Dom) :=
  '(updatedComponent, refs, d1) ← buildComponent (strings c) (args c) (references c) st d;
  let updatedChildren := contents updatedComponent d1 in
  let d2 := detach updatedChildren d1 in
  d3 ← append (componentInstance c) updatedChildren (empty (componentInstance c) d2);
  d4 ← copyAttributes (head updatedComponent) (head (componentInstance c)) d3;
  Some (mkClosure (strings c) (args c) refs (componentInstance c), d4).

Definition template (strings : list string) (args : list value) (st : St) (d : Dom)
    : option (Closure * Dom) :=
  '(component, refs, d') ← buildComponent strings args ∅ st d;
  Some (mkClosure strings args refs component, d').

(** Two values that are equal, or the callback [f] and the string [s]. *)
Definition alike (f : callback) (s : string) (v v' : value) : Prop :=
  v = v' ∨ (v = VFun f ∧ v' = VData (DItem (IStr s))).

(** The pieces the assembly pass splices between the literal fragments,
    and the markup they make with them. *)
Fixpoint pieces (i : nat) (vs : list value) (st : St) (refs : gmap nat data) (d : Dom)
    : list string :=
  match vs with
  | [] => []
  | v :: r =>
      let '(piece, refs', d') := createReference refs v i st d in
      piece :: pieces (S i) r st refs' d'
  end.

Fixpoint weave (strings : list string) (i : nat) (ps : list string) : string :=
  match ps with
  | [] => EmptyString
  | p :: r => p +:+ stringAt strings (S i) +:+ weave strings (S i) r
  end.

(** A value spliced as text: a string or another primitive. *)
Definition isPrimitive (it : item) : Prop :=
  match it with IJq _ => False | _ => True end.

(** The direct concatenation [F[0] + V[0] + F[1] + ... + V[n-1] + F[n]] of
    fragments interleaved with primitive values. *)
Fixpoint interleave (strings : list string) (i : nat) (vals : list item) : string :=
  match vals with
  | [] => EmptyString
  | v :: r => toText v +:+ stringAt strings (S i) +:+ interleave strings (S i) r
  end.

Definition concatenation (strings : list string) (vals : list item) : string :=
  stringAt strings 0 +:+ interleave strings 0 vals.

(** What the callbacks of a values array do to the store when they are
    called one after the other, in the order of the array. *)
Definition callbackEffects (st : St) (vs : list value) (d : Dom) : Dom :=
  fold_left (fun d v => match v with VFun f => (f st d).2 | VData _ => d end) vs d.

(** The state of jQuery's [buildFragment] part-way through a value whose
    items so far hold the existing nodes [held]: the fragment is made of
    these and of nodes created since the store was [d0]; the nodes of [d0]
    kept kind and attributes; those not held kept their parent; a child
    list lost held nodes at most. *)
Definition fragmentOf (d0 : Dom) (held : list nid) (acc : list nid * bool * Dom) : Prop :=
  let '(frag, ign, d) := acc in
  ign = false ∧ fresh d0 ≤ fresh d ∧ NoDup frag ∧
  (∀ n, n ∈ held → n < fresh d0) ∧
  (∀ n, n ∈ frag → n ∈ held ∨ fresh d0 ≤ n < fresh d) ∧
  (∀ n, n ∈ held → n ∈ frag) ∧
  (∀ x, x < fresh d0 →
        kindOf d x = kindOf d0 x ∧ attrsOf d x = attrsOf d0 x
        ∧ (is_Some (getNode d x) ↔ is_Some (getNode d0 x))) ∧
  (∀ x, x < fresh d0 → x ∉ held → parentOf d x = parentOf d0 x) ∧
  (∀ x, x < fresh d0 → ∃ R, R ⊆ held ∧ kidsOf d x = filter (λ c, c ∉ R) (kidsOf d0 x)).

(** What stands in a child list once the markers [ms] are resolved: in
    place of a marker the nodes [fr] gives it, every other child itself. *)
Definition resolved (fr : nid → list nid) (ms : list nid) (c : nid) : list nid :=
  if decide (c ∈ ms) then fr c else [c].

(** The store [d] is the parse [d2], whose nodes start at [lo], with the
    markers [ms] resolved: [fr m] is what stands for the marker [m], the
    nodes of its value [val m] and the nodes made of its other items. *)
Definition slotsResolved (lo : nid) (d2 : Dom) (val : nid → data)
    (fr : nid → list nid) (ms : list nid) (d : Dom) : Prop :=
  fresh d2 ≤ fresh d ∧
  (∀ x, x < fresh d2 →
        kindOf d x = kindOf d2 x ∧ attrsOf d x = attrsOf d2 x
        ∧ (is_Some (getNode d x) ↔ is_Some (getNode d2 x))) ∧
  (∀ q, lo ≤ q < fresh d2 → kidsOf d q = flat_map (resolved fr ms) (kidsOf d2 q)) ∧
  (∀ x, lo ≤ x < fresh d2 → x ∉ ms → parentOf d x = parentOf d2 x) ∧
  (∀ m, m ∈ ms →
        parentOf d m = None ∧ NoDup (fr m) ∧
        (∀ n, n ∈ valueNodes (val m) → n ∈ fr m) ∧
        (∀ n, n ∈ fr m → n ∈ valueNodes (val m) ∨ fresh d2 ≤ n < fresh d) ∧
        (∀ n, n ∈ fr m → parentOf d n = parentOf d2 m ∨ parentOf d n = None) ∧
        (∀ n, n ∈ valueNodes (val m) → is_Some (getNode d2 n) →
              parentOf d n = parentOf d2 m) ∧
        (onlyNodes (val m) → fr m = fold_left moveToEnd (valueNodes (val m)) [])) ∧
  (∀ m m' n, m ∈ ms → m' ∈ ms → m ≠ m' → n ∈ fr m → n ∉ fr m').

(** The values a build may insert do not hold [r], and its callbacks leave
    [r] alone. *)
Definition apartFrom (r : nid) (st : St) (args : list value) : Prop :=
  ∀ w, w ∈ args →
    match w with
    | VData v => r ∉ valueNodes v
    | VFun f => ∀ d, (r ∉ valueNodes (f st d).1) ∧ untouched r d (f st d).2
    end.


End Template.

Arguments value : clear implicits.
Arguments callback : clear implicits.
Arguments Closure : clear implicits.

(** ** The closure once more, with callbacks that may throw

    [references] is one [Map] for all the calls made on a component, and
    [buildComponent] clears it in its last but one statement, with no
    [try ... finally] around what comes before.  To see what a call that
    throws leaves in the table, the functions of the closure are written
    here for callbacks that may throw: such a callback gives [None], and
    the [outcome] of a call carries the table as the call leaves it. *)
Module Throwing.

Section Template.

Context {St : Type}.
Variable parseHTML : string -> list html.
Variable parseFragment : string -> list html.

(** [replaceWith] called with a value that is not a function. *)
Definition replaceWithData (this : nid) (dv : data) (st : St) (d : Dom) : option Dom :=
  replaceWith parseFragment this (VData dv) st d.

Definition callback : Type := St -> Dom -> option (data * Dom).

Inductive value : Type :=
| VData (v : data)
| VFun (f : callback).

Inductive outcome (A : Type) : Type :=
| Returned (a : A) (references : gmap nat data) (d : Dom)
| Thrown (references : gmap nat data).

Arguments Returned {A} a references d.
Arguments Thrown {A} references.

Definition createReference (references : gmap nat data) (v : value) (index : nat)
    (st : St) (d : Dom) : outcome string :=
  match v with
  | VFun f =>
      match f st d with
      | Some (evaluated, d') =>
          match isString evaluated with
          | Some s => Returned s references d'
          | None => Returned (marker index) (<[index := evaluated]> references) d'
          end
      | None => Thrown references
      end
  | VData (DItem (IJq _)) | VData (DArr _) => Returned (marker index) references d
  | VData (DItem it) => Returned (toText it) references d
  end.

Fixpoint assemble (strings : list string) (i : nat) (vs : list value) (st : St)
    (prev : string) (references : gmap nat data) (d : Dom) : outcome string :=
  match vs with
  | [] => Returned prev references d
  | v :: r =>
      match createReference references v i st d with
      | Returned piece refs' d' =>
          assemble strings (S i) r st (prev +:+ piece +:+ stringAt strings (S i)) refs' d'
      | Thrown refs' => Thrown refs'
      end
  end.

Definition argAt (args : list value) (index : option nat) : value :=
  match index ≫= (args !!.) with
  | Some v => v
  | None => VData (DItem IUndef)
  end.

Definition getReferenceValue (references : gmap nat data) (v : value)
    (index : option nat) : value :=
  match index ≫= (references !!.) with
  | Some r => VData r
  | None => v
  end.

(** jQuery calls a function handed to [replaceWith]; the call may throw. *)
Definition replaceWith (this : nid) (v : value) (st : St) (d : Dom) : option Dom :=
  match v with
  | VData dv => replaceWithData this dv st d
  | VFun f =>
      match f st d with
      | Some (dv, d0) => replaceWithData this dv st d0
      | None => None
      end
  end.

Definition resolveSlot (references : gmap nat data) (args : list value) (st : St)
    (this : nid) (d : Dom) : option Dom :=
  let index := slotIndex d this in
  let value := getReferenceValue references (argAt args index) index in
  replaceWith this value st d.

Definition buildComponent (strings : list string) (args : list value)
    (references : gmap nat data) (st : St) (d : Dom) : outcome (list nid) :=
  match assemble strings 0 args st (stringAt strings 0) references d with
  | Returned html refs d1 =>
      let '(component, d2) := jq parseHTML html d1 in
      match each (resolveSlot refs args st) (findSlots component d2) d2 with
      | Some d3 => Returned component ∅ d3
      | None => Thrown refs
      end
  | Thrown refs => Thrown refs
  end.

Record Closure : Type := mkClosure {
  strings : list string;
  args : list value;
  references : gmap nat data;
  componentInstance : list nid
}.

Definition refresh (c : Closure) (st : St) (d : Dom) : outcome unit :=
  match buildComponent (strings c) (args c) (references c) st d with
  | Returned updatedComponent refs d1 =>
      let updatedChildren := contents updatedComponent d1 in
      let d2 := detach updatedChildren d1 in
      match d3 ← append parseFragment (componentInstance c) updatedChildren
                   (empty (componentInstance c) d2);
            copyAttributes (head updatedComponent) (head (componentInstance c)) d3 with
      | Some d4 => Returned tt refs d4
      | None => Thrown refs
      end
  | Thrown refs => Thrown refs
  end.




End Template.

Arguments Returned {A} a references d.
Arguments Thrown {A} references.
Arguments value : clear implicits.
Arguments callback : clear implicits.
Arguments Closure : clear implicits.

End Throwing.

(** A value whose callback does not throw, among the values that may. *)
Definition lift {St : Type} (v : value St) : Throwing.value St :=
  match v with
  | VData dv => Throwing.VData dv
  | VFun f => Throwing.VFun (λ st d, Some (f st d))
  end.


(** ** A small markup reader, to run the model on concrete templates

    It reads the markup the examples below use: elements with unquoted or
    bare attributes, closing tags, and text. *)
Module MiniHtml.

Inductive token : Type :=
| TOpen (tag : string) (attrs : list (string * string))
| TClose (tag : string)
| TText (text : string).

(** The pieces of [s] between occurrences of [sep]. *)
Fixpoint pieces (sep : ascii) (s : string) : list string :=
  match s with
  | EmptyString => [EmptyString]
  | String c r =>
      if decide (c = sep) then EmptyString :: pieces sep r
      else match pieces sep r with
           | w :: ws => String c w :: ws
           | [] => [String c EmptyString]
           end
  end.

Definition nonEmpty (l : list string) : list string :=
  filter (fun w => w ≠ EmptyString) l.

Definition readAttr (w : string) : string * string :=
  match pieces "="%char w with
  | name :: v :: _ => (name, v)
  | name :: [] => (name, EmptyString)
  | [] => (w, EmptyString)
  end.

Definition readTag (body : string) : token :=
  match body with
  | String "/"%char name => TClose name
  | _ =>
      match nonEmpty (pieces " "%char body) with
      | name :: ws => TOpen name (readAttr <$> ws)
      | [] => TOpen EmptyString []
      end
  end.

Definition textToken (s : string) : list token :=
  if decide (s = EmptyString) then [] else [TText s].

(** One piece after a [<]: the tag, then the text up to the next [<]. *)
Definition readPiece (p : string) : list token :=
  match pieces ">"%char p with
  | body :: text :: _ => readTag body :: textToken text
  | body :: [] => [readTag body]
  | [] => []
  end.

Definition lex (s : string) : list token :=
  match pieces "<"%char s with
  | text :: ps => textToken text ++ flat_map readPiece ps
  | [] => []
  end.

(** Siblings up to the closing tag of the enclosing element. *)
Fixpoint nest (fuel : nat) (ts : list token) : list html * list token :=
  match fuel with
  | 0 => ([], ts)
  | S k =>
      match ts with
      | [] => ([], [])
      | TClose _ :: r => ([], r)
      | TText s :: r => let '(sibs, r') := nest k r in (HText s :: sibs, r')
      | TOpen t a :: r =>
          let '(kids, r1) := nest k r in
          let '(sibs, r2) := nest k r1 in
          (HElem t a kids :: sibs, r2)
      end
  end.

Definition parse (s : string) : list html :=
  let ts := lex s in fst (nest (S (length ts)) ts).

End MiniHtml.

Definition dom0 : Dom := mkDom ∅ 0.

(** ** Concrete templates *)

Definition str (s : string) {St : Type} : value St := VData (DItem (IStr s)).

(** [template`<div ${() => flag ? "a=1 b=2" : ""}></div>`], the state
    being the flag the callback reads. *)
Definition flagAttrs : callback bool :=
  fun flag d => (DItem (IStr (if flag then "a=1 b=2" else EmptyString)), d).

Definition flagStrings : list string := ["<div "; "></div>"].

Definition flagTemplate (flag : bool) (d : Dom) : option (Closure bool * Dom) :=
  template MiniHtml.parse MiniHtml.parse flagStrings [VFun flagAttrs] flag d.

Definition flagRefresh (c : Closure bool) (flag : bool) (d : Dom)
    : option (Closure bool * Dom) :=
  refresh MiniHtml.parse MiniHtml.parse c flag d.

(** A built [<button>ok</button>]: node 0, holding the text node 1. *)
Definition buttonDom : Dom :=
  match template (St:=unit) MiniHtml.parse MiniHtml.parse ["<button>ok</button>"] [] tt dom0 with
  | Some (_, d) => d
  | None => dom0
  end.

Definition button {St : Type} : value St := VData (DItem (IJq [0])).

(** [items.map(item => template`<li>${item}</li>`)], the state being the
    list of items. *)
Definition listItem (item : string) (d : Dom) : list nid * Dom :=
  match template (St:=unit) MiniHtml.parse MiniHtml.parse ["<li>"; "</li>"] [str item] tt d with
  | Some (c, d') => (componentInstance c, d')
  | None => ([], d)
  end.

Fixpoint listItems (items : list string) (d : Dom) : list item * Dom :=
  match items with
  | [] => ([], d)
  | x :: r =>
      let '(li, d') := listItem x d in
      let '(lis, d'') := listItems r d' in
      (IJq li :: lis, d'')
  end.

Definition itemsCallback : callback (list string) :=
  fun items d => let '(lis, d') := listItems items d in (DArr lis, d').

(** A callback that returns the nodes the state names, or a text when
    there is none. *)
Definition heldNodes : callback (list nid) :=
  fun held d => (DItem (match held with [] => IStr "x" | _ => IJq held end), d).

Definition helloCallback : callback unit :=
  fun _ d => (DItem (IStr "World"), d).

(** The closures of the two templates above, with the roots they get when
    built in the empty store. *)
Definition flagClosure : Closure bool :=
  mkClosure flagStrings [VFun flagAttrs] ∅ [0].

Definition listClosure : Closure (list string) :=
  mkClosure ["<ul>"; "</ul>"] [VFun itemsCallback] ∅ [2].

(** Every other element of a list, starting with the second. *)
Fixpoint everyOther {A : Type} (l : list A) : list A :=
  match l with
  | _ :: y :: r => y :: everyOther r
  | _ => []
  end.

(** The markup a live node stands for, read back from the store. *)
Fixpoint shape (fuel : nat) (d : Dom) (n : nid) : html :=
  match fuel with
  | 0 => HText EmptyString
  | S k =>
      match getNode d n with
      | Some nd =>
          match kind nd with
          | Element t => HElem t (attributes nd) (shape k d <$> childNodes nd)
          | TextNode s => HText s
          end
      | None => HText EmptyString
      end
  end.

Definition shapes (r : option (list nid * gmap nat data * Dom)) : list html :=
  match r with
  | Some (c, _, d) => shape (S (size (heap d))) d <$> c
  | None => []
  end.

(** The attributes of the first root of a component. *)
Definition rootAttrs {St : Type} (r : option (Closure St * Dom))
    : option (list (string * string)) :=
  '(c, d) ← r; n ← head (componentInstance c); Some (attrsOf d n).

(** [template`<div>${button}</div>`] around the built button. *)
Definition inDivStrings : list string := ["<div>"; "</div>"].

Definition inDivMarkup : string := "<div><b data-slot-index=0></b></div>".

(** [template`<ul>${() => items.map(...)}</ul>`] *)
Definition listStrings : list string := ["<ul>"; "</ul>"].

Definition listMarkup : string := "<ul><b data-slot-index=0></b></ul>".


(** The flag component of [flagClosure], put under a [main] element:
    [template`<main>${component}</main>`]. *)
Definition mountedDom : Dom :=
  match flagTemplate true dom0 with
  | Some (_, d) =>
      match template (St:=unit) MiniHtml.parse MiniHtml.parse ["<main>"; "</main>"]
              [VData (DItem (IJq [0]))] tt d with
      | Some (_, d') => d'
      | None => d
      end
  | None => dom0
  end.







(** A callback that takes node 0 out of its parent and returns a text. *)
Definition movesRoot : callback unit :=
  fun _ d => (DItem (IStr "x"), detachNode 0 d).

(** ** The assembly pass *)

Lemma append_empty_r (s : string) : s +:+ EmptyString = s.
Proof. induction s as [|c s IH]; [done|]. change (String c (s +:+ EmptyString) = String c s). by rewrite IH. Qed.

Lemma append_assoc (a b c : string) : (a +:+ b) +:+ c = a +:+ (b +:+ c).
Proof.
  induction a as [|x a IH]; [done|].
  change (String x ((a +:+ b) +:+ c) = String x (a +:+ (b +:+ c))). by rewrite IH.
Qed.

Section Assembly.

Context {St : Type}.
Implicit Types (refs : gmap nat data) (vs : list (value St)) (d : Dom) (st : St).
Implicit Types (i j : nat) (strs : list string).

Lemma assemble_app strs vs1 vs2 st i acc :
  assemble strs i (vs1 ++ vs2) st acc
  = assemble strs (i + length vs1) vs2 st (assemble strs i vs1 st acc).
Proof.
  revert i acc. induction vs1 as [|v vs1 IH]; intros i acc; simpl.
  - by rewrite Nat.add_0_r.
  - destruct acc as [[prev refs] d].
    destruct (createReference refs v i st d) as [[piece refs'] d'].
    rewrite IH. f_equal. lia.
Qed.

(** A step of the pass writes the table at its own index only. *)
Lemma createReference_refs_ne refs (v : value St) i st d j :
  j ≠ i → (createReference refs v i st d).1.2 !! j = refs !! j.
Proof.
  intros Hne. destruct v as [[[]|]|f]; simpl; try done.
  destruct (f st d) as [ev d']. destruct (isString ev); simpl; [done|].
  by rewrite lookup_insert_ne.
Qed.

Lemma assemble_refs_other strs vs st i acc j :
  j < i → (assemble strs i vs st acc).1.2 !! j = acc.1.2 !! j.
Proof.
  revert i acc. induction vs as [|v vs IH]; intros i [[prev refs] d] Hlt; simpl; [done|].
  pose proof (createReference_refs_ne refs v i st d j) as Hstep.
  destruct (createReference refs v i st d) as [[piece refs'] d']. simpl in *.
  rewrite IH; [|lia]. simpl. apply Hstep. lia.
Qed.

Lemma assemble_refs_beyond strs vs st i acc j :
  (i + length vs ≤ j)%nat → (assemble strs i vs st acc).1.2 !! j = acc.1.2 !! j.
Proof.
  revert i acc. induction vs as [|v vs IH]; intros i [[prev refs] d] Hle; simpl in *; [done|].
  pose proof (createReference_refs_ne refs v i st d j) as Hstep.
  destruct (createReference refs v i st d) as [[piece refs'] d']. simpl in *.
  rewrite IH; [|lia]. simpl. apply Hstep. lia.
Qed.

(** The pass only ever appends to the markup assembled so far. *)
Lemma assemble_prefix strs vs st i acc :
  ∃ rest, (assemble strs i vs st acc).1.1 = acc.1.1 +:+ rest.
Proof.
  revert i acc. induction vs as [|v vs IH]; intros i [[prev refs] d]; simpl.
  - exists EmptyString. by rewrite append_empty_r.
  - destruct (createReference refs v i st d) as [[piece refs'] d'].
    destruct (IH (S i) (prev +:+ piece +:+ stringAt strs (S i), refs', d')) as [rest Hr].
    exists (piece +:+ stringAt strs (S i) +:+ rest).
    rewrite Hr. simpl. by rewrite !append_assoc.
Qed.

(** Splitting the pass at position [i]. *)
Lemma assemble_split strs vs st acc i v :
  vs !! i = Some v →
  assemble strs 0 vs st acc
  = assemble strs (S i) (drop (S i) vs) st
      (let '(prev, refs, d) := assemble strs 0 (take i vs) st acc in
       let '(piece, refs', d') := createReference refs v i st d in
       (prev +:+ piece +:+ stringAt strs (S i), refs', d')).
Proof.
  intros Hi.
  rewrite <- (take_drop_middle vs i v Hi) at 1.
  rewrite assemble_app. simpl.
  assert (length (take i vs) = i) as ->.
  { rewrite length_take. apply lookup_lt_Some in Hi. lia. }
  destruct (assemble strs 0 (take i vs) st acc) as [[prev refs] d].
  by destruct (createReference refs v i st d) as [[piece refs'] d'].
Qed.

(** The literal fragments always stand in the markup, around the pieces. *)
Lemma assemble_weave strs vs st i prev refs d :
  (assemble strs i vs st (prev, refs, d)).1.1 = prev +:+ weave strs i (pieces i vs st refs d).
Proof.
  revert i prev refs d. induction vs as [|v vs IH]; intros i prev refs d; simpl.
  - by rewrite append_empty_r.
  - destruct (createReference refs v i st d) as [[piece refs'] d'].
    rewrite IH. simpl. by rewrite !append_assoc.
Qed.

Lemma pieces_length vs st i refs d : length (pieces i vs st refs d) = length vs.
Proof.
  revert i refs d. induction vs as [|v vs IH]; intros i refs d; simpl; [done|].
  destruct (createReference refs v i st d) as [[piece refs'] d']. simpl. by rewrite IH.
Qed.

Lemma pieces_lookup strs vs st i prev refs d j v prev_j refs_j d_j :
  vs !! j = Some v →
  assemble strs i (take j vs) st (prev, refs, d) = (prev_j, refs_j, d_j) →
  pieces i vs st refs d !! j = Some (createReference refs_j v (i + j) st d_j).1.1.
Proof.
  revert i prev refs d j. induction vs as [|w vs IH]; intros i prev refs d j Hj Hpre.
  - done.
  - destruct j as [|j]; simpl in *.
    + injection Hj as ->. injection Hpre as _ <- <-. rewrite Nat.add_0_r.
      by destruct (createReference refs v i st d) as [[piece refs'] d'].
    + destruct (createReference refs w i st d) as [[piece refs'] d'].
      simpl. replace (i + S j) with (S i + j) by lia. by eapply IH.
Qed.

End Assembly.

(** ** Callbacks and the reference table *)

Section Callbacks.

Context {St : Type}.
Variable parseHTML : string -> list html.
Variable parseFragment : string -> list html.
Implicit Types (refs : gmap nat data) (args : list (value St)) (d : Dom) (st : St).
Implicit Types (i : nat) (strs : list string) (f : callback St).

(** What the pass has done once it is past position [i]: the markup so
    far is extended, and entry [i] of the table is final. *)
Lemma assemble_after_step strs args st acc i v prev refs_i d_i piece refs_i' d_i' :
  args !! i = Some v →
  assemble strs 0 (take i args) st acc = (prev, refs_i, d_i) →
  createReference refs_i v i st d_i = (piece, refs_i', d_i') →
  ∃ rest refs d1,
    assemble strs 0 args st acc = (prev +:+ piece +:+ rest, refs, d1) ∧
    refs !! i = refs_i' !! i.
Proof.
  intros Hi Hpre Hstep.
  rewrite (assemble_split strs args st acc i v Hi), Hpre, Hstep.
  pose proof (assemble_prefix strs (drop (S i) args) st (S i)
                (prev +:+ piece +:+ stringAt strs (S i), refs_i', d_i')) as [rest Hrest].
  pose proof (assemble_refs_other strs (drop (S i) args) st (S i)
                (prev +:+ piece +:+ stringAt strs (S i), refs_i', d_i') i) as Hrefs.
  destruct (assemble strs (S i) (drop (S i) args) st
              (prev +:+ piece +:+ stringAt strs (S i), refs_i', d_i')) as [[html refs] d1].
  simpl in *. exists (stringAt strs (S i) +:+ rest), refs, d1. split.
  - rewrite Hrest. by rewrite !append_assoc.
  - apply Hrefs. lia.
Qed.

Lemma callback_result_recorded strs args refs0 st d i f prev refs_i d_i v d' :
  args !! i = Some (VFun f) →
  assemble strs 0 (take i args) st (stringAt strs 0, refs0, d) = (prev, refs_i, d_i) →
  f st d_i = (v, d') →
  isString v = None →
  createReference refs_i (VFun f) i st d_i = (marker i, <[i := v]> refs_i, d') ∧
  ∃ rest refs d1,
    assemble strs 0 args st (stringAt strs 0, refs0, d)
    = (prev +:+ marker i +:+ rest, refs, d1) ∧
    refs !! i = Some v ∧
    argAt args (Some i) = VFun f ∧
    getReferenceValue refs (argAt args (Some i)) (Some i) = VData v ∧
    ∀ this d2, slotIndex d2 this = Some i →
      resolveSlot parseFragment refs args st this d2
      = replaceWith parseFragment this (VData v) st d2.
Proof.
  intros Hi Hpre Hf Hns.
  assert (createReference refs_i (VFun f) i st d_i = (marker i, <[i := v]> refs_i, d'))
    as Hstep by (simpl; by rewrite Hf, Hns).
  split; [done|].
  destruct (assemble_after_step strs args st _ i _ _ _ _ _ _ _ Hi Hpre Hstep)
    as (rest & refs & d1 & Hall & Hrefs).
  rewrite lookup_insert_eq in Hrefs.
  exists rest, refs, d1. split_and!; try done.
  - unfold argAt. simpl. by rewrite Hi.
  - unfold getReferenceValue. simpl. by rewrite Hrefs.
  - intros this d2 Hidx. unfold resolveSlot, getReferenceValue.
    rewrite Hidx. simpl. by rewrite Hrefs.
Qed.

(** C10: a marker spliced for a callback (one whose call did not return a
    string) has its entry in the table when the pass ends; the resolution
    loop of [buildComponent] runs with that table and the table is emptied
    only in the result, so the value looked up for such a marker is never
    the callback itself. *)
Theorem callback_marker_resolved_from_table
    strs args refs0 st d i f prev refs_i d_i :
  args !! i = Some (VFun f) →
  assemble strs 0 (take i args) st (stringAt strs 0, refs0, d) = (prev, refs_i, d_i) →
  isString (f st d_i).1 = None →
  ∃ rest refs d1,
    assemble strs 0 args st (stringAt strs 0, refs0, d)
    = (prev +:+ marker i +:+ rest, refs, d1) ∧
    refs !! i = Some (f st d_i).1 ∧
    (∀ g, getReferenceValue refs (argAt args (Some i)) (Some i) ≠ VFun g) ∧
    buildComponent parseHTML parseFragment strs args refs0 st d
    = (let '(component, d2) := jq parseHTML (prev +:+ marker i +:+ rest) d1 in
       d3 ← each (resolveSlot parseFragment refs args st) (findSlots component d2) d2;
       Some (component, ∅, d3)).
Proof.
  intros Hi Hpre Hns.
  destruct (f st d_i) as [v d'] eqn:Hf. simpl in Hns.
  assert (createReference refs_i (VFun f) i st d_i = (marker i, <[i := v]> refs_i, d'))
    as Hstep by (simpl; by rewrite Hf, Hns).
  destruct (assemble_after_step strs args st _ i _ _ _ _ _ _ _ Hi Hpre Hstep)
    as (rest & refs & d1 & Hall & Hrefs).
  rewrite lookup_insert_eq in Hrefs.
  exists rest, refs, d1. split_and!; try done.
  - intros g. unfold getReferenceValue. simpl. by rewrite Hrefs.
  - unfold buildComponent. by rewrite Hall.
Qed.

(** A completed build returns the empty table, whatever it started from. *)
Lemma buildComponent_clears strs args refs0 st d u refs d' :
  buildComponent parseHTML parseFragment strs args refs0 st d = Some (u, refs, d') →
  refs = ∅.
Proof.
  unfold buildComponent.
  destruct (assemble strs 0 args st (stringAt strs 0, refs0, d)) as [[html refs1] d1].
  destruct (jq parseHTML html d1) as [component d2].
  destruct (each _ _ d2) as [d3|]; simpl; [|done].
  by intros [= _ <- _].
Qed.

(** *** A callback that returns a string *)

Lemma each_ext (g h : nid → Dom → option Dom) (c : list nid) d :
  (∀ this d, g this d = h this d) → each g c d = each h c d.
Proof.
  intros Hgh. revert d. induction c as [|this c IH]; intros d; simpl; [done|].
  rewrite Hgh. destruct (h this d); simpl; [apply IH|done].
Qed.

Section StringCallback.

Variables (st : St) (f : callback St) (s : string).
Hypothesis f_returns : ∀ d, f st d = (DItem (IStr s), d).


Lemma alike_createReference v v' refs i d :
  alike f s v v' → createReference refs v i st d = createReference refs v' i st d.
Proof. intros [->|[-> ->]]; [done|]. simpl. by rewrite f_returns. Qed.

Lemma alike_replaceWith v v' this d :
  alike f s v v' →
  replaceWith parseFragment this v st d = replaceWith parseFragment this v' st d.
Proof. intros [->|[-> ->]]; [done|]. unfold replaceWith. by rewrite f_returns. Qed.

Lemma alike_assemble strs vs vs' i acc :
  Forall2 (alike f s) vs vs' → assemble strs i vs st acc = assemble strs i vs' st acc.
Proof.
  intros Hall. revert i acc.
  induction Hall as [|v v' vs vs' Hv _ IH]; intros i [[prev refs] d]; simpl; [done|].
  rewrite (alike_createReference v v' refs i d Hv).
  destruct (createReference refs v' i st d) as [[piece refs'] d']. apply IH.
Qed.

Lemma alike_argAt args args' index :
  Forall2 (alike f s) args args' → alike f s (argAt args index) (argAt args' index).
Proof.
  intros Hall. unfold argAt. destruct index as [j|]; simpl; [|by left].
  destruct (args !! j) as [v|] eqn:Hj.
  - destruct (Forall2_lookup_l _ _ _ _ _ Hall Hj) as (v' & -> & Hv). done.
  - assert (args' !! j = None) as ->; [|by left].
    apply lookup_ge_None. apply lookup_ge_None in Hj.
    by rewrite <- (Forall2_length _ _ _ Hall).
Qed.

Lemma alike_resolveSlot refs args args' this d :
  Forall2 (alike f s) args args' →
  resolveSlot parseFragment refs args st this d
  = resolveSlot parseFragment refs args' st this d.
Proof.
  intros Hall. unfold resolveSlot. apply alike_replaceWith.
  unfold getReferenceValue.
  destruct (slotIndex d this ≫= (refs !!.)); [by left|by apply alike_argAt].
Qed.

Lemma alike_buildComponent strs args args' refs0 d :
  Forall2 (alike f s) args args' →
  buildComponent parseHTML parseFragment strs args refs0 st d
  = buildComponent parseHTML parseFragment strs args' refs0 st d.
Proof.
  intros Hall. unfold buildComponent.
  rewrite (alike_assemble strs args args' 0 _ Hall).
  destruct (assemble strs 0 args' st (stringAt strs 0, refs0, d)) as [[html refs] d1].
  destruct (jq parseHTML html d1) as [component d2].
  by rewrite (each_ext _ (resolveSlot parseFragment refs args' st))
    by (intros; by apply alike_resolveSlot).
Qed.

Lemma alike_insert args i :
  args !! i = Some (VFun f) →
  Forall2 (alike f s) args (<[i := VData (DItem (IStr s))]> args).
Proof.
  intros Hi. apply Forall2_same_length_lookup_2; [by rewrite length_insert|].
  intros j v v' Hv Hv'.
  destruct (decide (i = j)) as [<-|Hne].
  - rewrite list_lookup_insert_eq in Hv' by (by eapply lookup_lt_Some).
    right. split; congruence.
  - rewrite list_lookup_insert_ne in Hv' by done. left. congruence.
Qed.

End StringCallback.

(** *** Templates of plain values *)

Lemma assemble_plain strs (items : list item) st refs d i prev :
  Forall isPrimitive items →
  assemble strs i ((λ it, VData (DItem it)) <$> items) st (prev, refs, d)
  = (prev +:+ interleave strs i items, refs, d).
Proof.
  intros Hall. revert i prev.
  induction Hall as [|it items Hit _ IH]; intros i prev; simpl.
  - by rewrite append_empty_r.
  - destruct it; simpl in Hit; try done; simpl; rewrite IH; by rewrite !append_assoc.
Qed.

(** C7 as amended: when every interpolated value is a string or another
    primitive, the assembled markup is the direct concatenation of
    fragments and values, no callback runs and the table is not written;
    and when the parse of that markup holds no [b] element with a
    [data-slot-index] attribute below its roots, the build is that one
    parse. *)
Theorem plain_template_is_parsed_concatenation strs (items : list item) refs0 st d :
  Forall isPrimitive items →
  let args := (λ it, VData (DItem it)) <$> items in
  let html := concatenation strs items in
  assemble strs 0 args st (stringAt strs 0, refs0, d) = (html, refs0, d) ∧
  (findSlots (jq parseHTML html d).1 (jq parseHTML html d).2 = [] →
   buildComponent parseHTML parseFragment strs args refs0 st d
   = Some ((jq parseHTML html d).1, ∅, (jq parseHTML html d).2)).
Proof.
  intros Hall args html.
  assert (assemble strs 0 args st (stringAt strs 0, refs0, d) = (html, refs0, d)) as Hasm
    by by apply assemble_plain.
  split; [done|]. intros Hno.
  unfold buildComponent. rewrite Hasm.
  destruct (jq parseHTML html d) as [component d2]. simpl in *. by rewrite Hno.
Qed.

End Callbacks.

(** ** The attribute copy of [refresh] *)

Lemma removeAttribute_middle (pre : list (string * string)) name v rest :
  name ∉ pre.*1 →
  removeAttribute name (pre ++ (name, v) :: rest) = pre ++ rest.
Proof.
  induction pre as [|[k w] pre IH]; simpl; intros Hnot.
  - by rewrite decide_True.
  - apply not_elem_of_cons in Hnot as [Hne Hnot].
    rewrite decide_False by done. f_equal. by apply IH.
Qed.

(** Removing while iterating over the live list skips the attribute that
    slides into the position just vacated: of the attributes not yet
    visited, every second one survives. *)
Lemma removeLive_skips (fuel : nat) (pre rest : list (string * string)) :
  NoDup (pre ++ rest).*1 →
  (length rest ≤ fuel)%nat →
  removeLive fuel (length pre) (pre ++ rest) = pre ++ everyOther rest.
Proof.
  revert pre rest. induction fuel as [|fuel IH]; intros pre rest Hnd Hlen.
  - destruct rest; simpl in *; [done|lia].
  - simpl. destruct rest as [|[name v] rest].
    + simpl. rewrite !app_nil_r. by rewrite lookup_ge_None_2.
    + rewrite list_lookup_middle by done.
      rewrite removeAttribute_middle.
      2:{ rewrite fmap_app in Hnd. apply NoDup_app in Hnd as (_ & Hd & _).
          intros Hin. apply (Hd _ Hin). simpl. left. }
      destruct rest as [|y rest].
      * simpl. rewrite !app_nil_r. destruct fuel; simpl; [done|].
        by rewrite lookup_ge_None_2 by lia.
      * replace (pre ++ y :: rest) with ((pre ++ [y]) ++ rest) by by rewrite <- app_assoc.
        replace (S (length pre)) with (length (pre ++ [y])) by (rewrite length_app; simpl; lia).
        rewrite IH.
        -- simpl. by rewrite <- app_assoc.
        -- rewrite <- app_assoc. simpl.
           rewrite !fmap_app in *. simpl in *.
           apply NoDup_app in Hnd as (H1 & H2 & H3).
           apply NoDup_app. split_and!; [done| |].
           ++ intros x Hx Hin. apply (H2 x Hx). by right.
           ++ by apply NoDup_cons in H3 as [_ ?].
        -- simpl in Hlen. lia.
Qed.

(** With no attribute on the new root, what is left on the live root is
    every second attribute it had. *)
Lemma copyAttrList_nothing_to_copy (destination : list (string * string)) :
  NoDup destination.*1 →
  copyAttrList [] destination = everyOther destination.
Proof.
  intros Hnd. unfold copyAttrList. simpl.
  exact (removeLive_skips (length destination) [] destination Hnd (le_n _)).
Qed.

(** C3, on the template [<div ${() => flag ? "a=1 b=2" : ""}></div>] built
    with the flag set and refreshed with it cleared: the newly built root
    has no attribute, yet the live root keeps [b] after [refresh]. *)
Theorem refresh_leaves_stale_attribute :
  ∃ c d u refs d1 c' d',
    flagTemplate true dom0 = Some (c, d) ∧
    rootAttrs (Some (c, d)) = Some [("a", "1"); ("b", "2")] ∧
    buildComponent MiniHtml.parse MiniHtml.parse (strings c) (args c) (references c) false d
    = Some (u, refs, d1) ∧
    (attrsOf d1 <$> head u) = Some [] ∧
    flagRefresh c false d = Some (c', d') ∧
    rootAttrs (Some (c', d')) = Some [("b", "2")].
Proof. do 7 eexists. split_and!; vm_compute; reflexivity. Qed.

(** C8, on the same template: after the flag is cleared, two calls of
    [refresh] in a row leave different attributes on the live root. *)
Theorem refresh_twice_drifts :
  ∃ c d c1 d1 c2 d2,
    flagTemplate true dom0 = Some (c, d) ∧
    flagRefresh c false d = Some (c1, d1) ∧
    flagRefresh c1 false d1 = Some (c2, d2) ∧
    componentInstance c1 = componentInstance c2 ∧
    rootAttrs (Some (c1, d1)) = Some [("b", "2")] ∧
    rootAttrs (Some (c2, d2)) = Some [].
Proof. do 6 eexists. split_and!; vm_compute; reflexivity. Qed.

(** ** The store under the operations of jQuery *)

Section Store.

Variable parseFragment : string -> list html.
Implicit Types (d : Dom) (n p q x : nid) (ns frag : list nid).

Lemma getNode_alterNode f n d x :
  getNode (alterNode f n d) x
  = if decide (n = x) then f <$> getNode d n else getNode d x.
Proof. unfold getNode, alterNode. simpl. apply lookup_alter. Qed.

Lemma kidsOf_alter_keep f n d x :
  (∀ nd, childNodes (f nd) = childNodes nd) →
  kidsOf (alterNode f n d) x = kidsOf d x.
Proof.
  intros Hf. unfold kidsOf. rewrite getNode_alterNode.
  destruct (decide (n = x)) as [->|]; [|done].
  destruct (getNode d x); simpl; [apply Hf|done].
Qed.

Lemma kidsOf_alter_ne f n d x : n ≠ x → kidsOf (alterNode f n d) x = kidsOf d x.
Proof. intros Hne. unfold kidsOf. by rewrite getNode_alterNode, decide_False. Qed.

Lemma kidsOf_alter_withKids (g : list nid → list nid) n d :
  is_Some (getNode d n) →
  kidsOf (alterNode (λ nd, withKids (g (childNodes nd)) nd) n d) n = g (kidsOf d n).
Proof.
  intros [nd Hnd]. unfold kidsOf.
  by rewrite getNode_alterNode, decide_True, Hnd by done.
Qed.

Lemma parentOf_alter_keep f n d x :
  (∀ nd, parentNode (f nd) = parentNode nd) →
  parentOf (alterNode f n d) x = parentOf d x.
Proof.
  intros Hf. unfold parentOf. rewrite getNode_alterNode.
  destruct (decide (n = x)) as [->|]; [|done].
  destruct (getNode d x); simpl; [apply Hf|done].
Qed.

Lemma parentOf_alter_ne f n d x : n ≠ x → parentOf (alterNode f n d) x = parentOf d x.
Proof. intros Hne. unfold parentOf. by rewrite getNode_alterNode, decide_False. Qed.

Lemma parentOf_alter_withParent (o : option nid) n d :
  is_Some (getNode d n) → parentOf (alterNode (withParent o) n d) n = o.
Proof.
  intros [nd Hnd]. unfold parentOf.
  by rewrite getNode_alterNode, decide_True, Hnd by done.
Qed.

Lemma kindOf_alter_keep f n d x :
  (∀ nd, kind (f nd) = kind nd) → kindOf (alterNode f n d) x = kindOf d x.
Proof.
  intros Hf. unfold kindOf. rewrite getNode_alterNode.
  destruct (decide (n = x)) as [->|]; [|done].
  destruct (getNode d x); simpl; [by rewrite Hf|done].
Qed.

Lemma attrsOf_alter_keep f n d x :
  (∀ nd, attributes (f nd) = attributes nd) → attrsOf (alterNode f n d) x = attrsOf d x.
Proof.
  intros Hf. unfold attrsOf. rewrite getNode_alterNode.
  destruct (decide (n = x)) as [->|]; [|done].
  destruct (getNode d x); simpl; [by rewrite Hf|done].
Qed.

Lemma attrsOf_alter_ne f n d x : n ≠ x → attrsOf (alterNode f n d) x = attrsOf d x.
Proof. intros Hne. unfold attrsOf. by rewrite getNode_alterNode, decide_False. Qed.

Lemma is_Some_getNode_alter f n d x :
  is_Some (getNode (alterNode f n d) x) ↔ is_Some (getNode d x).
Proof.
  rewrite getNode_alterNode. destruct (decide (n = x)) as [->|]; [|done].
  by rewrite fmap_is_Some.
Qed.

(** *** Detaching nodes *)

Lemma detachNode_kidsOf n d q :
  kidsOf (detachNode n d) q
  = if decide (parentOf d n = Some q) then filter (λ c, c ≠ n) (kidsOf d q) else kidsOf d q.
Proof.
  unfold detachNode. destruct (parentOf d n) as [p|] eqn:Hp.
  - rewrite kidsOf_alter_keep by done.
    destruct (decide (Some p = Some q)) as [[= ->]|Hne].
    + unfold kidsOf. rewrite getNode_alterNode, decide_True by done.
      by destruct (getNode d q).
    + rewrite kidsOf_alter_ne; [done|congruence].
  - by rewrite decide_False.
Qed.

Lemma detachNode_parentOf n d x :
  parentOf (detachNode n d) x = if decide (x = n) then None else parentOf d x.
Proof.
  unfold detachNode. destruct (parentOf d n) as [p|] eqn:Hp.
  - destruct (decide (x = n)) as [->|Hne].
    + unfold parentOf at 1. rewrite getNode_alterNode, decide_True by done.
      destruct (getNode _ n); done.
    + rewrite parentOf_alter_ne by done. by rewrite parentOf_alter_keep.
  - destruct (decide (x = n)) as [->|]; done.
Qed.

Lemma detachNode_kindOf n d x : kindOf (detachNode n d) x = kindOf d x.
Proof.
  unfold detachNode. destruct (parentOf d n); [|done].
  by rewrite !kindOf_alter_keep.
Qed.

Lemma detachNode_attrsOf n d x : attrsOf (detachNode n d) x = attrsOf d x.
Proof.
  unfold detachNode. destruct (parentOf d n); [|done].
  by rewrite !attrsOf_alter_keep.
Qed.

Lemma detachNode_is_Some n d x :
  is_Some (getNode (detachNode n d) x) ↔ is_Some (getNode d x).
Proof.
  unfold detachNode. destruct (parentOf d n); [|done].
  by rewrite !is_Some_getNode_alter.
Qed.

Lemma detachNode_fresh n d : fresh (detachNode n d) = fresh d.
Proof. unfold detachNode. by destruct (parentOf d n). Qed.

Lemma detach_cons n ns d : detach (n :: ns) d = detach ns (detachNode n d).
Proof. done. Qed.

(** Detaching a list of nodes removes some of them from a child list and
    nothing else. *)
Lemma detach_kidsOf ns d q :
  ∃ R, R ⊆ ns ∧ kidsOf (detach ns d) q = filter (λ c, c ∉ R) (kidsOf d q).
Proof.
  revert d. induction ns as [|n ns IH]; intros d.
  - exists []. split; [done|]. simpl.
    induction (kidsOf d q) as [|c l IHl]; [done|].
    rewrite filter_cons_True by apply not_elem_of_nil. by rewrite <- IHl.
  - rewrite detach_cons. destruct (IH (detachNode n d)) as (R & HR & ->).
    rewrite detachNode_kidsOf. destruct (decide (parentOf d n = Some q)).
    + exists (n :: R). split; [by apply list_subseteq_skip|].
      rewrite list_filter_filter. apply list_filter_iff. intros c.
      rewrite not_elem_of_cons. tauto.
    + exists R. split; [by apply list_subseteq_cons|done].
Qed.

Lemma detach_parentOf ns d x :
  parentOf (detach ns d) x = if decide (x ∈ ns) then None else parentOf d x.
Proof.
  revert d. induction ns as [|n ns IH]; intros d.
  - rewrite decide_False by apply not_elem_of_nil. done.
  - rewrite detach_cons, IH, detachNode_parentOf.
    destruct (decide (x ∈ ns)) as [Hin|Hnin].
    + by rewrite decide_True by by right.
    + destruct (decide (x = n)) as [->|Hne].
      * by rewrite decide_True by by left.
      * rewrite decide_False; [done|]. by apply not_elem_of_cons.
Qed.

Lemma detach_kindOf ns d x : kindOf (detach ns d) x = kindOf d x.
Proof.
  revert d. induction ns as [|n ns IH]; intros d; [done|].
  by rewrite detach_cons, IH, detachNode_kindOf.
Qed.

Lemma detach_attrsOf ns d x : attrsOf (detach ns d) x = attrsOf d x.
Proof.
  revert d. induction ns as [|n ns IH]; intros d; [done|].
  by rewrite detach_cons, IH, detachNode_attrsOf.
Qed.

Lemma detach_is_Some ns d x :
  is_Some (getNode (detach ns d) x) ↔ is_Some (getNode d x).
Proof.
  revert d. induction ns as [|n ns IH]; intros d; [done|].
  by rewrite detach_cons, IH, detachNode_is_Some.
Qed.

(** *** Building a fragment out of existing nodes *)

Lemma elem_of_moveToEnd frag n x : x ∈ moveToEnd frag n ↔ x ∈ frag ∨ x = n.
Proof.
  unfold moveToEnd. rewrite elem_of_app, list_elem_of_filter, list_elem_of_singleton.
  destruct (decide (x = n)); tauto.
Qed.

Lemma elem_of_moveToEnd_all ns frag x :
  x ∈ fold_left moveToEnd ns frag ↔ x ∈ frag ∨ x ∈ ns.
Proof.
  revert frag. induction ns as [|n ns IH]; intros frag; simpl.
  - rewrite elem_of_nil. tauto.
  - rewrite IH, elem_of_moveToEnd, elem_of_cons. tauto.
Qed.

Lemma moveToEnd_new frag n : n ∉ frag → moveToEnd frag n = frag ++ [n].
Proof.
  intros Hn. unfold moveToEnd. f_equal.
  induction frag as [|c frag IH]; [done|].
  apply not_elem_of_cons in Hn as [Hne Hn].
  rewrite filter_cons_True by done. f_equal. by apply IH.
Qed.

Lemma moveToEnd_all_new ns frag :
  NoDup (frag ++ ns) → fold_left moveToEnd ns frag = frag ++ ns.
Proof.
  revert frag. induction ns as [|n ns IH]; intros frag Hnd; simpl.
  - by rewrite app_nil_r.
  - rewrite moveToEnd_new.
    + rewrite IH; rewrite <- app_assoc; done.
    + apply NoDup_app in Hnd as (_ & Hd & _). intros Hin. apply (Hd _ Hin). by left.
Qed.

Lemma detach_app ns1 ns2 d : detach (ns1 ++ ns2) d = detach ns2 (detach ns1 d).
Proof. unfold detach. by rewrite fold_left_app. Qed.

Lemma fragNodes_spec (skip ns frag : list nid) (ign : bool) d :
  (∀ n, n ∈ ns → n ∉ skip) →
  fragNodes skip ns (frag, ign, d) = (fold_left moveToEnd ns frag, ign, detach ns d).
Proof.
  revert frag d. induction ns as [|n ns IH]; intros frag d Hskip; simpl; [done|].
  rewrite decide_False by (apply Hskip; by left).
  rewrite IH; [done|]. intros x Hx. apply Hskip. by right.
Qed.

Lemma fragItems_nodes (skip : list nid) (items : list item) frag (ign : bool) d :
  Forall isNodes items →
  (∀ n, n ∈ flat_map itemNodes items → n ∉ skip) →
  fold_left (fragItem parseFragment skip) items (frag, ign, d)
  = (fold_left moveToEnd (flat_map itemNodes items) frag, ign,
     detach (flat_map itemNodes items) d).
Proof.
  intros Hall. revert frag d.
  induction Hall as [|it items Hit _ IH]; intros frag d Hskip; simpl; [done|].
  destruct it as [| | |ns]; simpl in Hit; try done. simpl in *.
  rewrite fragNodes_spec by (intros n Hn; apply Hskip, elem_of_app; by left).
  rewrite IH by (intros n Hn; apply Hskip, elem_of_app; by right).
  by rewrite fold_left_app, detach_app.
Qed.

Lemma buildFragment_nodes (skip : list nid) (v : data) d :
  onlyNodes v →
  (∀ n, n ∈ valueNodes v → n ∉ skip) →
  buildFragment parseFragment skip v d
  = (fold_left moveToEnd (valueNodes v) [], false, detach (valueNodes v) d).
Proof. intros. by apply fragItems_nodes. Qed.

(** *** Giving the nodes of a fragment their new parent *)

Lemma adopt_kidsOf p frag d x : kidsOf (adopt p frag d) x = kidsOf d x.
Proof.
  induction frag as [|n frag IH]; simpl; [done|].
  by rewrite kidsOf_alter_keep.
Qed.

Lemma adopt_kindOf p frag d x : kindOf (adopt p frag d) x = kindOf d x.
Proof.
  induction frag as [|n frag IH]; simpl; [done|].
  by rewrite kindOf_alter_keep.
Qed.

Lemma adopt_attrsOf p frag d x : attrsOf (adopt p frag d) x = attrsOf d x.
Proof.
  induction frag as [|n frag IH]; simpl; [done|].
  by rewrite attrsOf_alter_keep.
Qed.

Lemma adopt_is_Some p frag d x :
  is_Some (getNode (adopt p frag d) x) ↔ is_Some (getNode d x).
Proof.
  induction frag as [|n frag IH]; simpl; [done|].
  by rewrite is_Some_getNode_alter.
Qed.

Lemma adopt_parentOf_in p frag d x :
  x ∈ frag → is_Some (getNode d x) → parentOf (adopt p frag d) x = Some p.
Proof.
  intros Hin Hx. induction frag as [|n frag IH]; simpl; [by apply elem_of_nil in Hin|].
  destruct (decide (n = x)) as [->|Hne].
  - apply parentOf_alter_withParent. by apply adopt_is_Some.
  - rewrite parentOf_alter_ne by done. apply IH.
    apply elem_of_cons in Hin as [->|]; done.
Qed.

Lemma adopt_parentOf_out p frag d x :
  x ∉ frag → parentOf (adopt p frag d) x = parentOf d x.
Proof.
  intros Hout. induction frag as [|n frag IH]; simpl; [done|].
  apply not_elem_of_cons in Hout as [Hne Hout].
  rewrite parentOf_alter_ne by done. by apply IH.
Qed.

Lemma spliceAt_middle this frag (pre post : list nid) :
  this ∉ pre → this ∉ post →
  spliceAt this frag (pre ++ this :: post) = pre ++ frag ++ post.
Proof.
  intros Hpre Hpost. unfold spliceAt.
  assert (∀ l : list nid, this ∉ l →
            flat_map (λ c, if decide (c = this) then frag else [c]) l = l) as Hid.
  { induction l as [|c l IH]; intros Hl; [done|].
    apply not_elem_of_cons in Hl as [Hne Hl]. simpl.
    rewrite decide_False by done. simpl. f_equal. by apply IH. }
  rewrite flat_map_app. simpl. rewrite decide_True by done.
  by rewrite !Hid.
Qed.

(** *** Emptying elements *)

Lemma orphan_parentOf (ks : list nid) d x :
  x ∉ ks →
  parentOf (fold_left (λ d c, alterNode (withParent None) c d) ks d) x = parentOf d x.
Proof.
  revert d. induction ks as [|k ks IH]; intros d Hx; simpl; [done|].
  apply not_elem_of_cons in Hx as [Hne Hx].
  rewrite IH by done. by rewrite parentOf_alter_ne.
Qed.

Lemma orphan_kidsOf (ks : list nid) d x :
  kidsOf (fold_left (λ d c, alterNode (withParent None) c d) ks d) x = kidsOf d x.
Proof.
  revert d. induction ks as [|k ks IH]; intros d; simpl; [done|].
  by rewrite IH, kidsOf_alter_keep.
Qed.

Lemma orphan_kindOf (ks : list nid) d x :
  kindOf (fold_left (λ d c, alterNode (withParent None) c d) ks d) x = kindOf d x.
Proof.
  revert d. induction ks as [|k ks IH]; intros d; simpl; [done|].
  by rewrite IH, kindOf_alter_keep.
Qed.

Lemma orphan_attrsOf (ks : list nid) d x :
  attrsOf (fold_left (λ d c, alterNode (withParent None) c d) ks d) x = attrsOf d x.
Proof.
  revert d. induction ks as [|k ks IH]; intros d; simpl; [done|].
  by rewrite IH, attrsOf_alter_keep.
Qed.

Lemma emptyNode_kindOf r d x : kindOf (emptyNode r d) x = kindOf d x.
Proof.
  unfold emptyNode. destruct (getNode d r) as [nd|]; [|done].
  destruct (kind nd); [|done].
  by rewrite kindOf_alter_keep, orphan_kindOf.
Qed.

Lemma emptyNode_attrsOf r d x : attrsOf (emptyNode r d) x = attrsOf d x.
Proof.
  unfold emptyNode. destruct (getNode d r) as [nd|]; [|done].
  destruct (kind nd); [|done].
  by rewrite attrsOf_alter_keep, orphan_attrsOf.
Qed.

Lemma emptyNode_parentOf r d x :
  x ∉ kidsOf d r → parentOf (emptyNode r d) x = parentOf d x.
Proof.
  intros Hx. unfold emptyNode, kidsOf in *. destruct (getNode d r) as [nd|]; [|done].
  destruct (kind nd); [|done].
  rewrite parentOf_alter_keep by done.
  by rewrite orphan_parentOf.
Qed.

Lemma emptyNode_kidsOf r d x :
  kidsOf (emptyNode r d) x
  = if decide (x = r) then
      match kindOf d r with Some (Element _) => [] | _ => kidsOf d r end
    else kidsOf d x.
Proof.
  unfold emptyNode, kindOf. destruct (getNode d r) as [nd|] eqn:Hr; simpl.
  - destruct (kind nd) eqn:Hk.
    + destruct (decide (x = r)) as [->|Hne].
      * unfold kidsOf at 1. rewrite getNode_alterNode, decide_True by done.
        by destruct (getNode (fold_left _ _ d) r).
      * by rewrite kidsOf_alter_ne, orphan_kidsOf.
    + by destruct (decide (x = r)) as [->|].
  - by destruct (decide (x = r)) as [->|].
Qed.

Lemma empty_kindOf (c : list nid) d x : kindOf (empty c d) x = kindOf d x.
Proof.
  revert d. induction c as [|r c IH]; intros d; [done|].
  unfold empty in *. simpl. by rewrite IH, emptyNode_kindOf.
Qed.

Lemma empty_attrsOf (c : list nid) d x : attrsOf (empty c d) x = attrsOf d x.
Proof.
  revert d. induction c as [|r c IH]; intros d; [done|].
  unfold empty in *. simpl. by rewrite IH, emptyNode_attrsOf.
Qed.

Lemma emptyNode_kids_sub r d x y : y ∈ kidsOf (emptyNode r d) x → y ∈ kidsOf d x.
Proof.
  rewrite emptyNode_kidsOf. destruct (decide (x = r)) as [->|]; [|done].
  destruct (kindOf d r) as [[]|]; [|done..]. by intros ?%elem_of_nil.
Qed.

Lemma elem_of_contents (c : list nid) d y :
  y ∈ contents c d ↔ ∃ r, r ∈ c ∧ y ∈ kidsOf d r.
Proof.
  unfold contents. rewrite list_elem_of_In, in_flat_map.
  split; intros (r & Hr & Hy); exists r; by rewrite ?list_elem_of_In in *.
Qed.

Lemma empty_parentOf (c : list nid) d x :
  x ∉ contents c d → parentOf (empty c d) x = parentOf d x.
Proof.
  revert d. induction c as [|r c IH]; intros d Hx; [done|].
  unfold empty in *. simpl. unfold contents in *. simpl in Hx.
  rewrite elem_of_app in Hx.
  rewrite IH.
  - apply emptyNode_parentOf. tauto.
  - intros Hin. apply Hx. right.
    apply elem_of_contents in Hin as (r' & Hr' & Hin).
    apply elem_of_contents. exists r'. split; [done|]. by eapply emptyNode_kids_sub.
Qed.

(** *** Copies are new nodes *)

Lemma extends_refl d : extends d d.
Proof. by split. Qed.

Lemma extends_trans d1 d2 d3 : extends d1 d2 → extends d2 d3 → extends d1 d3.
Proof.
  intros [H1 G1] [H2 G2]. split; [lia|].
  intros x Hx. rewrite G2 by lia. by apply G1.
Qed.

Lemma newNode_extends k a (o : option nid) d : extends d (newNode k a o d).2.
Proof.
  split; simpl; [lia|]. intros x Hx. unfold getNode. simpl.
  rewrite lookup_insert_ne; [done|lia].
Qed.

Lemma alterNode_new_extends f d0 d c :
  extends d0 d → fresh d0 ≤ c → extends d0 (alterNode f c d).
Proof.
  intros [H G] Hc. split; [done|]. intros x Hx.
  rewrite getNode_alterNode, decide_False by lia. by apply G.
Qed.

Lemma fold_extends (g : nid → Dom → list nid * Dom) (l acc : list nid) d :
  (∀ n d, extends d (g n d).2 ∧ ∀ y, y ∈ (g n d).1 → fresh d ≤ y) →
  extends d (fold_left (λ '(acc, d) n, let '(ks, d') := g n d in (acc ++ ks, d')) l (acc, d)).2
  ∧ ∀ y, y ∈ (fold_left (λ '(acc, d) n, let '(ks, d') := g n d in (acc ++ ks, d'))
                 l (acc, d)).1 → y ∈ acc ∨ fresh d ≤ y.
Proof.
  intros Hg. revert acc d. induction l as [|n l IH]; intros acc d; simpl.
  - split; [apply extends_refl|]. by left.
  - destruct (Hg n d) as [Hext Hnew]. destruct (g n d) as [ks d1]. simpl in *.
    destruct (IH (acc ++ ks) d1) as [Hext' Hnew']. split.
    + by eapply extends_trans.
    + intros y Hy. destruct (Hnew' y Hy) as [Hin|Hle].
      * apply elem_of_app in Hin as [?|Hin]; [by left|right; by apply Hnew].
      * right. destruct Hext. lia.
Qed.

Lemma cloneNode_extends fuel (o : option nid) n d :
  extends d (cloneNode fuel o n d).2
  ∧ ∀ y, y ∈ (cloneNode fuel o n d).1 → fresh d ≤ y.
Proof.
  revert o n d. induction fuel as [|fuel IH]; intros o n d; simpl.
  - split; [apply extends_refl|]. by intros y ?%elem_of_nil.
  - destruct (getNode d n) as [nd|]; [|split; [apply extends_refl|by intros y ?%elem_of_nil]].
    pose proof (fold_extends (cloneNode fuel (Some (fresh d))) (childNodes nd) []
                  (newNode (kind nd) (attributes nd) o d).2
                  (λ n0 d0, IH (Some (fresh d)) n0 d0)) as Hfold.
    simpl in Hfold.
    destruct (fold_left _ (childNodes nd) _) as [cs d1]. simpl in *.
    destruct Hfold as [Hext _]. split.
    + apply alterNode_new_extends; [|done].
      eapply extends_trans; [apply (newNode_extends (kind nd) (attributes nd) o d)|done].
    + intros y ->%list_elem_of_singleton. done.
Qed.

Lemma cloneAll_extends frag d :
  extends d (cloneAll frag d).2 ∧ ∀ y, y ∈ (cloneAll frag d).1 → fresh d ≤ y.
Proof.
  unfold cloneAll.
  destruct (fold_extends (λ n d, cloneNode (S (size (heap d))) None n d) frag [] d)
    as [Hext Hnew].
  { intros n d0. apply cloneNode_extends. }
  split; [done|]. intros y Hy. destruct (Hnew y Hy) as [?%elem_of_nil|]; done.
Qed.

(** *** Appending, and what it leaves alone *)

Lemma keeps_refl x d : keeps x d d.
Proof. done. Qed.

Lemma keeps_trans x d1 d2 d3 : keeps x d1 d2 → keeps x d2 d3 → keeps x d1 d3.
Proof. intros (?&?&?) (?&?&?). split_and!; congruence. Qed.

Lemma extends_keeps x d d' : extends d d' → x < fresh d → keeps x d d'.
Proof.
  intros [_ Hsame] Hx. unfold keeps, kindOf, attrsOf, parentOf.
  by rewrite Hsame.
Qed.

Lemma detach_fresh ns d : fresh (detach ns d) = fresh d.
Proof.
  revert d. induction ns as [|n ns IH]; intros d; [done|].
  by rewrite detach_cons, IH, detachNode_fresh.
Qed.

Lemma detach_keeps ns d x : x ∉ ns → keeps x d (detach ns d).
Proof.
  intros Hx. split_and!.
  - apply detach_kindOf.
  - apply detach_attrsOf.
  - by rewrite detach_parentOf, decide_False.
Qed.

Lemma fragNodes_filter (skip ns frag : list nid) (ign : bool) d :
  ∃ ign',
    fragNodes skip ns (frag, ign, d)
    = (fold_left moveToEnd (filter (λ n, n ∉ skip) ns) frag, ign',
       detach (filter (λ n, n ∉ skip) ns) d).
Proof.
  revert frag ign d. induction ns as [|n ns IH]; intros frag ign d; simpl.
  - by exists ign.
  - destruct (decide (n ∈ skip)) as [Hin|Hout].
    + rewrite filter_cons_False by tauto. apply IH.
    + rewrite filter_cons_True by done. apply IH.
Qed.

Lemma appendChildren_keeps t frag d d' x :
  appendChildren t frag d = Some d' → x ∉ frag → keeps x d d'.
Proof.
  unfold appendChildren. intros Happ Hx.
  destruct (getNode d t) as [nd|]; [|by injection Happ as <-].
  destruct (kind nd); [|by injection Happ as <-].
  destruct (hierarchyOk frag t d); [|done]. injection Happ as <-.
  split_and!.
  - by rewrite adopt_kindOf, kindOf_alter_keep.
  - by rewrite adopt_attrsOf, attrsOf_alter_keep.
  - by rewrite adopt_parentOf_out, parentOf_alter_keep.
Qed.

Lemma adopt_fresh p frag d : fresh (adopt p frag d) = fresh d.
Proof. induction frag as [|n frag IH]; simpl; done. Qed.

Lemma appendChildren_fresh t frag d d' :
  appendChildren t frag d = Some d' → fresh d' = fresh d.
Proof.
  unfold appendChildren. intros Happ.
  destruct (getNode d t) as [nd|]; [|by injection Happ as <-].
  destruct (kind nd); [|by injection Happ as <-].
  destruct (hierarchyOk frag t d); [|done]. injection Happ as <-.
  by rewrite adopt_fresh.
Qed.

Lemma appendEach_keeps targets frag d d' x :
  appendEach targets frag d = Some d' → x < fresh d → x ∉ frag → keeps x d d'.
Proof.
  revert d. induction targets as [|t [|t' r] IH]; intros d Happ Hx Hfrag.
  - by injection Happ as <-.
  - by eapply appendChildren_keeps.
  - change (appendEach (t :: t' :: r) frag d)
      with (let '(copy, d1) := cloneAll frag d in
            d2 ← appendChildren t copy d1; appendEach (t' :: r) frag d2) in Happ.
    destruct (cloneAll_extends frag d) as [Hext Hnew].
    destruct (cloneAll frag d) as [copy d1]. simpl in Hext, Hnew.
    destruct (appendChildren t copy d1) as [d2|] eqn:Hd2; simpl in Happ; [|done].
    eapply keeps_trans; [by apply extends_keeps|].
    eapply keeps_trans.
    + eapply appendChildren_keeps; [done|]. intros Hin. apply Hnew in Hin. lia.
    + apply IH; [done| |done].
      rewrite (appendChildren_fresh _ _ _ _ Hd2). destruct Hext. lia.
Qed.

Lemma append_keeps (c content : list nid) d d' x :
  append parseFragment c content d = Some d' → x ∈ c → x < fresh d → keeps x d d'.
Proof.
  unfold append. intros Happ Hc Hx.
  destruct c as [|r0 c0]; [by apply elem_of_nil in Hc|].
  set (c := r0 :: c0) in *.
  change (buildFragment parseFragment c (DItem (IJq content)) d)
    with (fragNodes c content ([], false, d)) in Happ.
  destruct (fragNodes_filter c content [] false d) as [ign' Hfrag].
  rewrite Hfrag in Happ.
  set (ns := filter (λ n, n ∉ c) content) in *.
  assert (x ∉ ns) as Hns by (unfold ns; rewrite list_elem_of_filter; tauto).
  assert (x ∉ fold_left moveToEnd ns []) as Hout.
  { rewrite elem_of_moveToEnd_all. intros [?%elem_of_nil|?]; done. }
  pose proof (detach_keeps ns d x Hns) as Hk1.
  destruct (fold_left moveToEnd ns []) as [|f frag] eqn:Hf.
  - injection Happ as Hd. rewrite <- Hd. exact Hk1.
  - eapply keeps_trans; [exact Hk1|].
    eapply appendEach_keeps; [exact Happ| |exact Hout]. by rewrite detach_fresh.
Qed.

Lemma copyAttributes_keeps (src dst : option nid) d d' x :
  copyAttributes src dst d = Some d' →
  kindOf d' x = kindOf d x ∧ parentOf d' x = parentOf d x ∧ kidsOf d' x = kidsOf d x
  ∧ (dst ≠ Some x → attrsOf d' x = attrsOf d x).
Proof.
  unfold copyAttributes. intros Hc.
  destruct (elementAttrs d dst) as [a|]; simpl in Hc; [|done].
  destruct (elementAttrs d src) as [b|]; simpl in Hc; [|done].
  destruct dst as [r|]; simpl in Hc; [|done]. injection Hc as <-.
  split_and!.
  - by rewrite kindOf_alter_keep.
  - by rewrite parentOf_alter_keep.
  - by rewrite kidsOf_alter_keep.
  - intros Hne. rewrite attrsOf_alter_ne; [done|congruence].
Qed.

Lemma emptyNode_fresh r d : fresh (emptyNode r d) = fresh d.
Proof.
  unfold emptyNode. destruct (getNode d r) as [nd|]; [|done].
  destruct (kind nd); [|done]. simpl.
  generalize (childNodes nd). intros ks. revert d.
  induction ks as [|k ks IH]; intros d; simpl; [done|]. by rewrite IH.
Qed.

Lemma empty_fresh (c : list nid) d : fresh (empty c d) = fresh d.
Proof.
  revert d. induction c as [|r c IH]; intros d; [done|].
  unfold empty in *. simpl. by rewrite IH, emptyNode_fresh.
Qed.

(** Appending to a single element: it gains the nodes, in order. *)
Lemma append_single r (ch : list nid) d d' :
  append parseFragment [r] ch d = Some d' →
  r ∉ ch → NoDup ch →
  keeps r d d' ∧
  (∀ t, kindOf d r = Some (Element t) → kidsOf d' r = kidsOf (detach ch d) r ++ ch).
Proof.
  intros Happ Hr Hnd. unfold append in Happ.
  rewrite (buildFragment_nodes [r] (DItem (IJq ch)) d) in Happ.
  2:{ unfold onlyNodes. simpl. by repeat constructor. }
  2:{ unfold valueNodes. simpl. rewrite app_nil_r. intros n Hn ->%list_elem_of_singleton. done. }
  unfold valueNodes in Happ. simpl in Happ. rewrite app_nil_r in Happ.
  rewrite moveToEnd_all_new in Happ by done. simpl in Happ.
  pose proof (detach_keeps ch d r Hr) as Hk.
  destruct ch as [|n ch'].
  { injection Happ as <-. split; [done|]. intros t _. by rewrite app_nil_r. }
  remember (n :: ch') as ch eqn:Hch.
  assert (appendChildren r ch (detach ch d) = Some d') as Happ'
    by (rewrite Hch in *; exact Happ).
  clear Happ. rename Happ' into Happ.
  split.
  - eapply keeps_trans; [exact Hk|]. by eapply appendChildren_keeps.
  - intros t Ht. destruct Hk as (Hkind & _ & _). rewrite <- Hkind in Ht.
    unfold appendChildren in Happ. unfold kindOf in Ht.
    destruct (getNode (detach ch d) r) as [nd|] eqn:Hnode; [|done].
    simpl in Ht. injection Ht as Ht. rewrite Ht in Happ.
    destruct (hierarchyOk ch r (detach ch d)); [|done]. injection Happ as <-.
    rewrite adopt_kidsOf.
    by rewrite (kidsOf_alter_withKids (λ l, l ++ ch)) by by rewrite Hnode.
Qed.

End Store.

(** ** [refresh] *)

Section Refresh.

Context {St : Type}.
Variable parseHTML : string -> list html.
Variable parseFragment : string -> list html.
Implicit Types (c : Closure St) (d : Dom) (st : St) (r : nid).

Lemma refresh_inv c st d c' d' :
  refresh parseHTML parseFragment c st d = Some (c', d') →
  ∃ u refs d1 d3,
    buildComponent parseHTML parseFragment (strings c) (args c) (references c) st d
    = Some (u, refs, d1) ∧
    append parseFragment (componentInstance c) (contents u d1)
      (empty (componentInstance c) (detach (contents u d1) d1)) = Some d3 ∧
    copyAttributes (head u) (head (componentInstance c)) d3 = Some d' ∧
    c' = mkClosure (strings c) (args c) refs (componentInstance c).
Proof.
  unfold refresh. intros Hr.
  destruct (buildComponent _ _ _ _ _ st d) as [[[u refs] d1]|]; simpl in Hr; [|done].
  destruct (append _ _ _ _) as [d3|] eqn:Ha; simpl in Hr; [|done].
  destruct (copyAttributes _ _ d3) as [d4|] eqn:Hc; simpl in Hr; [|done].
  injection Hr as <- <-. by exists u, refs, d1, d3.
Qed.

Lemma detach_contents_sub (ns cs : list nid) d y :
  y ∈ contents cs (detach ns d) → y ∈ contents cs d.
Proof.
  rewrite !elem_of_contents. intros (q & Hq & Hy). exists q. split; [done|].
  destruct (detach_kidsOf ns d q) as (R & _ & Hk). rewrite Hk in Hy.
  by apply list_elem_of_filter in Hy as [_ ?].
Qed.

(** What a single-root instance holds after [refresh]: the children of the
    rebuilt root, and nothing of what it held before. *)
Lemma refresh_children c st d c' d' r u refs d1 :
  componentInstance c = [r] →
  refresh parseHTML parseFragment c st d = Some (c', d') →
  buildComponent parseHTML parseFragment (strings c) (args c) (references c) st d
  = Some (u, refs, d1) →
  NoDup (contents u d1) →
  r ∉ contents u d1 →
  kidsOf d' r = contents u d1.
Proof.
  intros Hinst Hr Hb Hnd Hnot.
  destruct (refresh_inv c st d c' d' Hr) as (u' & refs' & d1' & d3 & Hb' & Ha & Hc & _).
  rewrite Hb in Hb'. injection Hb' as <- <- <-.
  rewrite Hinst in *. set (ch := contents u d1) in *.
  destruct (append_single parseFragment r ch _ d3 Ha Hnot Hnd) as [K Hkids].
  destruct (copyAttributes_keeps _ _ _ _ r Hc) as (_ & _ & -> & _).
  assert (∃ t, kindOf d3 r = Some (Element t)) as [t Ht].
  { unfold copyAttributes, elementAttrs in Hc. simpl in Hc. unfold kindOf.
    destruct (getNode d3 r) as [nd|]; simpl in *; [|done].
    destruct (kind nd); [by eexists|done]. }
  destruct K as (Hkind & _). rewrite Hkind in Ht.
  rewrite (Hkids t Ht).
  destruct (detach_kidsOf ch (empty [r] (detach ch d1)) r) as (R & _ & ->).
  unfold empty. simpl. rewrite emptyNode_kidsOf, decide_True by done.
  unfold empty in Ht. simpl in Ht. rewrite emptyNode_kindOf in Ht. by rewrite Ht.
Qed.

End Refresh.

(** ** The model at work on concrete templates *)

Section Concrete.

(** [template`<button id=b>Hello, ${"World"}!</button>`] *)
Example hello_button :
  shapes (buildComponent (St:=unit) MiniHtml.parse MiniHtml.parse ["<button id=b>Hello, "; "!</button>"]
            [str "World"] ∅ tt dom0)
  = [HElem "button" [("id", "b")] [HText "Hello, World!"]].
Proof. vm_compute. reflexivity. Qed.

(** [template`<ul>${items.map(x => template`<li>${x}</li>`)}</ul>`] *)
Example list_of_items :
  shapes (buildComponent MiniHtml.parse MiniHtml.parse ["<ul>"; "</ul>"] [VFun itemsCallback] ∅ ["A"; "B"] dom0)
  = [HElem "ul" [] [HElem "li" [] [HText "A"]; HElem "li" [] [HText "B"]]].
Proof. vm_compute. reflexivity. Qed.

(** C1 fails on [template`${button}`]: the marker is the root of the parsed
    markup, the search below the root does not find it, and the component
    is the marker; the button is nowhere in it. *)
Lemma root_level_value_not_inserted :
  ∃ c d,
    nodeLike (DItem (IJq [0])) ∧
    kindOf buttonDom 0 = Some (Element "button") ∧
    template (St:=unit) MiniHtml.parse MiniHtml.parse [EmptyString; EmptyString] [button] tt buttonDom
    = Some (c, d) ∧
    componentInstance c = [2] ∧
    shape 5 d <$> componentInstance c = [HElem "b" [("data-slot-index", "0")] []] ∧
    parentOf d 0 = None.
Proof. do 2 eexists. split_and!; [exact I|vm_compute; reflexivity..]. Qed.

(** C2 fails when a callback returns the instance itself: the root [0],
    which sits under [main], is taken into the rebuilt structure and
    [refresh] leaves it without a parent. *)
Lemma refresh_detaches_returned_root :
  ∃ c d m d1 c' d',
    template MiniHtml.parse MiniHtml.parse ["<div>"; "</div>"] [VFun heldNodes] [] dom0 = Some (c, d) ∧
    componentInstance c = [0] ∧
    template (St:=list nid) MiniHtml.parse MiniHtml.parse ["<main>"; "</main>"]
      [VData (DItem (IJq [0]))] [] d = Some (m, d1) ∧
    parentOf d1 0 = Some 2 ∧
    refresh MiniHtml.parse MiniHtml.parse c [0] d1 = Some (c', d') ∧
    parentOf d' 0 = None.
Proof. do 6 eexists. split_and!; vm_compute; reflexivity. Qed.


(** C7 fails on [template`<div><b data-slot-index=0></b>${"x"}</div>`]: one
    root, one string value, and the build is not the parse of the
    concatenation, because the literal [b] is taken for a marker. *)
Lemma literal_marker_is_resolved :
  Forall isPrimitive [IStr "x"] ∧
  concatenation ["<div><b data-slot-index=0></b>"; "</div>"] [IStr "x"]
  = "<div><b data-slot-index=0></b>x</div>" ∧
  shapes (Some ((jq MiniHtml.parse "<div><b data-slot-index=0></b>x</div>" dom0).1, ∅,
                (jq MiniHtml.parse "<div><b data-slot-index=0></b>x</div>" dom0).2))
  = [HElem "div" [] [HElem "b" [("data-slot-index", "0")] []; HText "x"]] ∧
  shapes (buildComponent (St:=unit) MiniHtml.parse MiniHtml.parse ["<div><b data-slot-index=0></b>"; "</div>"]
            [str "x"] ∅ tt dom0)
  = [HElem "div" [] [HText "x"; HText "x"]] ∧
  buildComponent (St:=unit) MiniHtml.parse MiniHtml.parse ["<div><b data-slot-index=0></b>"; "</div>"]
    [str "x"] ∅ tt dom0
  ≠ Some ((jq MiniHtml.parse "<div><b data-slot-index=0></b>x</div>" dom0).1, ∅,
          (jq MiniHtml.parse "<div><b data-slot-index=0></b>x</div>" dom0).2).
Proof.
  split_and!; [by repeat constructor|vm_compute; reflexivity..|].
  intros Heq. apply (f_equal shapes) in Heq. vm_compute in Heq. discriminate.
Qed.

(** *** The theorems at concrete inputs *)

Lemma callback_marker_resolved_from_table_witness :
  isString (itemsCallback ["A"] dom0).1 = None ∧
  ∃ rest refs d1,
    assemble ["<ul>"; "</ul>"] 0 [VFun itemsCallback] ["A"] ("<ul>", ∅, dom0)
    = ("<ul>" +:+ marker 0 +:+ rest, refs, d1) ∧
    refs !! 0 = Some (itemsCallback ["A"] dom0).1.
Proof.
  split; [reflexivity|].
  destruct (callback_marker_resolved_from_table MiniHtml.parse MiniHtml.parse
              ["<ul>"; "</ul>"] [VFun itemsCallback] ∅ ["A"] dom0 0 itemsCallback
              "<ul>" ∅ dom0 eq_refl eq_refl eq_refl)
    as (rest & refs & d1 & Ha & Hr & _).
  exists rest, refs, d1. split; [exact Ha|exact Hr].
Defined.

Lemma plain_template_is_parsed_concatenation_witness :
  Forall isPrimitive [IStr "World"] ∧
  concatenation ["<button id=b>Hello, "; "!</button>"] [IStr "World"]
  = "<button id=b>Hello, World!</button>" ∧
  findSlots (jq MiniHtml.parse "<button id=b>Hello, World!</button>" dom0).1
    (jq MiniHtml.parse "<button id=b>Hello, World!</button>" dom0).2 = [] ∧
  buildComponent (St:=unit) MiniHtml.parse MiniHtml.parse
    ["<button id=b>Hello, "; "!</button>"] [str "World"] ∅ tt dom0
  = Some ((jq MiniHtml.parse "<button id=b>Hello, World!</button>" dom0).1, ∅,
          (jq MiniHtml.parse "<button id=b>Hello, World!</button>" dom0).2).
Proof.
  assert (Forall isPrimitive [IStr "World"]) as Hp by (repeat constructor).
  assert (findSlots (jq MiniHtml.parse "<button id=b>Hello, World!</button>" dom0).1
            (jq MiniHtml.parse "<button id=b>Hello, World!</button>" dom0).2 = []) as Hno
    by (vm_compute; reflexivity).
  split_and!; [exact Hp|reflexivity|exact Hno|].
  exact (proj2 (plain_template_is_parsed_concatenation MiniHtml.parse MiniHtml.parse
                  ["<button id=b>Hello, "; "!</button>"] [IStr "World"] ∅ tt dom0 Hp) Hno).
Defined.

End Concrete.

(** ** Further properties of the assembly pass *)

Section MoreAssembly.

Context {St : Type}.
Implicit Types (refs : gmap nat data) (args vs : list (value St)) (d : Dom) (st : St).
Implicit Types (i j : nat) (strs : list string).

Lemma to_uint_not_nil (n : nat) : Nat.to_uint n ≠ Decimal.Nil.
Proof.
  pose proof (DecimalNat.Unsigned.to_of (Nat.to_uint n)) as H.
  rewrite DecimalNat.Unsigned.of_to in H. rewrite H. apply DecimalFacts.unorm_nonnil.
Qed.

Lemma length_app_string (a b : string) :
  Stdlib.Strings.String.length (a +:+ b)
  = Stdlib.Strings.String.length a + Stdlib.Strings.String.length b.
Proof. induction a as [|c a IH]; simpl; [done|by rewrite IH]. Qed.

Lemma append_cancel_r (a b t : string) : a +:+ t = b +:+ t → a = b.
Proof.
  revert b. induction a as [|c a IH]; intros [|c' b] H; simpl in H.
  - done.
  - apply (f_equal Stdlib.Strings.String.length) in H.
    rewrite ?length_app_string in H. simpl in H. rewrite ?length_app_string in H. lia.
  - apply (f_equal Stdlib.Strings.String.length) in H.
    rewrite ?length_app_string in H. simpl in H. rewrite ?length_app_string in H. lia.
  - injection H as -> H. by rewrite (IH b H).
Qed.

(** X1: the index written into a marker is the one read back from it.
    For a jQuery object, an array, or a callback whose result is not a
    string, [createReference] splices the marker
    [<b data-slot-index=i></b>], with the decimal text of [i]; a node whose
    [data-slot-index] attribute is the decimal text of [i] is read by
    [.data("slotIndex")] as the number [i]; and the markers of two
    different indexes are different texts. *)
Theorem marker_index_read_back :
  (∀ refs (v : data) i st d,
     nodeLike v →
     createReference (St:=St) refs (VData v) i st d
     = ("<b data-slot-index=" +:+ showNat i +:+ "></b>", refs, d)) ∧
  (∀ refs (f : callback St) i st d,
     isString (f st d).1 = None →
     (createReference refs (VFun f) i st d).1.1
     = "<b data-slot-index=" +:+ showNat i +:+ "></b>") ∧
  (∀ d this i,
     getAttribute "data-slot-index" (attrsOf d this) = Some (showNat i) →
     slotIndex d this = Some i) ∧
  (∀ i j, marker i = marker j → i = j).
Proof.
  assert (∀ n, readIndex (showNat n) = Some n) as Hround.
  { intros n. unfold readIndex, showNat.
    rewrite NilZero.usu by apply to_uint_not_nil.
    rewrite DecimalNat.Unsigned.of_to. by rewrite decide_True. }
  split_and!.
  - intros refs [[]|] i st d Hv; try done.
  - intros refs f i st d Hs. unfold createReference.
    destruct (f st d) as [w d1]. simpl in Hs. by rewrite Hs.
  - intros d this i Hattr. unfold slotIndex. rewrite Hattr. simpl. apply Hround.
  - intros i j Hm. unfold marker in Hm. simpl in Hm. injection Hm as Hm.
    change (showNat i +:+ "></b>" = showNat j +:+ "></b>") in Hm.
    apply append_cancel_r in Hm.
    apply (f_equal readIndex) in Hm. rewrite !Hround in Hm. by injection Hm.
Qed.

(** X2: the assembly pass writes the reference table at the indices of
    callbacks only: at an index that holds a value that is not a function,
    or that lies outside the values array, the table is after the pass what
    it was before. *)
Theorem table_written_only_for_callbacks strs args refs0 st d j :
  (∀ f, args !! j ≠ Some (VFun f)) →
  (assemble strs 0 args st (stringAt strs 0, refs0, d)).1.2 !! j = refs0 !! j.
Proof.
  intros Hnf. destruct (args !! j) as [[v|f]|] eqn:Hj.
  - destruct (assemble strs 0 (take j args) st (stringAt strs 0, refs0, d))
      as [[prev refs_j] d_j] eqn:Hpre.
    pose proof (assemble_refs_beyond strs (take j args) st 0
                  (stringAt strs 0, refs0, d) j) as Hb.
    rewrite Hpre in Hb. simpl in Hb.
    rewrite (assemble_split strs args st _ j _ Hj), Hpre.
    destruct (createReference refs_j (VData v) j st d_j) as [[piece refs'] d'] eqn:Hstep.
    rewrite assemble_refs_other by lia. simpl.
    assert (refs' = refs_j) as ->.
    { destruct v as [[]|]; simpl in Hstep; by injection Hstep as _ <- _. }
    apply Hb. rewrite length_take. lia.
  - by destruct (Hnf f).
  - apply (assemble_refs_beyond strs args st 0 (stringAt strs 0, refs0, d) j).
    apply lookup_ge_None in Hj. simpl. lia.
Qed.

Lemma assemble_store strs vs st i prev refs d :
  (assemble strs i vs st (prev, refs, d)).2 = callbackEffects st vs d.
Proof.
  revert i prev refs d. induction vs as [|v vs IH]; intros i prev refs d; [done|].
  unfold callbackEffects. simpl.
  destruct v as [dv|f].
  - assert (createReference refs (VData dv) i st d
            = ((createReference refs (VData dv) i st d).1, d)) as ->
      by by destruct dv as [[]|].
    destruct (createReference refs (VData dv) i st d).1 as [piece refs'].
    apply IH.
  - simpl. destruct (f st d) as [ev d'] eqn:Hf. simpl.
    destruct (isString ev); apply IH.
Qed.

(** X3: the assembly pass touches the store through the callbacks only,
    each called once, in the order of the values array: the store after
    the pass is the store after these calls, whatever the fragments and
    the table are. *)
Theorem assembly_runs_callbacks_in_order strs vs st i prev refs d :
  (assemble strs i vs st (prev, refs, d)).2 = callbackEffects st vs d.
Proof. apply assemble_store. Qed.

End MoreAssembly.

(** ** Further properties of the attribute copy *)

Section MoreAttributes.

Implicit Types (a src dst : list (string * string)) (name value : string).

Lemma getAttribute_None name a : getAttribute name a = None ↔ name ∉ a.*1.
Proof.
  induction a as [|[k v] a IH]; simpl.
  - split; [intros _; apply not_elem_of_nil|done].
  - rewrite not_elem_of_cons. destruct (decide (k = name)) as [->|Hne].
    + split; [done|]. by intros [? _].
    + rewrite IH. split; [by split|by intros [_ ?]].
Qed.

Lemma getAttribute_setAttribute name value a n :
  getAttribute n (setAttribute name value a)
  = if decide (n = name) then Some value else getAttribute n a.
Proof.
  induction a as [|[k v] a IH]; simpl.
  - destruct (decide (name = n)) as [->|]; [by rewrite decide_True|].
    by rewrite decide_False by congruence.
  - destruct (decide (k = name)) as [->|Hk]; simpl.
    + destruct (decide (name = n)) as [->|]; [by rewrite decide_True|].
      by rewrite decide_False by congruence.
    + destruct (decide (k = n)) as [->|Hkn]; [by rewrite decide_False|].
      apply IH.
Qed.

Lemma getAttribute_copy_other src a n :
  n ∉ src.*1 →
  getAttribute n (fold_left (λ a '(name, value), setAttribute name value a) src a)
  = getAttribute n a.
Proof.
  revert a. induction src as [|[k v] src IH]; intros a Hn; simpl; [done|].
  simpl in Hn. apply not_elem_of_cons in Hn as [Hne Hn].
  rewrite IH by done. rewrite getAttribute_setAttribute. by rewrite decide_False.
Qed.

Lemma getAttribute_copy src a n v :
  NoDup src.*1 → (n, v) ∈ src →
  getAttribute n (fold_left (λ a '(name, value), setAttribute name value a) src a) = Some v.
Proof.
  revert a. induction src as [|[k w] src IH]; intros a Hnd Hin; simpl.
  - by apply elem_of_nil in Hin.
  - simpl in Hnd. apply NoDup_cons in Hnd as [Hk Hnd].
    apply elem_of_cons in Hin as [[= -> ->]|Hin].
    + rewrite getAttribute_copy_other by done.
      rewrite getAttribute_setAttribute. by rewrite decide_True.
    + by apply IH.
Qed.

Lemma getAttribute_Some_elem n v a : NoDup a.*1 → (n, v) ∈ a → getAttribute n a = Some v.
Proof.
  induction a as [|[k w] a IH]; simpl; intros Hnd Hin.
  - by apply elem_of_nil in Hin.
  - apply NoDup_cons in Hnd as [Hk Hnd].
    apply elem_of_cons in Hin as [[= -> ->]|Hin]; [by rewrite decide_True|].
    rewrite decide_False; [by apply IH|].
    intros ->. apply Hk. apply list_elem_of_fmap. by exists (n, v).
Qed.

Lemma setAttribute_new name value a :
  name ∉ a.*1 → setAttribute name value a = a ++ [(name, value)].
Proof.
  induction a as [|[k v] a IH]; simpl; intros Hn; [done|].
  apply not_elem_of_cons in Hn as [Hne Hn].
  rewrite decide_False by done. f_equal. by apply IH.
Qed.

Lemma copy_onto_disjoint src a :
  NoDup (a ++ src).*1 →
  fold_left (λ a '(name, value), setAttribute name value a) src a = a ++ src.
Proof.
  revert a. induction src as [|[k v] src IH]; intros a Hnd; simpl.
  - by rewrite app_nil_r.
  - rewrite setAttribute_new.
    + rewrite IH; rewrite <- app_assoc; done.
    + rewrite fmap_app in Hnd. apply NoDup_app in Hnd as (_ & Hd & _).
      intros Hin. apply (Hd _ Hin). simpl. by left.
Qed.

Lemma everyOther_sub_aux {A : Type} (l : list A) :
  (∀ x, x ∈ everyOther l → x ∈ l) ∧ (∀ y x, x ∈ everyOther (y :: l) → x ∈ l).
Proof.
  induction l as [|z l [IH1 IH2]]; simpl.
  - split; [intros x Hx|intros y x Hx]; by apply elem_of_nil in Hx.
  - split.
    + intros x Hx. right. by apply (IH2 z).
    + intros _ x Hx. apply elem_of_cons in Hx as [->|Hx]; [by left|right; by apply IH1].
Qed.

Lemma everyOther_sub {A : Type} (l : list A) (x : A) : x ∈ everyOther l → x ∈ l.
Proof. apply everyOther_sub_aux. Qed.

Lemma copyAttrList_alternate src dst :
  NoDup dst.*1 →
  copyAttrList src dst
  = fold_left (λ a '(name, value), setAttribute name value a) src (everyOther dst).
Proof.
  intros Hnd. unfold copyAttrList. f_equal.
  exact (removeLive_skips (length dst) [] dst Hnd (le_n _)).
Qed.

(** X4: what the attribute copy leaves on the live root, for attribute
    names that are distinct as they are in the DOM: every second attribute
    of the live root, counting from the second, then the attributes of the
    new root set one after the other. *)
Theorem copy_keeps_every_second_attribute src dst :
  NoDup dst.*1 →
  copyAttrList src dst
  = fold_left (λ a '(name, value), setAttribute name value a) src (everyOther dst).
Proof. apply copyAttrList_alternate. Qed.

(** X5: every attribute of the new root is on the live root after the
    copy, with the value it has on the new root, whatever the live root
    had. *)
Theorem copied_attributes_are_set src dst n v :
  NoDup src.*1 → (n, v) ∈ src → getAttribute n (copyAttrList src dst) = Some v.
Proof. intros Hnd Hin. unfold copyAttrList. by apply getAttribute_copy. Qed.

(** X6: when the live root has no attribute name that the new root lacks,
    the copy is right: reading any attribute of the live root after the
    copy gives what the new root has. *)
Theorem copy_exact_when_names_stay src dst n :
  NoDup src.*1 → NoDup dst.*1 →
  (∀ k, k ∈ dst.*1 → k ∈ src.*1) →
  getAttribute n (copyAttrList src dst) = getAttribute n src.
Proof.
  intros Hs Hd Hsub. rewrite copyAttrList_alternate by done.
  destruct (getAttribute n src) as [v|] eqn:Hn.
  - apply getAttribute_copy; [done|].
    clear -Hn. induction src as [|[k w] src IH]; simpl in Hn; [done|].
    destruct (decide (k = n)) as [->|]; [injection Hn as ->; by left|right; by apply IH].
  - apply getAttribute_None in Hn. rewrite getAttribute_copy_other by done.
    apply getAttribute_None. intros Hin. apply Hn, Hsub.
    apply list_elem_of_fmap in Hin as ([k w] & -> & Hin).
    apply list_elem_of_fmap. exists (k, w). split; [done|]. by apply everyOther_sub.
Qed.

(** X7: a live root with at most one attribute ends up with exactly the
    attribute list of the new root. *)
Theorem copy_exact_on_short_list src dst :
  NoDup src.*1 → length dst ≤ 1 → copyAttrList src dst = src.
Proof.
  intros Hs Hlen.
  assert (NoDup dst.*1) as Hd.
  { destruct dst as [|x [|y dst]]; simpl in *; [constructor| |lia].
    apply NoDup_singleton. }
  rewrite copyAttrList_alternate by done.
  assert (everyOther dst = []) as -> by (destruct dst as [|x [|y dst]]; simpl in *; [done..|lia]).
  by rewrite copy_onto_disjoint.
Qed.

(** X8: the second attribute of the live root outlives the copy whenever
    the new root does not set it (and so does every attribute at an even
    place of the live list, the first being at place one). *)
Theorem second_attribute_survives src dst first name value rest :
  dst = first :: (name, value) :: rest →
  NoDup dst.*1 →
  name ∉ src.*1 →
  getAttribute name (copyAttrList src dst) = Some value.
Proof.
  intros -> Hd Hn. rewrite copyAttrList_alternate by done.
  rewrite getAttribute_copy_other by done. simpl. by rewrite decide_True.
Qed.

End MoreAttributes.

(** ** Further properties of building *)

Section MoreBuild.

Context {St : Type}.
Variable parseHTML : string -> list html.
Variable parseFragment : string -> list html.
Implicit Types (refs : gmap nat data) (args : list (value St)) (d : Dom) (st : St).
Implicit Types (strs : list string) (h : html) (hs : list html) (o : option nid).

Lemma html_induction (P : html → Prop) :
  (∀ s, P (HText s)) →
  (∀ t a ks, Forall P ks → P (HElem t a ks)) →
  ∀ h, P h.
Proof.
  intros Ht He. fix IH 1. intros [t a ks|s]; [|apply Ht].
  apply He. induction ks as [|k ks IHks]; constructor; [apply IH|exact IHks].
Qed.

(** The children of an element are turned into nodes like a top-level
    list, under the element. *)
Lemma alloc_elem o t a ks d :
  alloc o (HElem t a ks) d
  = let '(cs, d1) := allocAll (Some (fresh d)) ks (newNode (Element t) a o d).2 in
    (fresh d, alterNode (withKids cs) (fresh d) d1).
Proof.
  assert (∀ n ks d0,
            (fix allocKids (ks : list html) (d : Dom) : list nid * Dom :=
               match ks with
               | [] => ([], d)
               | k :: r =>
                   let '(c, d') := alloc (Some n) k d in
                   let '(cs, d'') := allocKids r d' in
                   (c :: cs, d'')
               end) ks d0 = allocAll (Some n) ks d0) as Hfix.
  { intros n. induction ks0 as [|k r IH]; intros d0; [done|].
    simpl. destruct (alloc (Some n) k d0) as [c d']. by rewrite IH. }
  simpl. by rewrite Hfix.
Qed.

Lemma allocAll_extends_with (P : html → Prop) o hs d :
  (∀ h o d, P h → (alloc o h d).1 = fresh d ∧ extends d (alloc o h d).2
                   ∧ fresh d < fresh (alloc o h d).2) →
  Forall P hs →
  extends d (allocAll o hs d).2 ∧
  (∀ r, r ∈ (allocAll o hs d).1 → fresh d ≤ r < fresh (allocAll o hs d).2) ∧
  NoDup (allocAll o hs d).1.
Proof.
  intros HP Hall. revert d. induction Hall as [|h hs Hh _ IH]; intros d; simpl.
  - split_and!; [apply extends_refl|by intros r ?%elem_of_nil|constructor].
  - destruct (HP h o d Hh) as (Hroot & Hext & Hlt).
    destruct (alloc o h d) as [c d1]. simpl in *. subst c.
    destruct (IH d1) as (Hext' & Hroots & Hnd).
    destruct (allocAll o hs d1) as [cs d2]. simpl in *.
    split_and!.
    + by eapply extends_trans.
    + intros r [->|Hr]%elem_of_cons.
      * destruct Hext'. lia.
      * specialize (Hroots r Hr). lia.
    + constructor; [|done]. intros Hin. specialize (Hroots _ Hin). lia.
Qed.

Lemma alloc_new h : ∀ o d,
  (alloc o h d).1 = fresh d ∧ extends d (alloc o h d).2 ∧ fresh d < fresh (alloc o h d).2.
Proof.
  induction h as [s|t a ks IH] using html_induction; intros o d.
  - simpl. split_and!; [done|apply (newNode_extends (TextNode s) [] o d)|lia].
  - rewrite alloc_elem.
    pose proof (newNode_extends (Element t) a o d) as Hnew.
    destruct (allocAll_extends_with
                (λ h, ∀ o d, (alloc o h d).1 = fresh d ∧ extends d (alloc o h d).2
                             ∧ fresh d < fresh (alloc o h d).2)
                (Some (fresh d)) ks (newNode (Element t) a o d).2)
      as (Hext & _ & _); [by intros h' o' d' Hh'|done|].
    destruct (allocAll _ ks _) as [cs d1]. simpl in *.
    destruct Hext as [Hle Hsame]. simpl in Hle. split_and!; [done| |simpl; lia].
    apply alterNode_new_extends; [|done].
    eapply extends_trans; [exact Hnew|]. by split.
Qed.

Lemma allocAll_new o hs d :
  extends d (allocAll o hs d).2 ∧
  (∀ r, r ∈ (allocAll o hs d).1 → fresh d ≤ r < fresh (allocAll o hs d).2) ∧
  NoDup (allocAll o hs d).1.
Proof.
  apply (allocAll_extends_with (λ _, True)); [intros; apply alloc_new|].
  by apply Forall_true.
Qed.

Lemma buildComponent_inv strs args refs0 st d u refs d' :
  buildComponent parseHTML parseFragment strs args refs0 st d = Some (u, refs, d') →
  ∃ html refs1 d1,
    assemble strs 0 args st (stringAt strs 0, refs0, d) = (html, refs1, d1) ∧
    u = (jq parseHTML html d1).1 ∧
    each (resolveSlot parseFragment refs1 args st)
      (findSlots u (jq parseHTML html d1).2) (jq parseHTML html d1).2 = Some d'.
Proof.
  unfold buildComponent. intros Hb.
  destruct (assemble strs 0 args st (stringAt strs 0, refs0, d)) as [[html refs1] d1].
  destruct (jq parseHTML html d1) as [component d2] eqn:Hjq.
  destruct (each _ _ d2) as [d3|] eqn:He; simpl in Hb; [|done].
  injection Hb as <- _ <-. exists html, refs1, d1.
  rewrite Hjq. split_and!; [reflexivity|reflexivity|exact He].
Qed.

(** X9: when the assembled text is one that [$] reads as markup, parsing
    it only adds nodes, and the roots of the built component are new:
    distinct identities that the store did not hold when the callbacks had
    run.  In particular the component that [refresh] rebuilds shares no
    root with the live instance. *)
Theorem built_roots_are_new strs args refs0 st d u refs d' :
  buildComponent parseHTML parseFragment strs args refs0 st d = Some (u, refs, d') →
  isMarkup (assemble strs 0 args st (stringAt strs 0, refs0, d)).1.1 = true →
  NoDup u ∧ ∀ r, r ∈ u → fresh (callbackEffects st args d) ≤ r.
Proof.
  intros Hb _. destruct (buildComponent_inv _ _ _ _ _ _ _ _ Hb)
    as (html & refs1 & d1 & Hasm & -> & _).
  pose proof (assemble_store strs args st 0 (stringAt strs 0) refs0 d) as Hstore.
  rewrite Hasm in Hstore. simpl in Hstore. subst d1.
  unfold jq. destruct (allocAll_new None (parseHTML html) (callbackEffects st args d))
    as (_ & Hroots & Hnd).
  split; [done|]. intros r Hr. specialize (Hroots r Hr). lia.
Qed.

Lemma alloc_childless o h d :
  childless h → kidsOf (alloc o h d).2 (alloc o h d).1 = [].
Proof.
  destruct h as [t a [|k ks]|s]; simpl; intros Hc; try done.
  - unfold kidsOf. rewrite getNode_alterNode, decide_True by done.
    unfold getNode. simpl. by rewrite lookup_insert_eq.
  - unfold kidsOf, getNode. simpl. by rewrite lookup_insert_eq.
Qed.

Lemma allocAll_childless o hs d r :
  Forall childless hs → r ∈ (allocAll o hs d).1 → kidsOf (allocAll o hs d).2 r = [].
Proof.
  intros Hall. revert d. induction Hall as [|h hs Hh _ IH]; intros d; simpl.
  - by intros ?%elem_of_nil.
  - pose proof (alloc_childless o h d Hh) as Hk.
    destruct (alloc_new h o d) as (Hroot & _ & Hlt).
    destruct (alloc o h d) as [c d1]. simpl in *. subst c.
    destruct (allocAll_new o hs d1) as ([_ Hsame] & _ & _).
    specialize (IH d1). destruct (allocAll o hs d1) as [cs d2]. simpl in *.
    intros [->|Hr]%elem_of_cons; [|by apply IH].
    unfold kidsOf in *. by rewrite Hsame.
Qed.

Lemma findSlots_childless (c : list nid) d :
  (∀ r, r ∈ c → kidsOf d r = []) → findSlots c d = [].
Proof.
  intros Hk. unfold findSlots. induction c as [|r c IH]; simpl; [done|].
  assert (descendants (size (heap d)) d r = []) as ->.
  { destruct (size (heap d)); simpl; [done|]. rewrite Hk; [done|by left]. }
  simpl. apply IH. intros r' Hr'. apply Hk. by right.
Qed.

(** X10: when the assembled markup parses to texts and empty elements
    only, the search below the roots finds no marker and the build is the
    parsed collection as it is: a value interpolated at the root of a
    template, whose marker is such an empty element, is never put in. *)
Theorem childless_markup_returned_as_parsed strs args refs0 st d html refs1 d1 :
  assemble strs 0 args st (stringAt strs 0, refs0, d) = (html, refs1, d1) →
  Forall childless (parseHTML html) →
  buildComponent parseHTML parseFragment strs args refs0 st d
  = Some ((jq parseHTML html d1).1, ∅, (jq parseHTML html d1).2).
Proof.
  intros Hasm Hall. unfold buildComponent. rewrite Hasm.
  pose proof (λ r, allocAll_childless None (parseHTML html) d1 r Hall) as Hk.
  unfold jq in *. destruct (allocAll None (parseHTML html) d1) as [component d2].
  simpl in *. by rewrite (findSlots_childless component d2 Hk).
Qed.

Lemma hierarchyOk_nothing (p : nid) d : hierarchyOk [] p d = true.
Proof.
  unfold hierarchyOk. apply forallb_forall. intros a _.
  apply bool_decide_eq_true. apply not_elem_of_nil.
Qed.

Lemma spliceAt_nothing (this : nid) (ks : list nid) :
  spliceAt this [] ks = filter (λ c, c ≠ this) ks.
Proof.
  unfold spliceAt. induction ks as [|k ks IH]; simpl; [done|].
  destruct (decide (k = this)) as [->|Hne].
  - rewrite filter_cons_False by tauto. exact IH.
  - rewrite filter_cons_True by done. simpl. by rewrite IH.
Qed.

(** X11: a marker whose index is a number that names neither a table
    entry nor a value of the values array (an index past the end) is
    resolved with [undefined]: the marker is taken out of its parent,
    nothing is put in its place, no node is made and no other node
    changes kind or attributes. *)
Theorem unmatched_marker_is_removed refs args st (this p : nid) d (n : nat) :
  slotIndex d this = Some n →
  refs !! n = None →
  args !! n = None →
  parentOf d this = Some p →
  ∃ d',
    resolveSlot parseFragment refs args st this d = Some d' ∧
    kidsOf d' p = filter (λ c, c ≠ this) (kidsOf d p) ∧
    parentOf d' this = None ∧
    fresh d' = fresh d ∧
    ∀ x, kindOf d' x = kindOf d x ∧ attrsOf d' x = attrsOf d x.
Proof.
  intros Hidx Hrefs Hargs Hp. unfold resolveSlot, getReferenceValue, argAt.
  rewrite Hidx. simpl. rewrite Hrefs, Hargs. unfold replaceWith, buildFragment. simpl.
  rewrite Hp, hierarchyOk_nothing. eexists. split; [done|].
  assert (is_Some (getNode d this)) as Hex.
  { unfold parentOf in Hp. destruct (getNode d this); [done|discriminate]. }
  split_and!.
  - rewrite kidsOf_alter_keep by done. rewrite <- spliceAt_nothing.
    unfold kidsOf. rewrite getNode_alterNode, decide_True by done.
    by destruct (getNode d p).
  - apply parentOf_alter_withParent. by rewrite is_Some_getNode_alter.
  - done.
  - intros x. by rewrite !kindOf_alter_keep, !attrsOf_alter_keep.
Qed.

End MoreBuild.

(** ** Further properties of [refresh] *)

Section MoreRefresh.

Context {St : Type}.
Variable parseHTML : string -> list html.
Variable parseFragment : string -> list html.
Implicit Types (c : Closure St) (d : Dom) (st : St) (r x : nid).

Lemma copyAttributes_inv (src dst : option nid) d d' :
  copyAttributes src dst d = Some d' →
  ∃ r r0 t t0,
    dst = Some r ∧ src = Some r0 ∧
    kindOf d r = Some (Element t) ∧ kindOf d r0 = Some (Element t0) ∧
    d' = alterNode (withAttrs (copyAttrList (attrsOf d r0) (attrsOf d r))) r d.
Proof.
  unfold copyAttributes, elementAttrs, kindOf, attrsOf. intros Hc.
  destruct dst as [r|]; simpl in Hc; [|done].
  destruct (getNode d r) as [nd|] eqn:Hr; simpl in Hc; [|done].
  destruct (kind nd) as [t|] eqn:Hk; simpl in Hc; [|done].
  destruct src as [r0|]; simpl in Hc; [|done].
  destruct (getNode d r0) as [nd0|] eqn:Hr0; simpl in Hc; [|done].
  destruct (kind nd0) as [t0|] eqn:Hk0; simpl in Hc; [|done].
  injection Hc as <-. exists r, r0, t, t0. rewrite Hr, Hr0. simpl.
  by rewrite Hk, Hk0.
Qed.

(** X12: [refresh] completes only for a component whose first root is an
    element, rebuilt into a component whose first root is an element: on
    an empty collection, or one that starts with a text, reading the
    attributes throws. *)
Theorem refresh_needs_element_roots c st d c' d' :
  refresh parseHTML parseFragment c st d = Some (c', d') →
  ∃ r t u refs d1 r0 t0,
    head (componentInstance c) = Some r ∧
    kindOf d' r = Some (Element t) ∧
    buildComponent parseHTML parseFragment (strings c) (args c) (references c) st d
    = Some (u, refs, d1) ∧
    head u = Some r0 ∧
    kindOf d' r0 = Some (Element t0).
Proof.
  intros Hr. destruct (refresh_inv parseHTML parseFragment c st d c' d' Hr)
    as (u & refs & d1 & d3 & Hb & _ & Hc & _).
  destruct (copyAttributes_inv _ _ _ _ Hc) as (r & r0 & t & t0 & Hd & Hs & Hk & Hk0 & ->).
  exists r, t, u, refs, d1, r0, t0.
  split_and!; try done; by rewrite kindOf_alter_keep.
Qed.

Lemma appendChildren_looks t frag d d' x :
  appendChildren t frag d = Some d' →
  kindOf d' x = kindOf d x ∧ attrsOf d' x = attrsOf d x.
Proof.
  unfold appendChildren. intros Happ.
  destruct (getNode d t) as [nd|]; [|by injection Happ as <-].
  destruct (kind nd); [|by injection Happ as <-].
  destruct (hierarchyOk frag t d); [|done]. injection Happ as <-.
  by rewrite adopt_kindOf, adopt_attrsOf, kindOf_alter_keep, attrsOf_alter_keep.
Qed.

Lemma appendEach_looks targets frag d d' x :
  appendEach targets frag d = Some d' → x < fresh d →
  kindOf d' x = kindOf d x ∧ attrsOf d' x = attrsOf d x.
Proof.
  revert d. induction targets as [|t [|t' r] IH]; intros d Happ Hx.
  - by injection Happ as <-.
  - by eapply appendChildren_looks.
  - change (appendEach (t :: t' :: r) frag d)
      with (let '(copy, d1) := cloneAll frag d in
            d2 ← appendChildren t copy d1; appendEach (t' :: r) frag d2) in Happ.
    destruct (cloneAll_extends frag d) as [Hext _].
    destruct (cloneAll frag d) as [copy d1]. simpl in Hext.
    destruct (appendChildren t copy d1) as [d2|] eqn:Hd2; simpl in Happ; [|done].
    destruct (extends_keeps x d d1 Hext Hx) as (K1 & A1 & _).
    destruct (appendChildren_looks _ _ _ _ x Hd2) as (K2 & A2).
    destruct (IH d2 Happ) as (K3 & A3).
    { rewrite (appendChildren_fresh _ _ _ _ Hd2). destruct Hext. lia. }
    split; congruence.
Qed.

Lemma append_looks (cs content : list nid) d d' x :
  append parseFragment cs content d = Some d' → x < fresh d →
  kindOf d' x = kindOf d x ∧ attrsOf d' x = attrsOf d x.
Proof.
  unfold append. intros Happ Hx. destruct cs as [|r0 c0]; [by injection Happ as <-|].
  change (buildFragment parseFragment (r0 :: c0) (DItem (IJq content)) d)
    with (fragNodes (r0 :: c0) content ([], false, d)) in Happ.
  destruct (fragNodes_filter (r0 :: c0) content [] false d) as [ign' Hfrag].
  rewrite Hfrag in Happ. clear Hfrag.
  remember (filter (λ n, n ∉ r0 :: c0) content) as ns.
  destruct (fold_left moveToEnd ns []) as [|f frag].
  - injection Happ as <-. by rewrite detach_kindOf, detach_attrsOf.
  - destruct (appendEach_looks _ _ _ _ x Happ) as (K & A).
    { by rewrite detach_fresh. }
    by rewrite K, A, detach_kindOf, detach_attrsOf.
Qed.

(** X13: past the rebuild, [refresh] rewrites the attributes of one node,
    the first root of the instance, with the outcome of the attribute copy
    from the first rebuilt root; every other node the store held keeps its
    attributes, and every node keeps its kind. *)
Theorem refresh_rewrites_first_root_only c st d c' d' :
  refresh parseHTML parseFragment c st d = Some (c', d') →
  ∃ u refs d1 r r0,
    buildComponent parseHTML parseFragment (strings c) (args c) (references c) st d
    = Some (u, refs, d1) ∧
    head (componentInstance c) = Some r ∧
    head u = Some r0 ∧
    (r < fresh d1 → r0 < fresh d1 →
     attrsOf d' r = copyAttrList (attrsOf d1 r0) (attrsOf d1 r)) ∧
    ∀ x, x < fresh d1 →
         kindOf d' x = kindOf d1 x ∧ (x ≠ r → attrsOf d' x = attrsOf d1 x).
Proof.
  intros Hr. destruct (refresh_inv parseHTML parseFragment c st d c' d' Hr)
    as (u & refs & d1 & d3 & Hb & Ha & Hc & _).
  destruct (copyAttributes_inv _ _ _ _ Hc) as (r & r0 & t & t0 & Hd & Hs & Hk & Hk0 & ->).
  assert (∀ x, x < fresh d1 → kindOf d3 x = kindOf d1 x ∧ attrsOf d3 x = attrsOf d1 x)
    as Hlooks.
  { intros x Hx. destruct (append_looks _ _ _ _ x Ha) as (K & A).
    { by rewrite empty_fresh, detach_fresh. }
    by rewrite K, A, empty_kindOf, empty_attrsOf, detach_kindOf, detach_attrsOf. }
  exists u, refs, d1, r, r0. split_and!; try done.
  - intros Hlt Hlt0. destruct (Hlooks r Hlt) as [_ <-]. destruct (Hlooks r0 Hlt0) as [_ <-].
    unfold attrsOf at 1. rewrite getNode_alterNode, decide_True by done.
    unfold kindOf in Hk. by destruct (getNode d3 r).
  - intros x Hx. destruct (Hlooks x Hx) as [K A]. split.
    + by rewrite kindOf_alter_keep.
    + intros Hne. rewrite attrsOf_alter_ne by done. exact A.
Qed.

Lemma orphan_is_Some (ks : list nid) d x :
  is_Some (getNode (fold_left (λ d0 (k : nid), alterNode (withParent None) k d0) ks d) x)
  ↔ is_Some (getNode d x).
Proof.
  revert d. induction ks as [|k ks IH]; intros d; simpl; [done|].
  by rewrite IH, is_Some_getNode_alter.
Qed.

Lemma orphan_parentOf_in (ks : list nid) d x :
  x ∈ ks → is_Some (getNode d x) →
  parentOf (fold_left (λ d0 (k : nid), alterNode (withParent None) k d0) ks d) x = None.
Proof.
  revert d. induction ks as [|k ks IH]; intros d Hin Hex; simpl.
  - by apply elem_of_nil in Hin.
  - destruct (decide (x ∈ ks)) as [Hks|Hks].
    + apply IH; [done|]. by rewrite is_Some_getNode_alter.
    + apply elem_of_cons in Hin as [->|?]; [|done].
      rewrite orphan_parentOf by done. by apply parentOf_alter_withParent.
Qed.

Lemma emptyNode_parentOf_kid r d x t :
  kindOf d r = Some (Element t) → x ∈ kidsOf d r → is_Some (getNode d x) →
  parentOf (emptyNode r d) x = None.
Proof.
  unfold emptyNode, kindOf, kidsOf. intros Hk Hx Hex.
  destruct (getNode d r) as [nd|]; [|done]. simpl in Hk. injection Hk as ->.
  rewrite parentOf_alter_keep by done. by apply orphan_parentOf_in.
Qed.

Lemma append_single_other r (ch : list nid) d d' x :
  append parseFragment [r] ch d = Some d' →
  r ∉ ch → NoDup ch → x ∉ ch → keeps x d d'.
Proof.
  intros Happ Hr Hnd Hx. unfold append in Happ.
  rewrite (buildFragment_nodes parseFragment [r] (DItem (IJq ch)) d) in Happ.
  2:{ unfold onlyNodes. simpl. by repeat constructor. }
  2:{ unfold valueNodes. simpl. rewrite app_nil_r. intros n Hn ->%list_elem_of_singleton. done. }
  unfold valueNodes in Happ. simpl in Happ. rewrite app_nil_r in Happ.
  rewrite moveToEnd_all_new in Happ by done. simpl in Happ.
  pose proof (detach_keeps ch d x Hx) as Hk.
  destruct ch as [|n ch'].
  { by injection Happ as <-. }
  remember (n :: ch') as ch eqn:Hch.
  assert (appendChildren r ch (detach ch d) = Some d') as Happ'
    by (rewrite Hch in *; exact Happ).
  eapply keeps_trans; [exact Hk|]. by eapply appendChildren_keeps.
Qed.

(** X14: for a single-root instance, a node that was a child of the root
    and is not among the rebuilt children is, after [refresh], no longer
    under the root and has no parent at all: the former content is dropped
    from the tree, not kept beside the new one. *)
Theorem refresh_orphans_former_children c st d c' d' r u refs d1 x :
  componentInstance c = [r] →
  refresh parseHTML parseFragment c st d = Some (c', d') →
  buildComponent parseHTML parseFragment (strings c) (args c) (references c) st d
  = Some (u, refs, d1) →
  NoDup (contents u d1) →
  r ∉ contents u d1 →
  x ∈ kidsOf d1 r →
  x ∉ contents u d1 →
  is_Some (getNode d1 x) →
  (x ∉ kidsOf d' r) ∧ parentOf d' x = None.
Proof.
  intros Hinst Hr Hb Hnd Hnot Hx Hxch Hex.
  split; [by rewrite (refresh_children parseHTML parseFragment c st d c' d' r u refs d1)|].
  destruct (refresh_inv parseHTML parseFragment c st d c' d' Hr)
    as (u' & refs' & d1' & d3 & Hb' & Ha & Hc & _).
  rewrite Hb in Hb'. injection Hb' as <- <- <-.
  rewrite Hinst in *. set (ch := contents u d1) in *.
  destruct (copyAttributes_inv _ _ _ _ Hc) as (r' & r0 & t & t0 & Hd & _ & Hk & _ & ->).
  injection Hd as <-.
  rewrite parentOf_alter_keep by done.
  destruct (append_single_other r ch _ d3 x Ha Hnot Hnd Hxch) as (_ & _ & ->).
  destruct (append_single parseFragment r ch _ d3 Ha Hnot Hnd) as [(Hkind & _) _].
  rewrite Hkind in Hk. unfold empty in *. simpl in *.
  rewrite emptyNode_kindOf in Hk.
  apply (emptyNode_parentOf_kid r (detach ch d1) x t Hk).
  - destruct (detach_kidsOf ch d1 r) as (R & HR & ->).
    apply list_elem_of_filter. split; [|done]. intros Hin. by apply Hxch, HR.
  - by apply detach_is_Some.
Qed.

End MoreRefresh.

(** ** The further properties at concrete inputs *)

Section ConcreteMore.

Lemma table_written_only_for_callbacks_witness :
  (assemble (St:=unit) ["<p>"; " "; "</p>"] 0 [str "x"; VFun helloCallback] tt
     ("<p>", {[0 := DItem IUndef]}, dom0)).1.2 !! 0
  = Some (DItem IUndef).
Proof.
  rewrite (table_written_only_for_callbacks ["<p>"; " "; "</p>"]
             [str "x"; VFun helloCallback] {[0 := DItem IUndef]} tt dom0 0).
  - reflexivity.
  - intros f. simpl. discriminate.
Defined.

Lemma copy_keeps_every_second_attribute_witness :
  NoDup [("a", "1"); ("b", "2"); ("c", "3")].*1 ∧
  copyAttrList [("c", "4"); ("d", "5")] [("a", "1"); ("b", "2"); ("c", "3")]
  = [("b", "2"); ("c", "4"); ("d", "5")].
Proof.
  assert (NoDup [("a", "1"); ("b", "2"); ("c", "3")].*1) as Hnd.
  { apply NoDup_ListNoDup. simpl. repeat constructor; simpl; intuition discriminate. }
  split; [exact Hnd|].
  rewrite (copy_keeps_every_second_attribute [("c", "4"); ("d", "5")] _ Hnd).
  reflexivity.
Defined.

Lemma copied_attributes_are_set_witness :
  getAttribute "d" (copyAttrList [("c", "4"); ("d", "5")] [("a", "1"); ("d", "0")])
  = Some "5".
Proof.
  apply copied_attributes_are_set.
  - apply NoDup_ListNoDup. simpl. repeat constructor; simpl; intuition discriminate.
  - right. left.
Defined.

Lemma copy_exact_when_names_stay_witness :
  getAttribute "b" (copyAttrList [("a", "1"); ("b", "9")] [("b", "2"); ("a", "1")])
  = getAttribute "b" [("a", "1"); ("b", "9")].
Proof.
  apply copy_exact_when_names_stay.
  - apply NoDup_ListNoDup. simpl. repeat constructor; simpl; intuition discriminate.
  - apply NoDup_ListNoDup. simpl. repeat constructor; simpl; intuition discriminate.
  - intros k Hk. simpl in *. apply list_elem_of_In in Hk. apply list_elem_of_In.
    simpl in *. tauto.
Defined.

Lemma copy_exact_on_short_list_witness :
  copyAttrList [("id", "b"); ("class", "x")] [("id", "a")] = [("id", "b"); ("class", "x")].
Proof.
  apply copy_exact_on_short_list.
  - apply NoDup_ListNoDup. simpl. repeat constructor; simpl; intuition discriminate.
  - simpl. lia.
Defined.

Lemma second_attribute_survives_witness :
  getAttribute "b" (copyAttrList [] [("a", "1"); ("b", "2")]) = Some "2".
Proof.
  apply (second_attribute_survives [] [("a", "1"); ("b", "2")] ("a", "1") "b" "2" []).
  - reflexivity.
  - apply NoDup_ListNoDup. simpl. repeat constructor; simpl; intuition discriminate.
  - apply not_elem_of_nil.
Defined.

Lemma built_roots_are_new_witness :
  ∃ u d',
    buildComponent (St:=unit) MiniHtml.parse MiniHtml.parse ["<div>"; "</div>"] [button] ∅ tt
      buttonDom = Some (u, ∅, d') ∧
    fresh buttonDom = 2 ∧
    NoDup u ∧ ∀ r, r ∈ u → 2 ≤ r.
Proof.
  assert (buildComponent (St:=unit) MiniHtml.parse MiniHtml.parse ["<div>"; "</div>"]
            [button] ∅ tt buttonDom = Some (?[u], ∅, ?[d'])) as Hb
    by (vm_compute; reflexivity).
  do 2 eexists. split; [exact Hb|]. split; [reflexivity|].
  exact (built_roots_are_new MiniHtml.parse MiniHtml.parse _ _ _ _ _ _ _ _ Hb
           ltac:(vm_compute; reflexivity)).
Defined.

Lemma childless_markup_returned_as_parsed_witness :
  Forall childless (MiniHtml.parse (marker 0)) ∧
  buildComponent (St:=unit) MiniHtml.parse MiniHtml.parse [EmptyString; EmptyString] [button]
    ∅ tt buttonDom
  = Some ((jq MiniHtml.parse (marker 0) buttonDom).1, ∅,
          (jq MiniHtml.parse (marker 0) buttonDom).2).
Proof.
  assert (Forall childless (MiniHtml.parse (marker 0))) as Hc
    by (vm_compute; repeat constructor).
  split; [exact Hc|].
  exact (childless_markup_returned_as_parsed MiniHtml.parse MiniHtml.parse
           [EmptyString; EmptyString] [button] ∅ tt buttonDom (marker 0) ∅ buttonDom
           eq_refl Hc).
Defined.

(** The store that holds [<div><b data-slot-index=7></b></div>]: the
    element 0 and, under it, a marker 1 that names no value. *)
Lemma unmatched_marker_is_removed_witness :
  ∃ d d',
    d = (jq MiniHtml.parse "<div><b data-slot-index=7></b></div>" dom0).2 ∧
    slotIndex d 1 = Some 7 ∧
    parentOf d 1 = Some 0 ∧
    kidsOf d 0 = [1] ∧
    resolveSlot (St:=unit) MiniHtml.parse ∅ [str "x"] tt 1 d = Some d' ∧
    kidsOf d' 0 = filter (λ c, c ≠ 1) (kidsOf d 0) ∧
    parentOf d' 1 = None.
Proof.
  assert (∃ d, d = (jq MiniHtml.parse "<div><b data-slot-index=7></b></div>" dom0).2)
    as [d Hd] by by eexists.
  assert (slotIndex d 1 = Some 7) as Hidx by (rewrite Hd; vm_compute; reflexivity).
  assert (parentOf d 1 = Some 0) as Hp by (rewrite Hd; vm_compute; reflexivity).
  assert (kidsOf d 0 = [1]) as Hk by (rewrite Hd; vm_compute; reflexivity).
  destruct (unmatched_marker_is_removed MiniHtml.parse ∅ [@str "x" unit] tt 1 0 d 7)
    as (d' & Hres & Hkids & Hpar & _).
  - exact Hidx.
  - reflexivity.
  - reflexivity.
  - exact Hp.
  - exists d, d'. split_and!; [exact Hd|exact Hidx|exact Hp|exact Hk|exact Hres
                              |exact Hkids|exact Hpar].
Defined.

Lemma refresh_needs_element_roots_witness :
  ∃ d d' r t,
    flagTemplate true dom0 = Some (flagClosure, d) ∧
    flagRefresh flagClosure false d = Some (flagClosure, d') ∧
    head (componentInstance flagClosure) = Some r ∧
    kindOf d' r = Some (Element t).
Proof.
  assert (flagTemplate true dom0 = Some (flagClosure, ?[d])) as Ht
    by (vm_compute; reflexivity).
  match type of Ht with
  | _ = Some (_, ?d) =>
      assert (flagRefresh flagClosure false d = Some (flagClosure, ?[d'])) as Hr
        by (vm_compute; reflexivity)
  end.
  destruct (refresh_needs_element_roots MiniHtml.parse MiniHtml.parse _ false _ _ _ Hr)
    as (r & t & _ & _ & _ & _ & _ & Hhead & Hkind & _).
  do 2 eexists. exists r, t.
  split_and!; [exact Ht|exact Hr|exact Hhead|exact Hkind].
Defined.

Lemma refresh_rewrites_first_root_only_witness :
  ∃ d d' d1,
    flagTemplate true dom0 = Some (flagClosure, d) ∧
    flagRefresh flagClosure false d = Some (flagClosure, d') ∧
    buildComponent MiniHtml.parse MiniHtml.parse (strings flagClosure) (args flagClosure)
      (references flagClosure) false d = Some ([1], ∅, d1) ∧
    fresh d1 = 2 ∧
    attrsOf d' 0 = copyAttrList (attrsOf d1 1) (attrsOf d1 0) ∧
    ∀ x, x < fresh d1 → kindOf d' x = kindOf d1 x ∧ (x ≠ 0 → attrsOf d' x = attrsOf d1 x).
Proof.
  assert (flagTemplate true dom0 = Some (flagClosure, ?[d])) as Ht
    by (vm_compute; reflexivity).
  match type of Ht with
  | _ = Some (_, ?d) =>
      assert (flagRefresh flagClosure false d = Some (flagClosure, ?[d'])) as Hr
        by (vm_compute; reflexivity);
      assert (buildComponent MiniHtml.parse MiniHtml.parse (strings flagClosure)
                (args flagClosure) (references flagClosure) false d
              = Some ([1], ∅, ?[d1])) as Hb by (vm_compute; reflexivity)
  end.
  match type of Hb with
  | _ = Some (_, _, ?d1) => assert (fresh d1 = 2) as Hfresh by (vm_compute; reflexivity)
  end.
  destruct (refresh_rewrites_first_root_only MiniHtml.parse MiniHtml.parse _ false _ _ _ Hr)
    as (u & refs & d1 & r & r0 & Hb' & Hhead & Hhead0 & Hattrs & Hframe).
  rewrite Hb in Hb'. injection Hb' as <- <- <-.
  injection Hhead as <-. injection Hhead0 as <-.
  rewrite Hfresh in Hattrs.
  specialize (Hattrs ltac:(repeat constructor) ltac:(repeat constructor)).
  do 3 eexists.
  split_and!; [exact Ht|exact Hr|exact Hb|exact Hfresh|exact Hattrs|exact Hframe].
Defined.

Lemma not_in_singleton (y z : nid) : y ≠ z → y ∉ [z].
Proof. intros Hne Hin. apply list_elem_of_singleton in Hin. by apply Hne. Qed.

Lemma refresh_orphans_former_children_witness :
  ∃ d d' u d1,
    template MiniHtml.parse MiniHtml.parse ["<ul>"; "</ul>"] [VFun itemsCallback] ["A"] dom0
    = Some (listClosure, d) ∧
    refresh MiniHtml.parse MiniHtml.parse listClosure ["B"] d = Some (listClosure, d') ∧
    buildComponent MiniHtml.parse MiniHtml.parse (strings listClosure) (args listClosure)
      (references listClosure) ["B"] d = Some (u, ∅, d1) ∧
    kidsOf d1 2 = [0] ∧
    contents u d1 = [4] ∧
    (0 ∉ kidsOf d' 2) ∧ parentOf d' 0 = None.
Proof.
  assert (template MiniHtml.parse MiniHtml.parse ["<ul>"; "</ul>"] [VFun itemsCallback]
            ["A"] dom0 = Some (listClosure, ?[d])) as Ht by (vm_compute; reflexivity).
  match type of Ht with
  | _ = Some (_, ?d) =>
      assert (refresh MiniHtml.parse MiniHtml.parse listClosure ["B"] d
              = Some (listClosure, ?[d'])) as Hr by (vm_compute; reflexivity);
      assert (buildComponent MiniHtml.parse MiniHtml.parse (strings listClosure)
                (args listClosure) (references listClosure) ["B"] d
              = Some (?[u], ∅, ?[d1])) as Hb
        by (vm_compute; reflexivity)
  end.
  match type of Hb with
  | _ = Some (?u, _, ?d1) =>
      assert (kidsOf d1 2 = [0]) as Hk by (vm_compute; reflexivity);
      assert (contents u d1 = [4]) as Hch by (vm_compute; reflexivity);
      assert (is_Some (getNode d1 0)) as Hex by (vm_compute; eexists; reflexivity)
  end.
  pose proof (refresh_orphans_former_children MiniHtml.parse MiniHtml.parse listClosure
              ["B"] _ _ _ 2 _ _ _ 0 eq_refl Hr Hb) as Hthm.
  rewrite Hch, Hk in Hthm.
  destruct (Hthm (NoDup_singleton 4) (not_in_singleton 2 4 ltac:(discriminate))
              ltac:(left) (not_in_singleton 0 4 ltac:(discriminate)) Hex)
    as [Hgone Hpar].
  do 4 eexists.
  split_and!; [exact Ht|exact Hr|exact Hb|exact Hk|exact Hch|exact Hgone|exact Hpar].
Defined.

End ConcreteMore.

(** ** The parse as a forest *)

Section Forest.

Implicit Types (d : Dom) (n p q x r : nid) (o : option nid) (h : html) (hs : list html).

Lemma allocAll_forest_with (P : html → Prop) o hs d :
  (∀ h o d, P h → forest (fresh d) (alloc o h d).2 ∧ parentOf (alloc o h d).2 (fresh d) = o) →
  Forall P hs →
  forest (fresh d) (allocAll o hs d).2 ∧
  ∀ r, r ∈ (allocAll o hs d).1 → parentOf (allocAll o hs d).2 r = o.
Proof.
  intros HP Hall. revert d. induction Hall as [|h hs Hh _ IH]; intros d; simpl.
  - split; [|by intros r ?%elem_of_nil]. intros q Hq. lia.
  - destruct (HP h o d Hh) as (Hf & Hpar).
    destruct (alloc_new h o d) as (Hroot & Hext & Hlt).
    destruct (alloc o h d) as [c d1]. simpl in *. subst c.
    destruct (IH d1) as (Hf' & Hroots).
    destruct (allocAll_new o hs d1) as ([Hle Hsame] & Hrange & _).
    destruct (allocAll o hs d1) as [cs d2]. simpl in *.
    split.
    + intros q Hq. destruct (decide (q < fresh d1)) as [Hlt1|Hge].
      * destruct (Hf q ltac:(lia)) as (Hex & Hnd & Hk).
        unfold kidsOf in *. rewrite Hsame by done. split_and!; [done|done|].
        intros c Hc. destruct (Hk c Hc) as [Hr Hp]. split; [lia|].
        unfold parentOf in *. rewrite Hsame by lia. done.
      * apply Hf'. lia.
    + intros r [->|Hr]%elem_of_cons; [|by apply Hroots].
      unfold parentOf in *. by rewrite Hsame.
Qed.

Lemma alloc_forest h : ∀ o d,
  forest (fresh d) (alloc o h d).2 ∧ parentOf (alloc o h d).2 (fresh d) = o.
Proof.
  induction h as [s|t a ks IH] using html_induction; intros o d.
  - simpl. split.
    + intros q Hq. simpl in Hq. assert (q = fresh d) as -> by lia.
      unfold kidsOf, getNode. simpl. rewrite lookup_insert_eq. simpl.
      split_and!; [by eexists|constructor|by intros c ?%elem_of_nil].
    + unfold parentOf, getNode. simpl. by rewrite lookup_insert_eq.
  - rewrite alloc_elem.
    pose proof (newNode_extends (Element t) a o d) as Hnew.
    destruct (allocAll_forest_with
                (λ h, ∀ o d, forest (fresh d) (alloc o h d).2
                             ∧ parentOf (alloc o h d).2 (fresh d) = o)
                (Some (fresh d)) ks (newNode (Element t) a o d).2)
      as (Hf & Hroots); [by intros h' o' d' Hh'|done|].
    destruct (allocAll_new (Some (fresh d)) ks (newNode (Element t) a o d).2)
      as ([Hle Hsame] & Hrange & Hnd).
    destruct (allocAll _ ks _) as [cs d1]. simpl in *.
    assert (getNode d1 (fresh d) = Some (mkNode (Element t) a [] o)) as Hn.
    { rewrite Hsame by lia. unfold getNode. simpl. by rewrite lookup_insert_eq. }
    split.
    + intros q Hq. simpl in Hq. destruct (decide (q = fresh d)) as [->|Hne].
      * unfold kidsOf. rewrite getNode_alterNode, decide_True, Hn by done. simpl.
        split_and!; [by eexists|done|].
        intros c Hc. specialize (Hrange c Hc). split; [lia|].
        rewrite parentOf_alter_ne by lia. by apply Hroots.
      * destruct (Hf q ltac:(lia)) as (Hex & Hnd' & Hk).
        rewrite kidsOf_alter_ne by done. rewrite is_Some_getNode_alter.
        split_and!; [done|done|].
        intros c Hc. destruct (Hk c Hc) as [Hr Hp]. split; [done|].
        rewrite parentOf_alter_ne by lia. done.
    + rewrite parentOf_alter_keep by done. unfold parentOf. by rewrite Hn.
Qed.

Lemma allocAll_forest o hs d :
  forest (fresh d) (allocAll o hs d).2 ∧
  ∀ r, r ∈ (allocAll o hs d).1 → parentOf (allocAll o hs d).2 r = o.
Proof.
  apply (allocAll_forest_with (λ _, True)); [intros; apply alloc_forest|].
  by apply Forall_true.
Qed.

Lemma below_trans d r y x : below d r y → below d y x → below d r x.
Proof.
  intros Hry Hyx. induction Hyx as [x Hx|z x _ IH Hx].
  - by eapply below_step.
  - by eapply below_step.
Qed.

Lemma descendants_below fuel d r x : x ∈ descendants fuel d r → below d r x.
Proof.
  revert r. induction fuel as [|k IH]; intros r; simpl.
  - by intros ?%elem_of_nil.
  - rewrite list_elem_of_In, in_flat_map. intros (c & Hc & Hx).
    apply list_elem_of_In in Hc. destruct Hx as [->|Hx].
    + by apply below_kid.
    + apply list_elem_of_In, IH in Hx.
      eapply below_trans; [by apply below_kid|done].
Qed.

Lemma below_range lo d r x :
  forest lo d → lo ≤ r < fresh d → below d r x →
  r < x < fresh d ∧ ∃ q, lo ≤ q < fresh d ∧ x ∈ kidsOf d q.
Proof.
  intros Hf Hr Hb. induction Hb as [x Hx|y x _ IH Hx].
  - destruct (Hf r Hr) as (_ & _ & Hk). destruct (Hk x Hx) as [? _].
    split; [done|]. by exists r.
  - destruct IH as [Hy _]. destruct (Hf y ltac:(lia)) as (_ & _ & Hk).
    destruct (Hk x Hx) as [? _]. split; [lia|]. exists y. split; [lia|done].
Qed.

Lemma below_disjoint lo d a b x :
  forest lo d → lo ≤ a < fresh d → lo ≤ b < fresh d →
  a ≠ b → ¬ below d a b → ¬ below d b a →
  below d a x → below d b x → False.
Proof.
  intros Hf Ha Hb Hne Hab Hba Hax. induction Hax as [x Hx|y x Hay IH Hx]; intros Hbx.
  - destruct (Hf a Ha) as (_ & _ & Hk). destruct (Hk x Hx) as [_ Hp].
    inversion Hbx as [x' Hx'|y' x' Hby' Hx']; subst.
    + destruct (Hf b Hb) as (_ & _ & Hk'). destruct (Hk' x Hx') as [_ Hp']. congruence.
    + destruct (below_range lo d b y' Hf Hb Hby') as [Hy' _].
      destruct (Hf y' ltac:(lia)) as (_ & _ & Hk'). destruct (Hk' x Hx') as [_ Hp'].
      assert (y' = a) as -> by congruence. done.
  - destruct (below_range lo d a y Hf Ha Hay) as [Hy _].
    destruct (Hf y ltac:(lia)) as (_ & _ & Hk). destruct (Hk x Hx) as [_ Hp].
    inversion Hbx as [x' Hx'|y' x' Hby' Hx']; subst.
    + destruct (Hf b Hb) as (_ & _ & Hk'). destruct (Hk' x Hx') as [_ Hp'].
      assert (y = b) as -> by congruence. done.
    + destruct (below_range lo d b y' Hf Hb Hby') as [Hy' _].
      destruct (Hf y' ltac:(lia)) as (_ & _ & Hk'). destruct (Hk' x Hx') as [_ Hp'].
      assert (y' = y) as -> by congruence. by apply IH.
Qed.

Lemma siblings_not_below lo d r c1 c2 :
  forest lo d → lo ≤ r < fresh d → c1 ∈ kidsOf d r → c2 ∈ kidsOf d r →
  ¬ below d c1 c2.
Proof.
  intros Hf Hr H1 H2 Hb.
  destruct (Hf r Hr) as (_ & _ & Hk).
  destruct (Hk c1 H1) as [Hc1 Hp1]. destruct (Hk c2 H2) as [Hc2 Hp2].
  inversion Hb as [x Hx|y x Hby Hx]; subst.
  - destruct (Hf c1 ltac:(lia)) as (_ & _ & Hk'). destruct (Hk' c2 Hx) as [_ Hp'].
    assert (c1 = r) by congruence. lia.
  - destruct (below_range lo d c1 y Hf ltac:(lia) Hby) as [Hy _].
    destruct (Hf y ltac:(lia)) as (_ & _ & Hk'). destruct (Hk' c2 Hx) as [_ Hp'].
    assert (y = r) by congruence. lia.
Qed.

Lemma NoDup_flat_map {A B : Type} (g : A → list B) (l : list A) :
  NoDup l →
  (∀ c, c ∈ l → NoDup (g c)) →
  (∀ (c c' : A) (y : B), c ∈ l → c' ∈ l → c ≠ c' → y ∈ g c → y ∈ g c' → False) →
  NoDup (flat_map g l).
Proof.
  induction 1 as [|c l Hc Hnd IH]; intros Hg Hdis; simpl; [constructor|].
  apply NoDup_app. split_and!.
  - apply Hg. by left.
  - intros y Hx Hin. apply list_elem_of_In, in_flat_map in Hin as (c' & Hc' & Hx').
    apply list_elem_of_In in Hc', Hx'.
    apply (Hdis c c' y); [by left|by right|by intros ->|done|done].
  - apply IH.
    + intros c' Hc'. apply Hg. by right.
    + intros c1 c2 y H1 H2. apply Hdis; by right.
Qed.

Lemma descendants_NoDup lo d fuel r :
  forest lo d → lo ≤ r < fresh d → NoDup (descendants fuel d r).
Proof.
  intros Hf. revert r. induction fuel as [|k IH]; intros r Hr; simpl; [constructor|].
  destruct (Hf r Hr) as (_ & Hnd & Hk).
  apply NoDup_flat_map; [done| |].
  - intros c Hc. destruct (Hk c Hc) as [Hc' _]. constructor.
    + intros Hin. apply descendants_below in Hin.
      destruct (below_range lo d c c Hf ltac:(lia) Hin). lia.
    + apply IH. lia.
  - intros c c' x Hc Hc' Hne Hx Hx'.
    destruct (Hk c Hc) as [Hcr _]. destruct (Hk c' Hc') as [Hcr' _].
    pose proof (siblings_not_below lo d r c c' Hf Hr Hc Hc') as N1.
    pose proof (siblings_not_below lo d r c' c Hf Hr Hc' Hc) as N2.
    apply elem_of_cons in Hx as [->|Hx]; apply elem_of_cons in Hx' as [->|Hx'].
    + done.
    + apply N2. by eapply descendants_below.
    + apply N1. by eapply descendants_below.
    + apply (below_disjoint lo d c c' x Hf); [lia|lia|done|done|done| |];
        by eapply descendants_below.
Qed.

(** What the search below freshly parsed roots finds: each marker once, a
    child of a parsed node, never a root. *)
Lemma findSlots_forest lo d (u : list nid) :
  forest lo d → NoDup u →
  (∀ r, r ∈ u → lo ≤ r < fresh d ∧ parentOf d r = None) →
  NoDup (findSlots u d) ∧
  ∀ m, m ∈ findSlots u d →
    isSlot d m = true ∧ lo ≤ m < fresh d ∧ (m ∉ u) ∧
    ∃ q, lo ≤ q < fresh d ∧ m ∈ kidsOf d q ∧ parentOf d m = Some q.
Proof.
  intros Hf Hnd Hu.
  assert (∀ r m, r ∈ u → m ∈ filter (λ n, isSlot d n = true) (descendants (size (heap d)) d r) →
            isSlot d m = true ∧ below d r m) as Hin.
  { intros r m Hr [Hs Hm]%list_elem_of_filter. split; [done|]. by eapply descendants_below. }
  assert (∀ r m, r ∈ u → below d r m →
            lo ≤ m < fresh d ∧ (m ∉ u) ∧
            ∃ q, lo ≤ q < fresh d ∧ m ∈ kidsOf d q ∧ parentOf d m = Some q) as Hbelow.
  { intros r m Hr Hb. destruct (Hu r Hr) as [Hrange _].
    destruct (below_range lo d r m Hf Hrange Hb) as (Hm & q & Hq & Hk).
    destruct (Hf q Hq) as (_ & _ & Hkq). destruct (Hkq m Hk) as [_ Hp].
    split; [lia|]. split; [|by exists q].
    intros Hmu. destruct (Hu m Hmu) as [_ Hnone]. congruence. }
  split.
  - unfold findSlots. apply NoDup_flat_map; [done| |].
    + intros r Hr. apply NoDup_filter. apply (descendants_NoDup lo); [done|]. by apply Hu.
    + intros r r' x Hr Hr' Hne Hx Hx'.
      destruct (Hin r x Hr Hx) as [_ Hb]. destruct (Hin r' x Hr' Hx') as [_ Hb'].
      apply (below_disjoint lo d r r' x Hf); try done; try by apply Hu.
      * intros Hrr. by destruct (Hbelow r r' Hr Hrr) as (_ & ? & _).
      * intros Hrr. by destruct (Hbelow r' r Hr' Hrr) as (_ & ? & _).
  - intros m Hm. unfold findSlots in Hm.
    apply list_elem_of_In, in_flat_map in Hm as (r & Hr & Hm).
    apply list_elem_of_In in Hr, Hm.
    destruct (Hin r m Hr Hm) as [Hs Hb]. split; [done|]. by eapply Hbelow.
Qed.

End Forest.

(** ** What a step leaves of a node it does not insert *)

Section Untouched.

Context {St : Type}.
Variable parseHTML : string -> list html.
Variable parseFragment : string -> list html.
Implicit Types (d : Dom) (n p q x r this : nid) (ns frag : list nid) (v : data) (st : St).

Lemma untouched_refl r d : untouched r d d.
Proof. intros Hr. split_and!; try done. Qed.

Lemma untouched_trans r d1 d2 d3 :
  untouched r d1 d2 → untouched r d2 d3 → untouched r d1 d3.
Proof.
  intros U1 U2 Hr. destruct (U1 Hr) as (F1 & K1 & A1 & P1 & I1 & O1).
  destruct (U2 ltac:(lia)) as (F2 & K2 & A2 & P2 & I2 & O2).
  split_and!; [lia|congruence|congruence|congruence| |].
  - intros q Hq Hin. destruct (I2 q Hq Hin) as [Hq2 Hin2]. by apply I1.
  - intros q Hq Hin. apply O2; [lia|]. by apply O1.
Qed.

Lemma grows_refl d : grows d d.
Proof. split; [apply extends_refl|]. intros q c Hq. lia. Qed.

Lemma grows_trans d1 d2 d3 : grows d1 d2 → grows d2 d3 → grows d1 d3.
Proof.
  intros [E1 N1] [E2 N2]. split; [by eapply extends_trans|].
  intros q c Hq Hc. destruct E1 as [L1 S1], E2 as [L2 S2].
  destruct (decide (q < fresh d2)) as [Hlt|Hge].
  - unfold kidsOf in Hc. rewrite S2 in Hc by done. apply (N1 q c); [lia|done].
  - specialize (N2 q c ltac:(lia) Hc). lia.
Qed.

Lemma grows_untouched r d d' : grows d d' → untouched r d d'.
Proof.
  intros [[Hle Hsame] Hnew] Hr.
  unfold kindOf, attrsOf, parentOf. rewrite Hsame by done.
  split_and!; try done.
  - intros q Hq Hin. destruct (decide (q < fresh d)) as [Hlt|Hge].
    + split; [done|]. unfold kidsOf in *. by rewrite Hsame in Hin.
    + specialize (Hnew q r ltac:(lia) Hin). lia.
  - intros q Hq Hin. unfold kidsOf in *. by rewrite Hsame.
Qed.

Lemma newNode_grows k a (o : option nid) d : grows d (newNode k a o d).2.
Proof.
  split; [apply newNode_extends|]. simpl. intros q c Hq.
  assert (q = fresh d) as -> by lia.
  unfold kidsOf, getNode. simpl. rewrite lookup_insert_eq. simpl. by intros ?%elem_of_nil.
Qed.

Lemma allocAll_grows (o : option nid) (hs : list html) d : grows d (allocAll o hs d).2.
Proof.
  destruct (allocAll_new o hs d) as (Hext & _ & _).
  destruct (allocAll_forest o hs d) as (Hf & _).
  split; [done|]. intros q c Hq Hc.
  destruct (Hf q Hq) as (_ & _ & Hk). destruct (Hk c Hc). lia.
Qed.

(** Changing the record of one node. *)
Lemma alterNode_untouched (f : node → node) x r d :
  (x = r → ∀ nd, kind (f nd) = kind nd ∧ attributes (f nd) = attributes nd
                 ∧ parentNode (f nd) = parentNode nd) →
  (∀ nd, getNode d x = Some nd → (r ∈ childNodes (f nd) ↔ r ∈ childNodes nd)) →
  untouched r d (alterNode f x d).
Proof.
  intros Hsame Hkids Hr.
  assert (∀ q, r ∈ kidsOf (alterNode f x d) q ↔ r ∈ kidsOf d q) as Hk.
  { intros q. unfold kidsOf. rewrite getNode_alterNode.
    destruct (decide (x = q)) as [->|]; [|done].
    destruct (getNode d q) as [nd|] eqn:Hq; simpl; [by apply Hkids|done]. }
  split_and!; simpl; [done| | | | |].
  - unfold kindOf. rewrite getNode_alterNode. destruct (decide (x = r)) as [->|]; [|done].
    destruct (getNode d r) as [nd|]; simpl; [|done]. by destruct (Hsame eq_refl nd) as (-> & _).
  - unfold attrsOf. rewrite getNode_alterNode. destruct (decide (x = r)) as [->|]; [|done].
    destruct (getNode d r) as [nd|]; simpl; [|done]. by destruct (Hsame eq_refl nd) as (_ & -> & _).
  - unfold parentOf. rewrite getNode_alterNode. destruct (decide (x = r)) as [->|]; [|done].
    destruct (getNode d r) as [nd|]; simpl; [|done]. by destruct (Hsame eq_refl nd) as (_ & _ & ->).
  - intros q Hq Hin. split; [done|]. by apply Hk.
  - intros q Hq Hin. by apply Hk.
Qed.

Lemma detachNode_untouched n r d : n ≠ r → untouched r d (detachNode n d).
Proof.
  intros Hne. unfold detachNode. destruct (parentOf d n) as [p|]; [|apply untouched_refl].
  eapply untouched_trans.
  - apply (alterNode_untouched (λ pn, withKids (filter (λ c, c ≠ n) (childNodes pn)) pn) p r d).
    + done.
    + intros nd _. simpl. rewrite list_elem_of_filter. split; [tauto|]. intros; split; [congruence|done].
  - apply alterNode_untouched; [by intros ->|done].
Qed.

Lemma detach_untouched ns r d : r ∉ ns → untouched r d (detach ns d).
Proof.
  revert d. induction ns as [|n ns IH]; intros d Hr; [apply untouched_refl|].
  apply not_elem_of_cons in Hr as [Hne Hr]. rewrite detach_cons.
  eapply untouched_trans; [by apply detachNode_untouched|by apply IH].
Qed.

Lemma adopt_untouched p frag r d : r ∉ frag → untouched r d (adopt p frag d).
Proof.
  induction frag as [|n frag IH]; simpl; intros Hr; [apply untouched_refl|].
  apply not_elem_of_cons in Hr as [Hne Hr].
  eapply untouched_trans; [by apply IH|].
  apply alterNode_untouched; [by intros ->|done].
Qed.

(** Building a fragment of a value that does not hold [r]. *)
Lemma fragItems_untouched (skip : list nid) (items : list item) frag (ign : bool) d r :
  r < fresh d → r ∉ frag → r ∉ flat_map itemNodes items →
  untouched r d (fold_left (fragItem parseFragment skip) items (frag, ign, d)).2 ∧
  r ∉ (fold_left (fragItem parseFragment skip) items (frag, ign, d)).1.1.
Proof.
  revert frag ign d. induction items as [|it items IH]; intros frag ign d Hr Hfrag Hit.
  - split; [apply untouched_refl|done].
  - cbn [fold_left]. cbn [flat_map] in Hit. rewrite elem_of_app in Hit.
    assert (∃ frag' ign' d', fragItem parseFragment skip (frag, ign, d) it = (frag', ign', d')
              ∧ untouched r d d' ∧ r ∉ frag') as (frag' & ign' & d' & -> & U & Hfrag').
    { destruct it as [s| n | |ns]; simpl.
      - destruct (decide (s = EmptyString)).
        { exists frag, ign, d. split_and!; [done|apply untouched_refl|done]. }
        pose proof (allocAll_grows None (parseFragment s) d) as Hg.
        destruct (allocAll_new None (parseFragment s) d) as (_ & Hrange & _).
        destruct (allocAll None (parseFragment s) d) as [ns d']. simpl in *.
        do 3 eexists. split; [done|]. split; [by apply grows_untouched|].
        rewrite elem_of_app. intros [?|Hin]; [done|]. specialize (Hrange r Hin). lia.
      - do 3 eexists. split; [done|]. split.
        + apply grows_untouched. apply (newNode_grows (TextNode (showNat n)) [] None d).
        + rewrite elem_of_app, list_elem_of_singleton. intros [?|?]; [done|lia].
      - exists frag, ign, d. split_and!; [done|apply untouched_refl|done].
      - destruct (fragNodes_filter skip ns frag ign d) as [ign' ->].
        do 3 eexists. split; [done|].
        assert (r ∉ filter (λ n, n ∉ skip) ns) as Hout.
        { rewrite list_elem_of_filter. simpl in Hit. tauto. }
        split; [by apply detach_untouched|].
        rewrite elem_of_moveToEnd_all. tauto. }
    destruct (U Hr) as (Hle & _).
    destruct (IH frag' ign' d' ltac:(lia) Hfrag' ltac:(tauto)) as [U' Hout].
    split; [by eapply untouched_trans|done].
Qed.

Lemma buildFragment_untouched (skip : list nid) v d r :
  r < fresh d → r ∉ valueNodes v →
  untouched r d (buildFragment parseFragment skip v d).2 ∧
  r ∉ (buildFragment parseFragment skip v d).1.1.
Proof. intros Hr Hv. apply fragItems_untouched; [done|apply not_elem_of_nil|done]. Qed.

Lemma elem_of_spliceAt this frag (ks : list nid) x :
  x ∈ spliceAt this frag ks ↔ (x ∈ ks ∧ x ≠ this) ∨ (this ∈ ks ∧ x ∈ frag).
Proof.
  unfold spliceAt. rewrite list_elem_of_In, in_flat_map. split.
  - intros (c & Hc & Hx). apply list_elem_of_In in Hc.
    destruct (decide (c = this)) as [->|Hne].
    + right. split; [done|]. by apply list_elem_of_In.
    + left. destruct Hx as [->|[]]. done.
  - intros [[Hx Hne]|[Hthis Hx]].
    + exists x. rewrite <- list_elem_of_In. split; [done|].
      rewrite decide_False by done. by left.
    + exists this. rewrite <- !list_elem_of_In. split; [done|]. by rewrite decide_True.
Qed.

Lemma replaceWith_data_untouched this v st d d' r :
  r ≠ this → r ∉ valueNodes v →
  replaceWith parseFragment this (VData v) st d = Some d' →
  untouched r d d'.
Proof.
  intros Hne Hv Hrep Hr. revert Hr. change (untouched r d d').
  unfold replaceWith in Hrep.
  assert (r < fresh d → untouched r d (buildFragment parseFragment [this] v d).2
                        ∧ r ∉ (buildFragment parseFragment [this] v d).1.1) as Hb
    by (intros; by apply buildFragment_untouched).
  destruct (buildFragment parseFragment [this] v d) as [[frag ign] d1]. simpl in Hb.
  intros Hr. destruct (Hb Hr) as [U Hout]. revert Hr. change (untouched r d d').
  destruct ign; [by injection Hrep as <-|].
  destruct (parentOf d1 this) as [p|]; [|by injection Hrep as <-].
  destruct (hierarchyOk frag p d1); [|done]. injection Hrep as <-.
  eapply untouched_trans; [exact U|].
  eapply untouched_trans; [|eapply untouched_trans].
  - apply (alterNode_untouched (λ pn, withKids (spliceAt this frag (childNodes pn)) pn) p r d1).
    + done.
    + intros nd _. simpl. rewrite elem_of_spliceAt. split; [|tauto].
      intros [[? _]|[_ ?]]; done.
  - by apply adopt_untouched.
  - apply alterNode_untouched; [by intros ->|done].
Qed.

Lemma replaceWith_untouched this (w : value St) st d d' r :
  r ≠ this →
  match w with
  | VData v => r ∉ valueNodes v
  | VFun f => (r ∉ valueNodes (f st d).1) ∧ untouched r d (f st d).2
  end →
  replaceWith parseFragment this w st d = Some d' →
  untouched r d d'.
Proof.
  intros Hne Hw Hrep. destruct w as [v|f]; [by eapply replaceWith_data_untouched|].
  destruct Hw as [Hv U].
  assert (replaceWith parseFragment this (VData (f st d).1) st (f st d).2 = Some d') as Hrep'.
  { unfold replaceWith in *. by destruct (f st d) as [dv d0]. }
  eapply untouched_trans; [exact U|]. by eapply replaceWith_data_untouched.
Qed.

Lemma resolveSlot_untouched refs args st this d d' r :
  apartFrom r st args →
  (∀ i v, refs !! i = Some v → r ∉ valueNodes v) →
  r ≠ this →
  resolveSlot parseFragment refs args st this d = Some d' →
  untouched r d d'.
Proof.
  intros Hargs Hrefs Hne. unfold resolveSlot. apply replaceWith_untouched; [done|].
  unfold getReferenceValue, argAt.
  destruct (slotIndex d this) as [i|]; simpl; [|apply not_elem_of_nil].
  destruct (refs !! i) as [v|] eqn:Hi; [by eapply Hrefs|].
  destruct (args !! i) as [w|] eqn:Hw; [|apply not_elem_of_nil].
  apply list_elem_of_lookup_2 in Hw. specialize (Hargs w Hw).
  destruct w as [v|f]; [done|apply Hargs].
Qed.

Lemma each_untouched (g : nid → Dom → option Dom) (c : list nid) d d' r :
  (∀ this d0 d1, this ∈ c → g this d0 = Some d1 → untouched r d0 d1) →
  each g c d = Some d' → untouched r d d'.
Proof.
  revert d. induction c as [|this c IH]; intros d Hg He; simpl in He.
  - injection He as <-. apply untouched_refl.
  - destruct (g this d) as [d0|] eqn:H0; simpl in He; [|done].
    eapply untouched_trans; [apply (Hg this d d0); [by left|done]|].
    apply IH; [|done]. intros this' da db Hin. apply Hg. by right.
Qed.

Lemma createReference_untouched refs (w : value St) i st d r :
  match w with VFun f => untouched r d (f st d).2 | VData _ => True end →
  untouched r d (createReference refs w i st d).2.
Proof.
  destruct w as [[[]|]|f]; simpl; try (intros; apply untouched_refl).
  intros U. destruct (f st d) as [ev d']. by destruct (isString ev).
Qed.

Lemma assemble_untouched strs (vs : list (value St)) st i acc r :
  apartFrom r st vs →
  untouched r acc.2 (assemble strs i vs st acc).2.
Proof.
  revert i acc. induction vs as [|w vs IH]; intros i [[prev refs] d] Hargs; simpl.
  - apply untouched_refl.
  - pose proof (createReference_untouched refs w i st d r) as U.
    destruct (createReference refs w i st d) as [[piece refs'] d']. simpl in U.
    eapply untouched_trans.
    + apply U. specialize (Hargs w ltac:(by left)). destruct w; [done|apply Hargs].
    + apply (IH (S i) (prev +:+ piece +:+ stringAt strs (S i), refs', d')).
      intros w' Hw'. apply Hargs. by right.
Qed.

(** Every entry of the table after the pass was there before or is the
    result of a callback of the values array. *)
Lemma assemble_refs_from (P : data → Prop) strs (vs : list (value St)) st i acc :
  (∀ j v, acc.1.2 !! j = Some v → P v) →
  (∀ f d, VFun f ∈ vs → P (f st d).1) →
  ∀ j v, (assemble strs i vs st acc).1.2 !! j = Some v → P v.
Proof.
  revert i acc. induction vs as [|w vs IH]; intros i [[prev refs] d] Hrefs Hfun; simpl; [done|].
  assert (∀ j v, (createReference refs w i st d).1.2 !! j = Some v → P v) as Hstep.
  { intros j v. destruct w as [[[]|]|f]; simpl; try apply Hrefs.
    specialize (Hfun f d ltac:(by left)).
    destruct (f st d) as [ev d']. destruct (isString ev); simpl; [apply Hrefs|].
    destruct (decide (i = j)) as [->|Hne].
    - rewrite lookup_insert_eq. by intros [= <-].
    - rewrite lookup_insert_ne by done. apply Hrefs. }
  destruct (createReference refs w i st d) as [[piece refs'] d']. simpl in Hstep.
  apply (IH (S i) (prev +:+ piece +:+ stringAt strs (S i), refs', d')); [done|].
  intros f d0 Hin. apply Hfun. by right.
Qed.

End Untouched.

(** ** [refresh] and the roots of the instance *)

Section UntouchedRefresh.

Context {St : Type}.
Variable parseHTML : string -> list html.
Variable parseFragment : string -> list html.
Implicit Types (d : Dom) (n p q x r this : nid) (ns frag : list nid) (v : data) (st : St).

Lemma untouched_intro r d d' : (r < fresh d → untouched r d d') → untouched r d d'.
Proof. intros H Hr. by apply H. Qed.

Lemma fold_grows (g : nid → Dom → list nid * Dom) (l acc : list nid) d :
  (∀ n d, grows d (g n d).2 ∧ ∀ y, y ∈ (g n d).1 → fresh d ≤ y) →
  grows d (fold_left (λ '(acc, d) n, let '(ks, d') := g n d in (acc ++ ks, d')) l (acc, d)).2
  ∧ ∀ y, y ∈ (fold_left (λ '(acc, d) n, let '(ks, d') := g n d in (acc ++ ks, d'))
                 l (acc, d)).1 → y ∈ acc ∨ fresh d ≤ y.
Proof.
  intros Hg. revert acc d. induction l as [|n l IH]; intros acc d; simpl.
  - split; [apply grows_refl|]. by left.
  - destruct (Hg n d) as [Hext Hnew]. destruct (g n d) as [ks d1]. simpl in *.
    destruct (IH (acc ++ ks) d1) as [Hext' Hnew']. split.
    + by eapply grows_trans.
    + intros y Hy. destruct (Hnew' y Hy) as [Hin|Hle].
      * apply elem_of_app in Hin as [?|Hin]; [by left|right; by apply Hnew].
      * right. destruct Hext as [[? _] _]. lia.
Qed.

Lemma alterNode_new_grows (cs : list nid) d0 d c :
  grows d0 d → fresh d0 ≤ c → (∀ y, y ∈ cs → fresh d0 ≤ y) →
  grows d0 (alterNode (withKids cs) c d).
Proof.
  intros [Hext Hnew] Hc Hcs. split; [by apply alterNode_new_extends|].
  simpl. intros q y Hq Hy. destruct (decide (c = q)) as [->|Hne].
  - unfold kidsOf in Hy. rewrite getNode_alterNode, decide_True in Hy by done.
    destruct (getNode d q); simpl in Hy; [by apply Hcs|by apply elem_of_nil in Hy].
  - rewrite kidsOf_alter_ne in Hy by done. by eapply Hnew.
Qed.

Lemma cloneNode_grows fuel (o : option nid) n d :
  grows d (cloneNode fuel o n d).2
  ∧ ∀ y, y ∈ (cloneNode fuel o n d).1 → fresh d ≤ y.
Proof.
  revert o n d. induction fuel as [|fuel IH]; intros o n d; simpl.
  - split; [apply grows_refl|]. by intros y ?%elem_of_nil.
  - destruct (getNode d n) as [nd|]; [|split; [apply grows_refl|by intros y ?%elem_of_nil]].
    pose proof (fold_grows (cloneNode fuel (Some (fresh d))) (childNodes nd) []
                  (newNode (kind nd) (attributes nd) o d).2
                  (λ n0 d0, IH (Some (fresh d)) n0 d0)) as Hfold.
    simpl in Hfold.
    destruct (fold_left _ (childNodes nd) _) as [cs d1]. simpl in *.
    destruct Hfold as [Hg Hcs]. split.
    + apply alterNode_new_grows; [|done|].
      * eapply grows_trans; [apply (newNode_grows (kind nd) (attributes nd) o d)|done].
      * intros y Hy. destruct (Hcs y Hy) as [?%elem_of_nil|?]; [done|lia].
    + intros y ->%list_elem_of_singleton. done.
Qed.

Lemma cloneAll_grows frag d :
  grows d (cloneAll frag d).2 ∧ ∀ y, y ∈ (cloneAll frag d).1 → fresh d ≤ y.
Proof.
  unfold cloneAll.
  destruct (fold_grows (λ n d, cloneNode (S (size (heap d))) None n d) frag [] d)
    as [Hext Hnew].
  { intros n d0. apply cloneNode_grows. }
  split; [done|]. intros y Hy. destruct (Hnew y Hy) as [?%elem_of_nil|]; done.
Qed.

Lemma appendChildren_untouched t frag d d' r :
  r ∉ frag → appendChildren t frag d = Some d' → untouched r d d'.
Proof.
  unfold appendChildren. intros Hr Happ.
  destruct (getNode d t) as [nd|]; [|injection Happ as <-; apply untouched_refl].
  destruct (kind nd); [|injection Happ as <-; apply untouched_refl].
  destruct (hierarchyOk frag t d); [|done]. injection Happ as <-.
  eapply untouched_trans; [|by apply adopt_untouched].
  apply (alterNode_untouched (λ pn, withKids (childNodes pn ++ frag) pn) t r d).
  - done.
  - intros nd' _. simpl. rewrite elem_of_app. tauto.
Qed.

Lemma appendEach_untouched targets frag d d' r :
  r ∉ frag → appendEach targets frag d = Some d' → untouched r d d'.
Proof.
  intros Hfrag. revert d. induction targets as [|t [|t' ts] IH]; intros d Happ.
  - injection Happ as <-. apply untouched_refl.
  - by eapply appendChildren_untouched.
  - change (appendEach (t :: t' :: ts) frag d)
      with (let '(copy, d1) := cloneAll frag d in
            d2 ← appendChildren t copy d1; appendEach (t' :: ts) frag d2) in Happ.
    destruct (cloneAll_grows frag d) as [Hg Hnew].
    destruct (cloneAll frag d) as [copy d1]. simpl in Hg, Hnew.
    destruct (appendChildren t copy d1) as [d2|] eqn:Hd2; simpl in Happ; [|done].
    apply untouched_intro. intros Hr.
    eapply untouched_trans; [by apply grows_untouched|].
    eapply untouched_trans; [|by apply IH].
    eapply appendChildren_untouched; [|done]. intros Hin. apply Hnew in Hin. lia.
Qed.

Lemma append_untouched (cs content : list nid) d d' r :
  r ∈ cs ∨ r ∉ content →
  append parseFragment cs content d = Some d' → untouched r d d'.
Proof.
  unfold append. intros Hr Happ.
  destruct cs as [|r0 c0]; [injection Happ as <-; apply untouched_refl|].
  change (buildFragment parseFragment (r0 :: c0) (DItem (IJq content)) d)
    with (fragNodes (r0 :: c0) content ([], false, d)) in Happ.
  destruct (fragNodes_filter (r0 :: c0) content [] false d) as [ign' Hfrag].
  rewrite Hfrag in Happ. clear Hfrag.
  remember (filter (λ n, n ∉ r0 :: c0) content) as ns eqn:Hns.
  assert (r ∉ ns) as Hout by (rewrite Hns, list_elem_of_filter; tauto).
  assert (r ∉ fold_left moveToEnd ns []) as Hout'.
  { rewrite elem_of_moveToEnd_all. intros [?%elem_of_nil|?]; done. }
  eapply untouched_trans; [by apply (detach_untouched ns)|].
  destruct (fold_left moveToEnd ns []) as [|f frag].
  - injection Happ as <-. apply untouched_refl.
  - by eapply appendEach_untouched.
Qed.

Lemma orphan_untouched (ks : list nid) d r :
  r ∉ ks → untouched r d (fold_left (λ d c, alterNode (withParent None) c d) ks d).
Proof.
  revert d. induction ks as [|k ks IH]; intros d Hr; simpl; [apply untouched_refl|].
  apply not_elem_of_cons in Hr as [Hne Hr].
  eapply untouched_trans; [|by apply IH].
  apply alterNode_untouched; [by intros ->|done].
Qed.

Lemma emptyNode_untouched r' d r : r ∉ kidsOf d r' → untouched r d (emptyNode r' d).
Proof.
  intros Hr. unfold emptyNode, kidsOf in *.
  destruct (getNode d r') as [nd|] eqn:Hnd; [|apply untouched_refl].
  destruct (kind nd); [|apply untouched_refl].
  eapply untouched_trans; [by apply orphan_untouched|].
  apply alterNode_untouched; [done|].
  intros nd' Hnd'. simpl.
  assert (childNodes nd' = childNodes nd) as ->.
  { pose proof (orphan_kidsOf (childNodes nd) d r') as Hk. unfold kidsOf in Hk.
    by rewrite Hnd', Hnd in Hk. }
  split; [by intros ?%elem_of_nil|done].
Qed.

Lemma empty_untouched (cs : list nid) d r :
  r < fresh d → r ∉ contents cs d → untouched r d (empty cs d).
Proof.
  revert d. induction cs as [|r' cs IH]; intros d Hlt Hr; [apply untouched_refl|].
  unfold empty in *. simpl. unfold contents in Hr. simpl in Hr. rewrite elem_of_app in Hr.
  pose proof (emptyNode_untouched r' d r ltac:(tauto)) as U.
  eapply untouched_trans; [exact U|]. destruct (U Hlt) as (Hle & _ & _ & _ & Hin & _).
  apply IH; [lia|].
  rewrite elem_of_contents. intros (q & Hq & Hk).
  apply Hr. right. apply elem_of_contents. exists q. split; [done|].
  by eapply emptyNode_kids_sub.
Qed.

(** The parse of [$(html)]: new nodes that form a forest, the roots
    without a parent. *)
Lemma jq_forest html d :
  grows d (jq parseHTML html d).2 ∧
  forest (fresh d) (jq parseHTML html d).2 ∧
  NoDup (jq parseHTML html d).1 ∧
  ∀ r, r ∈ (jq parseHTML html d).1 →
       fresh d ≤ r < fresh (jq parseHTML html d).2 ∧ parentOf (jq parseHTML html d).2 r = None.
Proof.
  unfold jq. pose proof (allocAll_grows None (parseHTML html) d) as Hg.
  destruct (allocAll_new None (parseHTML html) d) as (_ & Hrange & Hnd).
  destruct (allocAll_forest None (parseHTML html) d) as (Hf & Hroots).
  split_and!; try done. intros r Hr. split; [by apply Hrange|by apply Hroots].
Qed.

(** What a build leaves of an existing node that no value holds. *)
Lemma buildComponent_untouched strs args refs0 st d u refs d' r :
  apartFrom r st args →
  (∀ i v, refs0 !! i = Some v → r ∉ valueNodes v) →
  r < fresh d →
  buildComponent parseHTML parseFragment strs args refs0 st d = Some (u, refs, d') →
  untouched r d d' ∧ ∀ q, q ∈ u → fresh d ≤ q < fresh d'.
Proof.
  intros Hargs Hrefs0 Hr Hb.
  destruct (buildComponent_inv _ _ _ _ _ _ _ _ _ _ Hb) as (html & refs1 & d1 & Hasm & -> & He).
  pose proof (assemble_untouched strs args st 0 (stringAt strs 0, refs0, d) r Hargs) as U1.
  pose proof (assemble_refs_from (λ v, r ∉ valueNodes v) strs args st 0
                (stringAt strs 0, refs0, d) Hrefs0) as Hrefs.
  rewrite Hasm in U1, Hrefs. simpl in U1, Hrefs.
  destruct (jq_forest html d1) as (Hg & Hf & Hnd & Hroots).
  destruct (findSlots_forest (fresh d1) _ _ Hf Hnd Hroots) as [_ Hslots].
  destruct (jq parseHTML html d1) as [u d2]. simpl in *.
  destruct (U1 Hr) as (Hle & _).
  pose proof (grows_untouched r d1 d2 Hg) as U2.
  assert (untouched r d2 d') as U3.
  { eapply each_untouched; [|exact He].
    intros this da db Hin. apply resolveSlot_untouched; [done| |].
    + apply Hrefs. intros f d0 Hf0. specialize (Hargs _ Hf0). apply Hargs.
    + destruct (Hslots this Hin) as (_ & ? & _). lia. }
  destruct (U2 ltac:(lia)) as (Hle2 & _). destruct (U3 ltac:(lia)) as (Hle3 & _).
  split.
  - eapply untouched_trans; [exact U1|]. by eapply untouched_trans.
  - intros q Hq. destruct (Hroots q Hq). lia.
Qed.

(** C2 as amended: a completed [refresh], on a template whose assembled
    text [$] reads as markup, hands back the closure with the same
    component instance, the same node identities; and a root of the
    instance that no value of the values array and no callback result
    holds, that the callbacks leave alone and that is not listed as a
    child of a root of the instance, is after the call what it was before
    the call: same kind, same parent, listed in the same child lists, and,
    unless it is the first root, with the same attributes.  Its own child
    list and the attributes of the first root are what [refresh]
    rewrites. *)
Theorem refresh_keeps_instance c st d c' d' r :
  refresh parseHTML parseFragment c st d = Some (c', d') →
  isMarkup (assemble (strings c) 0 (args c) st
              (stringAt (strings c) 0, references c, d)).1.1 = true →
  r ∈ componentInstance c →
  (∀ q, q ∈ componentInstance c → q < fresh d) →
  r ∉ contents (componentInstance c) d →
  apartFrom r st (args c) →
  (∀ i v, references c !! i = Some v → r ∉ valueNodes v) →
  componentInstance c' = componentInstance c ∧
  kindOf d' r = kindOf d r ∧
  parentOf d' r = parentOf d r ∧
  (∀ q, q < fresh d → r ∈ kidsOf d' q ↔ r ∈ kidsOf d q) ∧
  (head (componentInstance c) ≠ Some r → attrsOf d' r = attrsOf d r).
Proof.
  intros Href _ Hin Hlive Hroots Hargs Hrefs.
  assert (r < fresh d) as Hr by by apply Hlive.
  destruct (refresh_inv parseHTML parseFragment c st d c' d' Href)
    as (u & refs & d1 & d3 & Hb & Ha & Hc & ->).
  split; [done|].
  destruct (buildComponent_untouched _ _ _ _ _ _ _ _ r Hargs Hrefs Hr Hb) as [U1 Hu].
  destruct (U1 Hr) as (L1 & _ & _ & _ & I1 & _).
  set (ch := contents u d1) in *. set (inst := componentInstance c) in *.
  assert (r ∉ ch) as Hch.
  { unfold ch. rewrite elem_of_contents. intros (q & Hq & Hk).
    destruct (Hu q Hq) as [Hq1 Hq2]. destruct (I1 q Hq2 Hk). lia. }
  assert (r ∉ contents inst d1) as Hroots1.
  { rewrite elem_of_contents. intros (q & Hq & Hk). apply Hroots.
    apply elem_of_contents. exists q. split; [done|].
    specialize (Hlive q Hq). by destruct (I1 q ltac:(lia) Hk). }
  pose proof (detach_untouched ch r d1 Hch) as U2.
  assert (untouched r (detach ch d1) (empty inst (detach ch d1))) as U3.
  { apply empty_untouched; [rewrite detach_fresh; lia|].
    intros Hy. by apply Hroots1, (detach_contents_sub ch). }
  pose proof (append_untouched inst ch _ d3 r (or_introl Hin) Ha) as U4.
  pose proof (untouched_trans _ _ _ _ U1
                (untouched_trans _ _ _ _ U2 (untouched_trans _ _ _ _ U3 U4))) as U.
  destruct (U Hr) as (L & K & A & P & I & O).
  destruct (copyAttributes_keeps _ _ _ _ r Hc) as (C1 & C2 & _ & C3).
  split_and!; [congruence|congruence| |].
  - intros q Hq.
    destruct (copyAttributes_keeps _ _ _ _ q Hc) as (_ & _ & -> & _).
    split; [|by apply O]. intros Hk. by destruct (I q ltac:(lia) Hk).
  - intros Hne. rewrite C3 by done. done.
Qed.

End UntouchedRefresh.

(** ** Fragments of arbitrary values *)

Section Fragment.

Variable parseFragment : string -> list html.
Implicit Types (d : Dom) (n p q x r this : nid) (ns frag : list nid) (v : data).

Lemma NoDup_moveToEnd frag n : NoDup frag → NoDup (moveToEnd frag n).
Proof.
  intros Hnd. unfold moveToEnd. apply NoDup_app. split_and!.
  - by apply NoDup_filter.
  - intros x [Hne _]%list_elem_of_filter ->%list_elem_of_singleton. done.
  - apply NoDup_singleton.
Qed.

Lemma NoDup_moveToEnd_all ns frag : NoDup frag → NoDup (fold_left moveToEnd ns frag).
Proof.
  revert frag. induction ns as [|n ns IH]; intros frag Hnd; simpl; [done|].
  by apply IH, NoDup_moveToEnd.
Qed.

Lemma filter_nothing (R l : list nid) :
  (∀ c, c ∈ l → c ∉ R) → filter (λ c, c ∉ R) l = l.
Proof.
  induction l as [|c l IH]; intros Hl; [done|].
  rewrite filter_cons_True by (apply Hl; by left). f_equal. apply IH.
  intros c' Hc'. apply Hl. by right.
Qed.

Lemma extends_fragmentOf d0 held frag d d' (new : list nid) :
  fragmentOf d0 held (frag, false, d) →
  extends d d' → NoDup new → (∀ n, n ∈ new → fresh d ≤ n < fresh d') →
  fragmentOf d0 held (frag ++ new, false, d').
Proof.
  intros (_ & Hle & Hnd & Hold & Hel & Hheld & Hlook & Hpar & Hkids) [Hle' Hsame] Hnew Hrange.
  split_and!; try done.
  - lia.
  - apply NoDup_app. split_and!; [done| |done].
    intros n Hn Hn'. specialize (Hrange n Hn').
    destruct (Hel n Hn) as [Hh|?]; [|lia]. specialize (Hold n Hh). lia.
  - intros n [Hn|Hn]%elem_of_app.
    + destruct (Hel n Hn) as [?|?]; [by left|right; lia].
    + right. specialize (Hrange n Hn). lia.
  - intros n Hn. apply elem_of_app. left. by apply Hheld.
  - intros x Hx. unfold kindOf, attrsOf. rewrite Hsame by lia. apply Hlook. done.
  - intros x Hx Hout. unfold parentOf. rewrite Hsame by lia. by apply Hpar.
  - intros x Hx. destruct (Hkids x Hx) as (R & HR & Hk). exists R. split; [done|].
    unfold kidsOf in *. by rewrite Hsame by lia.
Qed.

Lemma detach_fragmentOf d0 held frag d ns :
  fragmentOf d0 held (frag, false, d) →
  (∀ n, n ∈ ns → n < fresh d0) →
  fragmentOf d0 (held ++ ns) (fold_left moveToEnd ns frag, false, detach ns d).
Proof.
  intros (_ & Hle & Hnd & Hold & Hel & Hheld & Hlook & Hpar & Hkids) Hns.
  split_and!; try done.
  - by rewrite detach_fresh.
  - by apply NoDup_moveToEnd_all.
  - intros n [?|?]%elem_of_app; [by apply Hold|by apply Hns].
  - intros n Hn. rewrite detach_fresh. apply elem_of_moveToEnd_all in Hn as [Hn|Hn].
    + destruct (Hel n Hn) as [?|?]; [left; apply elem_of_app; by left|by right].
    + left. apply elem_of_app. by right.
  - intros n Hn. apply elem_of_moveToEnd_all. apply elem_of_app in Hn as [?|?]; [left; by apply Hheld|by right].
  - intros x Hx. rewrite detach_kindOf, detach_attrsOf, detach_is_Some. by apply Hlook.
  - intros x Hx Hout. rewrite elem_of_app in Hout.
    rewrite detach_parentOf, decide_False by tauto. apply Hpar; [done|tauto].
  - intros x Hx. destruct (Hkids x Hx) as (R & HR & Hk).
    destruct (detach_kidsOf ns d x) as (R' & HR' & Hk').
    exists (R ++ R'). split.
    + intros c [?|?]%elem_of_app; apply elem_of_app; [left; by apply HR|right; by apply HR'].
    + rewrite Hk', Hk, list_filter_filter. apply list_filter_iff. intros c.
      rewrite elem_of_app. tauto.
Qed.

Lemma fragItems_fragmentOf (skip : list nid) (items : list item) d0 held acc :
  fragmentOf d0 held acc →
  (∀ n, n ∈ flat_map itemNodes items → n < fresh d0 ∧ n ∉ skip) →
  fragmentOf d0 (held ++ flat_map itemNodes items)
    (fold_left (fragItem parseFragment skip) items acc).
Proof.
  revert held acc. induction items as [|it items IH]; intros held [[frag ign] d] Hacc Hit.
  - simpl. by rewrite app_nil_r.
  - cbn [fold_left flat_map]. rewrite app_assoc. apply IH.
    2:{ intros n Hn. apply Hit. cbn [flat_map]. apply elem_of_app. by right. }
    assert (ign = false) as -> by (by destruct Hacc as (? & _)).
    assert (∀ n, n ∈ itemNodes it → n < fresh d0 ∧ n ∉ skip) as Hit'
      by (intros n Hn; apply Hit; cbn [flat_map]; apply elem_of_app; by left).
    destruct it as [s|k| |ns].
    + cbn [itemNodes]. rewrite app_nil_r.
      assert (fragItem parseFragment skip (frag, false, d) (IStr s)
              = if decide (s = EmptyString) then (frag, false, d)
                else (frag ++ (allocAll None (parseFragment s) d).1, false,
                      (allocAll None (parseFragment s) d).2)) as ->.
      { unfold fragItem. destruct (decide (s = EmptyString)); [done|].
        by destruct (allocAll None (parseFragment s) d). }
      destruct (decide (s = EmptyString)); [done|].
      destruct (allocAll_new None (parseFragment s) d) as (Hext & Hrange & Hnd).
      by apply (extends_fragmentOf d0 held frag d).
    + cbn [itemNodes]. rewrite app_nil_r.
      change (fragItem parseFragment skip (frag, false, d) (INum k))
        with (frag ++ [fresh d], false, (newNode (TextNode (showNat k)) [] None d).2).
      apply (extends_fragmentOf d0 held frag d _ [fresh d]); [done| | |].
      * apply (newNode_extends (TextNode (showNat k)) [] None d).
      * apply NoDup_singleton.
      * intros n ->%list_elem_of_singleton. simpl. lia.
    + cbn [itemNodes]. rewrite app_nil_r. exact Hacc.
    + change (fragItem parseFragment skip (frag, false, d) (IJq ns))
        with (fragNodes skip ns (frag, false, d)).
      rewrite fragNodes_spec by (intros n Hn; by apply Hit').
      apply detach_fragmentOf; [done|]. intros n Hn. by apply Hit'.
Qed.

Lemma buildFragment_fragmentOf (skip : list nid) v d :
  (∀ n, n ∈ valueNodes v → n < fresh d ∧ n ∉ skip) →
  fragmentOf d (valueNodes v) (buildFragment parseFragment skip v d).
Proof.
  intros Hv. apply (fragItems_fragmentOf skip (itemsOf v) d [] ([], false, d)); [|done].
  split_and!; try done.
  - constructor.
  - by intros n ?%elem_of_nil.
  - by intros n ?%elem_of_nil.
  - intros x _. exists []. split; [done|]. symmetry. apply filter_nothing.
    intros c _. apply not_elem_of_nil.
Qed.

End Fragment.

(** ** Parents in the parse *)

Section Parents.

Implicit Types (d : Dom) (n p q x r : nid) (o : option nid) (h : html) (hs : list html).

Lemma allocAll_parents_with (P : html → Prop) o hs d :
  (∀ h o d, P h →
     ∀ q, fresh d ≤ q < fresh (alloc o h d).2 →
       parentOf (alloc o h d).2 q = o
       ∨ ∃ y, fresh d ≤ y < fresh (alloc o h d).2 ∧ parentOf (alloc o h d).2 q = Some y) →
  Forall P hs →
  ∀ q, fresh d ≤ q < fresh (allocAll o hs d).2 →
    parentOf (allocAll o hs d).2 q = o
    ∨ ∃ y, fresh d ≤ y < fresh (allocAll o hs d).2 ∧ parentOf (allocAll o hs d).2 q = Some y.
Proof.
  intros HP Hall. revert d. induction Hall as [|h hs Hh _ IH]; intros d; simpl.
  - intros q Hq. lia.
  - specialize (HP h o d Hh).
    destruct (alloc_new h o d) as (Hroot & Hext & Hlt).
    destruct (alloc o h d) as [c d1]. simpl in *. subst c.
    specialize (IH d1).
    destruct (allocAll_new o hs d1) as ([Hle Hsame] & _ & _).
    destruct (allocAll o hs d1) as [cs d2]. simpl in *.
    intros q Hq. destruct (decide (q < fresh d1)) as [Hlt1|Hge].
    + unfold parentOf in *. rewrite Hsame by done.
      destruct (HP q ltac:(lia)) as [?|(y & Hy & ?)]; [by left|].
      right. exists y. split; [lia|done].
    + destruct (IH q ltac:(lia)) as [?|(y & Hy & ?)]; [by left|].
      right. exists y. split; [lia|done].
Qed.

Lemma alloc_parents h : ∀ o d q,
  fresh d ≤ q < fresh (alloc o h d).2 →
  parentOf (alloc o h d).2 q = o
  ∨ ∃ y, fresh d ≤ y < fresh (alloc o h d).2 ∧ parentOf (alloc o h d).2 q = Some y.
Proof.
  induction h as [s|t a ks IH] using html_induction; intros o d q.
  - simpl. intros Hq. assert (q = fresh d) as -> by lia. left.
    unfold parentOf, getNode. simpl. by rewrite lookup_insert_eq.
  - rewrite alloc_elem.
    pose proof (allocAll_parents_with
                  (λ h, ∀ o d q, fresh d ≤ q < fresh (alloc o h d).2 →
                     parentOf (alloc o h d).2 q = o
                     ∨ ∃ y, fresh d ≤ y < fresh (alloc o h d).2
                            ∧ parentOf (alloc o h d).2 q = Some y)
                  (Some (fresh d)) ks (newNode (Element t) a o d).2
                  ltac:(intros h' o' d' Hh'; apply Hh') IH) as Hkids.
    destruct (allocAll_new (Some (fresh d)) ks (newNode (Element t) a o d).2)
      as ([Hle Hsame] & _ & _).
    destruct (allocAll _ ks _) as [cs d1]. simpl in *.
    intros Hq. rewrite parentOf_alter_keep by done.
    destruct (decide (q = fresh d)) as [->|Hne].
    + left. unfold parentOf. rewrite Hsame by lia. unfold getNode. simpl.
      by rewrite lookup_insert_eq.
    + destruct (Hkids q ltac:(lia)) as [->|(y & Hy & ->)]; right.
      * exists (fresh d). split; [lia|done].
      * exists y. split; [lia|done].
Qed.

Lemma allocAll_parents o hs d q :
  fresh d ≤ q < fresh (allocAll o hs d).2 →
  parentOf (allocAll o hs d).2 q = o
  ∨ ∃ y, fresh d ≤ y < fresh (allocAll o hs d).2 ∧ parentOf (allocAll o hs d).2 q = Some y.
Proof.
  apply (allocAll_parents_with (λ _, True)); [intros; by apply alloc_parents|].
  by apply Forall_true.
Qed.

Lemma ancestors_closed (P : nid → Prop) fuel d p :
  P p → (∀ x y, P x → parentOf d x = Some y → P y) →
  ∀ a, a ∈ ancestors fuel d p → P a.
Proof.
  intros Hp Hstep. revert p Hp. induction fuel as [|k IH]; intros p Hp a; simpl.
  - by intros ->%list_elem_of_singleton.
  - intros [->|Ha]%elem_of_cons; [done|].
    destruct (parentOf d p) as [y|] eqn:Hy; [|by apply elem_of_nil in Ha].
    apply (IH y); [by eapply Hstep|done].
Qed.

End Parents.

(** ** Resolving the markers of a parse *)

Section Substitution.

Context {St : Type}.
Variable parseHTML : string -> list html.
Variable parseFragment : string -> list html.
Implicit Types (d : Dom) (n p q x r this m : nid) (ns frag : list nid) (v : data) (st : St).
Implicit Types (refs : gmap nat data) (args : list (value St)).

Lemma replaceWith_effect this v st d d' p :
  (∀ n, n ∈ valueNodes v → n < fresh d ∧ n ≠ this) →
  this < fresh d → p < fresh d →
  parentOf d this = Some p →
  replaceWith parseFragment this (VData v) st d = Some d' →
  ∃ frag,
    frag = (buildFragment parseFragment [this] v d).1.1 ∧
    fresh d ≤ fresh d' ∧ NoDup frag ∧
    (∀ n, n ∈ frag → n ∈ valueNodes v ∨ fresh d ≤ n < fresh d') ∧
    (∀ n, n ∈ valueNodes v → n ∈ frag) ∧
    (∀ x, x < fresh d →
          kindOf d' x = kindOf d x ∧ attrsOf d' x = attrsOf d x
          ∧ (is_Some (getNode d' x) ↔ is_Some (getNode d x))) ∧
    (∀ x, x < fresh d → x ∉ valueNodes v → x ≠ this → parentOf d' x = parentOf d x) ∧
    parentOf d' this = None ∧
    (∀ n, n ∈ frag → parentOf d' n = Some p ∨ parentOf d' n = None) ∧
    (∀ n, n ∈ valueNodes v → is_Some (getNode d n) → parentOf d' n = Some p) ∧
    (∀ x, x < fresh d → x ≠ p →
          ∃ R, R ⊆ valueNodes v ∧ kidsOf d' x = filter (λ c, c ∉ R) (kidsOf d x)) ∧
    (∃ R, R ⊆ valueNodes v ∧
          kidsOf d' p = spliceAt this frag (filter (λ c, c ∉ R) (kidsOf d p))).
Proof.
  intros Hv Hthis Hp Hpar Hrep.
  pose proof (buildFragment_fragmentOf parseFragment [this] v d) as Hf.
  unfold replaceWith in Hrep.
  destruct (buildFragment parseFragment [this] v d) as [[frag ign] d1].
  destruct Hf as (-> & Hle & Hnd & Hold & Hel & Hheld & Hlook & Hpars & Hkids).
  { intros n Hn. destruct (Hv n Hn). split; [done|]. by intros ->%list_elem_of_singleton. }
  assert (this ∉ valueNodes v) as Hthis' by (intros Hin; by destruct (Hv _ Hin)).
  rewrite (Hpars this Hthis Hthis'), Hpar in Hrep.
  destruct (hierarchyOk frag p d1); [|done]. injection Hrep as <-.
  assert (this ∉ frag) as Hnf.
  { intros Hin. destruct (Hel _ Hin) as [?|?]; [done|lia]. }
  assert (is_Some (getNode d1 this)) as Hex.
  { apply Hlook; [done|]. unfold parentOf in Hpar. destruct (getNode d this); [done|discriminate]. }
  assert (fresh (alterNode (withParent None) this
             (adopt p frag
                (alterNode (λ pn, withKids (spliceAt this frag (childNodes pn)) pn) p d1)))
          = fresh d1) as Hfr by (simpl; by rewrite adopt_fresh).
  exists frag. rewrite Hfr. split_and!; try done.
  - intros x Hx. destruct (Hlook x Hx) as (K & A & E).
    rewrite kindOf_alter_keep, adopt_kindOf, kindOf_alter_keep by done.
    rewrite attrsOf_alter_keep, adopt_attrsOf, attrsOf_alter_keep by done.
    rewrite is_Some_getNode_alter, adopt_is_Some, is_Some_getNode_alter. done.
  - intros x Hx Hout Hne. rewrite parentOf_alter_ne by done.
    rewrite adopt_parentOf_out.
    + rewrite parentOf_alter_keep by done. by apply Hpars.
    + intros Hin. destruct (Hel _ Hin) as [?|?]; [done|lia].
  - apply parentOf_alter_withParent. by rewrite adopt_is_Some, is_Some_getNode_alter.
  - intros n Hn. rewrite parentOf_alter_ne by (by intros ->).
    destruct (getNode d1 n) as [nd|] eqn:Hnode.
    + left. apply adopt_parentOf_in; [done|]. by rewrite is_Some_getNode_alter, Hnode.
    + right. unfold parentOf.
      set (dd := adopt p frag
                   (alterNode (λ pn, withKids (spliceAt this frag (childNodes pn)) pn) p d1)).
      assert (¬ is_Some (getNode dd n)) as Hno.
      { unfold dd. rewrite adopt_is_Some, is_Some_getNode_alter, Hnode. by intros [? ?]. }
      destruct (getNode dd n) as [nd|]; [|done]. exfalso. apply Hno. by eexists.
  - intros n Hn Hexn. rewrite parentOf_alter_ne by (by intros ->).
    apply adopt_parentOf_in; [by apply Hheld|].
    rewrite is_Some_getNode_alter. apply Hlook; [|done]. by destruct (Hv n Hn).
  - intros x Hx Hne. destruct (Hkids x Hx) as (R & HR & Hk). exists R. split; [done|].
    rewrite kidsOf_alter_keep, adopt_kidsOf by done. by rewrite kidsOf_alter_ne.
  - destruct (Hkids p Hp) as (R & HR & Hk). exists R. split; [done|].
    rewrite kidsOf_alter_keep, adopt_kidsOf by done. rewrite <- Hk.
    unfold kidsOf at 1. rewrite getNode_alterNode, decide_True by done.
    unfold kidsOf. by destruct (getNode d1 p).
Qed.

Lemma spliceAt_id this frag (l : list nid) : this ∉ l → spliceAt this frag l = l.
Proof.
  unfold spliceAt. induction l as [|c l IH]; intros Hl; [done|].
  apply not_elem_of_cons in Hl as [Hne Hl]. simpl.
  rewrite decide_False by done. simpl. f_equal. by apply IH.
Qed.

Lemma spliceAt_app this frag (l1 l2 : list nid) :
  spliceAt this frag (l1 ++ l2) = spliceAt this frag l1 ++ spliceAt this frag l2.
Proof. unfold spliceAt. apply flat_map_app. Qed.

(** Replacing a marker in a child list in which markers already stand for
    what replaced them. *)
Lemma spliceAt_resolved m frag (g g' : nid → list nid) (l : list nid) :
  g m = [m] → g' m = frag →
  (∀ c, c ∈ l → c ≠ m → g' c = g c ∧ m ∉ g c) →
  spliceAt m frag (flat_map g l) = flat_map g' l.
Proof.
  intros Hm Hm' Hl. induction l as [|c l IH]; [done|].
  simpl. rewrite spliceAt_app. rewrite IH by (intros c' Hc'; apply Hl; by right).
  f_equal. destruct (decide (c = m)) as [->|Hne].
  - rewrite Hm, Hm'. unfold spliceAt. simpl. by rewrite decide_True, app_nil_r.
  - destruct (Hl c ltac:(by left) Hne) as [-> Hout]. by apply spliceAt_id.
Qed.

Lemma flat_map_ext_in {A B : Type} (g g' : A → list B) (l : list A) :
  (∀ c, c ∈ l → g c = g' c) → flat_map g l = flat_map g' l.
Proof.
  induction l as [|c l IH]; intros H; [done|]. simpl.
  rewrite (H c) by by left. f_equal. apply IH. intros c' Hc'. apply H. by right.
Qed.


Lemma jq_parents html d q y :
  fresh d ≤ q < fresh (jq parseHTML html d).2 →
  parentOf (jq parseHTML html d).2 q = Some y →
  fresh d ≤ y < fresh (jq parseHTML html d).2.
Proof.
  unfold jq. intros Hq Hp.
  destruct (allocAll_parents None (parseHTML html) d q Hq) as [?|(y' & Hy' & ?)]; [congruence|].
  assert (y' = y) as -> by congruence. done.
Qed.

Lemma replaceWith_completes this v st d p :
  (∀ n, n ∈ valueNodes v → n < fresh d ∧ n ≠ this) →
  this < fresh d →
  parentOf d this = Some p →
  (∀ a, a ∈ ancestors (size (heap (buildFragment parseFragment [this] v d).2))
               (buildFragment parseFragment [this] v d).2 p →
        a ∉ (buildFragment parseFragment [this] v d).1.1) →
  is_Some (replaceWith parseFragment this (VData v) st d).
Proof.
  intros Hv Hthis Hpar Hanc.
  pose proof (buildFragment_fragmentOf parseFragment [this] v d) as Hf.
  unfold replaceWith.
  destruct (buildFragment parseFragment [this] v d) as [[frag ign] d1]. simpl in Hanc.
  destruct Hf as (-> & Hle & Hnd & Hold & Hel & Hheld & Hlook & Hpars & Hkids).
  { intros n Hn. destruct (Hv n Hn). split; [done|]. by intros ->%list_elem_of_singleton. }
  assert (this ∉ valueNodes v) as Hthis' by (intros Hin; by destruct (Hv _ Hin)).
  rewrite (Hpars this Hthis Hthis'), Hpar.
  assert (hierarchyOk frag p d1 = true) as ->; [|by eexists].
  unfold hierarchyOk. apply forallb_forall. intros a Ha.
  apply bool_decide_eq_true. apply Hanc. by apply list_elem_of_In.
Qed.


Section Resolving.

Variables (lo : nid) (d2 : Dom) (refs : gmap nat data) (args : list (value St)) (st : St).
Variables (val : nid → data) (slots : list nid).

Hypothesis parsed : forest lo d2.
Hypothesis lo_le : lo ≤ fresh d2.
Hypothesis parents_parsed :
  ∀ q y, lo ≤ q < fresh d2 → parentOf d2 q = Some y → lo ≤ y < fresh d2.
Hypothesis slots_placed :
  ∀ m, m ∈ slots →
    lo ≤ m < fresh d2 ∧ ∃ q, lo ≤ q < fresh d2 ∧ m ∈ kidsOf d2 q ∧ parentOf d2 m = Some q.
Hypothesis slots_valued :
  ∀ m, m ∈ slots →
    ∃ i, slotIndex d2 m = Some i ∧
         getReferenceValue refs (argAt args (Some i)) (Some i) = VData (val m).
Hypothesis values_old : ∀ m n, m ∈ slots → n ∈ valueNodes (val m) → n < lo.
Hypothesis values_apart :
  ∀ m m' n, m ∈ slots → m' ∈ slots → m ≠ m' →
    n ∈ valueNodes (val m) → n ∉ valueNodes (val m').

Lemma resolve_step (done : list nid) fr m dA dB :
  slotsResolved lo d2 val fr done dA →
  (∀ m', m' ∈ done → m' ∈ slots) → m ∈ slots → m ∉ done →
  resolveSlot parseFragment refs args st m dA = Some dB →
  slotsResolved lo d2 val
    (λ c, if decide (c = m) then (buildFragment parseFragment [m] (val m) dA).1.1 else fr c)
    (done ++ [m]) dB.
Proof.
  intros (R1 & R2 & R3 & R4 & R5 & R6) Hdone Hm Hnew Hres.
  destruct (slots_placed m Hm) as (Hmr & q0 & Hq0 & Hmk & Hmp).
  destruct (slots_valued m Hm) as (i & Hi & Hget).
  set (v := val m) in *. set (VN := valueNodes v) in *.
  assert (∀ n, n ∈ VN → n < lo) as Hold by (intros n Hn; by eapply values_old).
  assert (slotIndex dA m = Some i) as Hi'.
  { unfold slotIndex in *. destruct (R2 m ltac:(lia)) as (_ & -> & _). done. }
  unfold resolveSlot in Hres. rewrite Hi', Hget in Hres.
  assert (parentOf dA m = Some q0) as Hpar by (rewrite R4 by (done || lia); done).
  destruct (replaceWith_effect m v st dA dB q0) as
    (frag & Hfrag & E1 & E2 & E3 & E4 & E5 & E6 & E7 & E8 & E9 & E10 & E11);
    [|lia|lia|done|done|].
  { intros n Hn. specialize (Hold n Hn). split; lia. }
  rewrite <- Hfrag.
  assert (∀ m' n, m' ∈ done → n ∈ fr m' → n < fresh dA ∧ (n ∉ VN) ∧ n ≠ m) as Hfr.
  { intros m' n Hm' Hn. destruct (R5 m' Hm') as (_ & _ & _ & Hel & _).
    assert (m' ≠ m) as Hne by (intros ->; done).
    destruct (Hel n Hn) as [Hv|Hr].
    - pose proof (values_old m' n (Hdone _ Hm') Hv). split_and!; [lia| |lia].
      by apply (values_apart m' m n (Hdone _ Hm') Hm Hne).
    - split_and!; [lia| |lia]. intros Hin. specialize (Hold n Hin). lia. }
  assert (∀ q c, lo ≤ q < fresh d2 → c ∈ kidsOf dA q → c ∉ VN) as Hkeep.
  { intros q c Hq Hc. rewrite (R3 q Hq) in Hc.
    apply list_elem_of_In, in_flat_map in Hc as (c0 & Hc0 & Hc).
    apply list_elem_of_In in Hc0, Hc. unfold resolved in Hc.
    destruct (decide (c0 ∈ done)) as [Hd|Hd].
    - by destruct (Hfr c0 c Hd Hc) as (_ & ? & _).
    - apply list_elem_of_singleton in Hc as ->.
      destruct (parsed q Hq) as (_ & _ & Hk). destruct (Hk c0 Hc0) as [? _].
      intros Hin. specialize (Hold _ Hin). lia. }
  assert (∀ c, c ≠ m → (c ∈ done ++ [m] ↔ c ∈ done)) as Hmem.
  { intros c Hne. rewrite elem_of_app, list_elem_of_singleton. tauto. }
  split_and!.
  - lia.
  - intros x Hx. destruct (R2 x Hx) as (K & A & X). destruct (E5 x ltac:(lia)) as (K' & A' & X').
    split_and!; [congruence|congruence|tauto].
  - intros q Hq. destruct (decide (q = q0)) as [->|Hne].
    + destruct E11 as (R & HR & ->).
      rewrite filter_nothing by (intros c Hc Hin; by apply (Hkeep q0 c Hq), HR).
      rewrite (R3 q0 Hq). apply spliceAt_resolved.
      * unfold resolved. by rewrite decide_False.
      * unfold resolved. rewrite decide_True, decide_True; [done|done|].
        apply elem_of_app. right. by left.
      * intros c Hc Hcm. unfold resolved. split.
        -- destruct (decide (c ∈ done)) as [Hd|Hd].
           ++ rewrite decide_True by by apply Hmem. by rewrite decide_False.
           ++ by rewrite decide_False by by rewrite Hmem.
        -- destruct (decide (c ∈ done)) as [Hd|Hd].
           ++ intros Hin. by destruct (Hfr c m Hd Hin) as (_ & _ & ?).
           ++ by intros ->%list_elem_of_singleton.
    + destruct (E10 q ltac:(lia) Hne) as (R & HR & ->).
      rewrite filter_nothing by (intros c Hc Hin; by apply (Hkeep q c Hq), HR).
      rewrite (R3 q Hq). apply flat_map_ext_in. intros c Hc.
      assert (c ≠ m) as Hcm.
      { intros ->. destruct (parsed q Hq) as (_ & _ & Hk). destruct (Hk m Hc) as [_ Hp].
        congruence. }
      unfold resolved. destruct (decide (c ∈ done)) as [Hd|Hd].
      * rewrite decide_True by by apply Hmem. by rewrite decide_False.
      * by rewrite decide_False by by rewrite Hmem.
  - intros x Hx Hout. rewrite elem_of_app, list_elem_of_singleton in Hout.
    rewrite E6; [apply R4; [done|tauto]|lia| |tauto].
    intros Hin. specialize (Hold _ Hin). lia.
  - intros m' [Hm'|Hm']%elem_of_app; [|apply list_elem_of_singleton in Hm' as ->].
    + assert (m' ≠ m) as Hne by (intros ->; done). rewrite decide_False by done.
      destruct (R5 m' Hm') as (P0 & P1 & P2 & P3 & P4 & P5 & P6).
      destruct (slots_placed m' (Hdone _ Hm')) as (Hm'r & _).
      split_and!; try done.
      * rewrite E6; [done|lia| |done]. intros Hin. specialize (Hold _ Hin). lia.
      * intros n Hn. destruct (P3 n Hn) as [?|?]; [by left|right; lia].
      * intros n Hn. destruct (Hfr m' n Hm' Hn) as (? & ? & ?).
        rewrite E6 by done. by apply P4.
      * intros n Hn Hex. destruct (Hfr m' n Hm' (P2 n Hn)) as (? & ? & ?).
        rewrite E6 by done. by apply P5.
    + rewrite decide_True by done. split_and!; try done.
      * intros n Hn. destruct (E3 n Hn) as [?|?]; [by left|right; lia].
      * intros n Hn. rewrite Hmp. by apply E8.
      * intros n Hn Hex. rewrite Hmp. apply E9; [done|].
        apply R2; [|done]. specialize (Hold n Hn). lia.
      * intros Hnodes. rewrite Hfrag.
        rewrite (buildFragment_nodes parseFragment [m] v dA Hnodes); [done|].
        intros n Hn ->%list_elem_of_singleton. specialize (Hold _ Hn). lia.
  - assert (∀ m' n, m' ∈ done → n ∈ frag → n ∈ fr m' → False) as Hcross.
    { intros m' n Hm' Hn Hn'. destruct (Hfr m' n Hm' Hn') as (Hlt & Hout & _).
      destruct (E3 n Hn) as [?|?]; [done|lia]. }
    intros m1 m2 n H1 H2 Hne Hn Hn'.
    destruct (decide (m1 = m)) as [->|N1]; destruct (decide (m2 = m)) as [->|N2].
    + done.
    + apply (Hcross m2 n); [by apply Hmem|done|done].
    + apply (Hcross m1 n); [by apply Hmem|done|done].
    + apply (R6 m1 m2 n); [by apply Hmem|by apply Hmem|done|done|done].
Qed.

Lemma resolve_completes (done : list nid) fr m dA :
  slotsResolved lo d2 val fr done dA →
  (∀ m', m' ∈ done → m' ∈ slots) → m ∈ slots → m ∉ done →
  is_Some (resolveSlot parseFragment refs args st m dA).
Proof.
  intros (R1 & R2 & R3 & R4 & R5 & R6) Hdone Hm Hnew.
  destruct (slots_placed m Hm) as (Hmr & q0 & Hq0 & Hmk & Hmp).
  destruct (slots_valued m Hm) as (i & Hi & Hget).
  set (v := val m) in *.
  assert (∀ n, n ∈ valueNodes v → n < lo) as Hold by (intros n Hn; by eapply values_old).
  assert (slotIndex dA m = Some i) as Hi'.
  { unfold slotIndex in *. destruct (R2 m ltac:(lia)) as (_ & -> & _). done. }
  unfold resolveSlot. rewrite Hi', Hget.
  assert (parentOf dA m = Some q0) as Hpar by (rewrite R4 by (done || lia); done).
  assert (∀ n, n ∈ valueNodes v → n < fresh dA ∧ n ≠ m) as Hv.
  { intros n Hn. specialize (Hold n Hn). split; lia. }
  apply (replaceWith_completes m v st dA q0 Hv ltac:(lia) Hpar).
  pose proof (buildFragment_fragmentOf parseFragment [m] v dA) as Hf.
  destruct (buildFragment parseFragment [m] v dA) as [[frag ign] d1]. simpl.
  destruct Hf as (_ & Hle & _ & _ & Hel & _ & _ & Hpars & _).
  { intros n Hn. destruct (Hv n Hn). split; [done|]. by intros ->%list_elem_of_singleton. }
  intros a Ha.
  assert (lo ≤ a < fresh d2) as Hrange.
  { revert a Ha. apply ancestors_closed; [done|].
    intros x y Hx Hy. rewrite Hpars in Hy.
    - destruct (decide (x ∈ done)) as [Hd|Hd].
      + destruct (R5 x Hd) as (Hnone & _). congruence.
      + rewrite R4 in Hy by done. by eapply parents_parsed.
    - lia.
    - intros Hin. specialize (Hold _ Hin). lia. }
  intros Hin. destruct (Hel a Hin) as [Hv'|?]; [|lia]. specialize (Hold _ Hv'). lia.
Qed.

Lemma each_resolves (todo done : list nid) fr dA :
  slotsResolved lo d2 val fr done dA →
  (∀ m, m ∈ done ++ todo → m ∈ slots) →
  NoDup (done ++ todo) →
  ∃ d3 fr',
    each (resolveSlot parseFragment refs args st) todo dA = Some d3 ∧
    slotsResolved lo d2 val fr' (done ++ todo) d3.
Proof.
  revert done fr dA. induction todo as [|m todo IH]; intros done fr dA Hinv Hin Hnd.
  - exists dA, fr. by rewrite app_nil_r.
  - assert (m ∉ done) as Hnew.
    { apply NoDup_app in Hnd as (_ & Hd & _). intros Hm. apply (Hd m Hm). by left. }
    assert (∀ m', m' ∈ done → m' ∈ slots) as Hdone
      by (intros m' Hm'; apply Hin, elem_of_app; by left).
    assert (m ∈ slots) as Hm by (apply Hin, elem_of_app; right; by left).
    destruct (resolve_completes done fr m dA Hinv Hdone Hm Hnew) as [dB Hres].
    pose proof (resolve_step done fr m dA dB Hinv Hdone Hm Hnew Hres) as Hstep.
    simpl. rewrite Hres. simpl.
    replace (done ++ m :: todo) with ((done ++ [m]) ++ todo) in * by by rewrite <- app_assoc.
    by eapply IH.
Qed.

(** The parse itself, before any marker is resolved. *)
Lemma slotsResolved_start fr : slotsResolved lo d2 val fr [] d2.
Proof.
  split_and!; try done.
  - intros q Hq. induction (kidsOf d2 q) as [|c l IHl]; [done|].
    cbn [flat_map]. rewrite <- IHl. unfold resolved.
    by rewrite decide_False by apply not_elem_of_nil.
  - by intros m ?%elem_of_nil.
  - by intros m m' n ?%elem_of_nil.
Qed.

End Resolving.

End Substitution.

(** ** The build as a substitution *)

Section BuildResolves.

Context {St : Type}.
Variable parseHTML : string -> list html.
Variable parseFragment : string -> list html.
Implicit Types (d : Dom) (n p q x r this m : nid) (ns frag : list nid) (v w : data) (st : St).
Implicit Types (refs : gmap nat data) (args : list (value St)) (strs : list string) (i : nat).

(** A build whose markers all resolve to values that hold nodes of their
    own, older than the parse: it completes, and its result is the parse
    with every marker below a root resolved. *)
Lemma buildComponent_resolves strs args refs0 st d html refs d1 u d2 (val : nid → data) :
  assemble strs 0 args st (stringAt strs 0, refs0, d) = (html, refs, d1) →
  jq parseHTML html d1 = (u, d2) →
  (∀ m, m ∈ findSlots u d2 →
     ∃ j, slotIndex d2 m = Some j ∧
          getReferenceValue refs (argAt args (Some j)) (Some j) = VData (val m)) →
  (∀ m n, m ∈ findSlots u d2 → n ∈ valueNodes (val m) → n < fresh d1) →
  (∀ m m' n, m ∈ findSlots u d2 → m' ∈ findSlots u d2 → m ≠ m' →
     n ∈ valueNodes (val m) → n ∉ valueNodes (val m')) →
  extends d1 d2 ∧ forest (fresh d1) d2 ∧ NoDup u ∧
  (∀ r, r ∈ u → fresh d1 ≤ r < fresh d2 ∧ parentOf d2 r = None ∧ r ∉ findSlots u d2) ∧
  NoDup (findSlots u d2) ∧
  (∀ m, m ∈ findSlots u d2 →
     fresh d1 ≤ m < fresh d2 ∧
     ∃ q, fresh d1 ≤ q < fresh d2 ∧ m ∈ kidsOf d2 q ∧ parentOf d2 m = Some q) ∧
  ∃ d3 fr,
    buildComponent parseHTML parseFragment strs args refs0 st d = Some (u, ∅, d3) ∧
    slotsResolved (fresh d1) d2 val fr (findSlots u d2) d3.
Proof.
  intros Hasm Hjq Hval Hold Hapart.
  destruct (jq_forest parseHTML html d1) as ([Hext _] & Hf & Hnd & Hroots).
  pose proof (jq_parents parseHTML html d1) as Hparents.
  rewrite Hjq in Hext, Hf, Hnd, Hroots, Hparents. simpl in *.
  destruct (findSlots_forest (fresh d1) d2 u Hf Hnd Hroots) as [Hsnd Hslots].
  assert (∀ m, m ∈ findSlots u d2 →
            fresh d1 ≤ m < fresh d2 ∧
            ∃ q, fresh d1 ≤ q < fresh d2 ∧ m ∈ kidsOf d2 q ∧ parentOf d2 m = Some q) as Hplaced.
  { intros m Hm. by destruct (Hslots m Hm) as (_ & ? & _ & ?). }
  split_and!; try done.
  - intros r Hr. destruct (Hroots r Hr) as [? ?]. split_and!; [lia|lia|done|].
    intros Hin. by destruct (Hslots r Hin) as (_ & _ & ? & _).
  - destruct (each_resolves parseFragment (fresh d1) d2 refs args st val (findSlots u d2)
                Hf ltac:(destruct Hext; lia) Hparents Hplaced Hval
                (λ m n Hm Hn, Hold m n Hm Hn) Hapart
                (findSlots u d2) [] (λ _, []) d2
                (slotsResolved_start (fresh d1) d2 val (λ _, [])) (λ m Hm, Hm) Hsnd)
      as (d3 & fr & He & Hres).
    exists d3, fr. split; [|done].
    unfold buildComponent. rewrite Hasm, Hjq. by rewrite He.
Qed.

Lemma flat_map_resolved_middle (fr : nid → list nid) (ms pre post : list nid) m :
  m ∈ ms → (∀ c, c ∈ pre ++ post → c ∉ ms) →
  flat_map (resolved fr ms) (pre ++ m :: post) = pre ++ fr m ++ post.
Proof.
  intros Hm Hout.
  assert (∀ l : list nid, (∀ c, c ∈ l → c ∉ ms) → flat_map (resolved fr ms) l = l) as Hid.
  { induction l as [|c l IH]; intros Hl; [done|]. cbn [flat_map]. unfold resolved at 1.
    rewrite decide_False by (apply Hl; by left). simpl. f_equal. apply IH.
    intros c' Hc'. apply Hl. by right. }
  rewrite flat_map_app. cbn [flat_map]. unfold resolved at 2. rewrite decide_True by done.
  rewrite !Hid; [done| |]; intros c Hc; apply Hout, elem_of_app; [by right|by left].
Qed.

(** What the resolved parse holds at the markers of index [i], when the
    value looked up for [i] is [v]. *)
Lemma resolved_at_index strs args refs0 st d html refs d1 u d2 (val : nid → data) i v :
  assemble strs 0 args st (stringAt strs 0, refs0, d) = (html, refs, d1) →
  jq parseHTML html d1 = (u, d2) →
  (∀ m, m ∈ findSlots u d2 →
     ∃ j, slotIndex d2 m = Some j ∧
          getReferenceValue refs (argAt args (Some j)) (Some j) = VData (val m)) →
  (∀ m n, m ∈ findSlots u d2 → n ∈ valueNodes (val m) → n < fresh d1) →
  (∀ m m' n, m ∈ findSlots u d2 → m' ∈ findSlots u d2 → m ≠ m' →
     n ∈ valueNodes (val m) → n ∉ valueNodes (val m')) →
  getReferenceValue refs (argAt args (Some i)) (Some i) = VData v →
  (∀ r, r ∈ u → r ∉ findSlots u d2) ∧
  ∃ d3 fr,
    buildComponent parseHTML parseFragment strs args refs0 st d = Some (u, ∅, d3) ∧
    slotsResolved (fresh d1) d2 val fr (findSlots u d2) d3 ∧
    ∀ m, m ∈ findSlots u d2 → slotIndex d2 m = Some i →
      val m = v ∧
      (∃ p, parentOf d2 m = Some p ∧ m ∈ kidsOf d2 p ∧
            kidsOf d3 p = flat_map (resolved fr (findSlots u d2)) (kidsOf d2 p) ∧
            ∀ pre post, kidsOf d2 p = pre ++ m :: post →
              (∀ c, c ∈ pre ++ post → c ∉ findSlots u d2) →
              kidsOf d3 p = pre ++ fr m ++ post) ∧
      (onlyNodes v → NoDup (valueNodes v) → fr m = valueNodes v) ∧
      (∀ n, n ∈ valueNodes v →
            n ∈ fr m ∧
            (is_Some (getNode d1 n) →
             parentOf d3 n = parentOf d2 m ∧ kindOf d3 n = kindOf d1 n
             ∧ attrsOf d3 n = attrsOf d1 n)).
Proof.
  intros Hasm Hjq Hval Hold Hapart Hget.
  destruct (buildComponent_resolves strs args refs0 st d html refs d1 u d2 val
              Hasm Hjq Hval Hold Hapart)
    as ([Hle Hsame] & Hf & Hnd & Hroots & Hsnd & Hplaced & d3 & fr & Hb & Hres).
  split; [intros r Hr; by destruct (Hroots r Hr) as (_ & _ & ?)|].
  exists d3, fr. split; [done|]. split; [done|].
  destruct Hres as (R1 & R2 & R3 & R4 & R5 & R6).
  intros m Hm Hi.
  assert (val m = v) as Hv.
  { destruct (Hval m Hm) as (j & Hj & Hgj). rewrite Hi in Hj. injection Hj as <-.
    congruence. }
  destruct (Hplaced m Hm) as (Hmr & p & Hp & Hmk & Hmp).
  destruct (R5 m Hm) as (_ & P1 & P2 & P3 & P4 & P5 & P6). rewrite Hv in *.
  split_and!; [done| | |].
  - exists p. split_and!; [done|done|by apply R3|].
    intros pre post Hk Hout. rewrite (R3 p Hp), Hk. by apply flat_map_resolved_middle.
  - intros Hnodes Hnd'. rewrite (P6 Hnodes). by apply (moveToEnd_all_new (valueNodes v) []).
  - intros n Hn. split; [by apply P2|]. intros Hex.
    assert (n < fresh d1) as Hlt by (eapply (Hold m); [done|by rewrite Hv]).
    assert (getNode d2 n = getNode d1 n) as Hn2 by by apply Hsame.
    destruct (R2 n ltac:(lia)) as (K & A & _).
    split_and!.
    + apply P5; [done|by rewrite Hn2].
    + rewrite K. unfold kindOf. by rewrite Hn2.
    + rewrite A. unfold attrsOf. by rewrite Hn2.
Qed.

End BuildResolves.

(** ** Values and callback results in the built structure *)

Section Claims.

Context {St : Type}.
Variable parseHTML : string -> list html.
Variable parseFragment : string -> list html.
Implicit Types (d : Dom) (n p q x r this m : nid) (ns frag : list nid) (v w : data) (st : St).
Implicit Types (refs : gmap nat data) (args : list (value St)) (strs : list string) (i : nat).

(** The markup of a pass, as fragments woven with pieces. *)
Lemma assemble_pieces strs args refs0 st d html refs d1 :
  assemble strs 0 args st (stringAt strs 0, refs0, d) = (html, refs, d1) →
  html = stringAt strs 0 +:+ weave strs 0 (pieces 0 args st refs0 d) ∧
  length (pieces 0 args st refs0 d) = length args.
Proof.
  intros Hasm. split; [|apply pieces_length].
  pose proof (assemble_weave strs args st 0 (stringAt strs 0) refs0 d) as Hw.
  by rewrite Hasm in Hw.
Qed.

(** C1 as amended: for a value at index [i] that is a jQuery object or an
    array, the assembly pass splices the marker carrying [i] as piece [i]
    of the markup and does not write the table at [i].  Take a template
    whose assembled text [$] reads as markup and in whose parse every
    marker found below the roots carries a number and resolves to a value
    that is not a function, the values holding nodes that existed before
    the parse, no node held by the values of two markers.  Then a root of
    the parse is never among the markers found; the build completes and
    returns the parsed roots; the child list of every parsed node is its
    parsed child list with each marker replaced by what stands for it;
    and for a marker of index [i] the value resolved is the value of the
    values array itself: its nodes stand for the marker (they are all that
    stands for it when the value is made of distinct nodes), between the
    static siblings of the marker, under the parent of the marker, with the
    kind and the attributes they had. *)
Theorem node_value_resolved_by_identity
    strs args refs0 st d i v html refs d1 u d2 (val : nid → data) :
  args !! i = Some (VData v) →
  nodeLike v →
  refs0 !! i = None →
  assemble strs 0 args st (stringAt strs 0, refs0, d) = (html, refs, d1) →
  isMarkup html = true →
  jq parseHTML html d1 = (u, d2) →
  (∀ m, m ∈ findSlots u d2 →
     ∃ j, slotIndex d2 m = Some j ∧
          getReferenceValue refs (argAt args (Some j)) (Some j) = VData (val m)) →
  (∀ m n, m ∈ findSlots u d2 → n ∈ valueNodes (val m) → n < fresh d1) →
  (∀ m m' n, m ∈ findSlots u d2 → m' ∈ findSlots u d2 → m ≠ m' →
     n ∈ valueNodes (val m) → n ∉ valueNodes (val m')) →
  (∃ ps, html = stringAt strs 0 +:+ weave strs 0 ps ∧ length ps = length args
         ∧ ps !! i = Some (marker i)) ∧
  refs !! i = None ∧
  (∀ r, r ∈ u → r ∉ findSlots u d2) ∧
  ∃ d3 fr,
    buildComponent parseHTML parseFragment strs args refs0 st d = Some (u, ∅, d3) ∧
    slotsResolved (fresh d1) d2 val fr (findSlots u d2) d3 ∧
    ∀ m, m ∈ findSlots u d2 → slotIndex d2 m = Some i →
      val m = v ∧
      (∃ p, parentOf d2 m = Some p ∧ m ∈ kidsOf d2 p ∧
            kidsOf d3 p = flat_map (resolved fr (findSlots u d2)) (kidsOf d2 p) ∧
            ∀ pre post, kidsOf d2 p = pre ++ m :: post →
              (∀ c, c ∈ pre ++ post → c ∉ findSlots u d2) →
              kidsOf d3 p = pre ++ fr m ++ post) ∧
      (onlyNodes v → NoDup (valueNodes v) → fr m = valueNodes v) ∧
      (∀ n, n ∈ valueNodes v →
            n ∈ fr m ∧
            (is_Some (getNode d1 n) →
             parentOf d3 n = parentOf d2 m ∧ kindOf d3 n = kindOf d1 n
             ∧ attrsOf d3 n = attrsOf d1 n)).
Proof.
  intros Hi Hv Hrefs0 Hasm _ Hjq Hval Hold Hapart.
  destruct (assemble strs 0 (take i args) st (stringAt strs 0, refs0, d))
    as [[prev refs_i] d_i] eqn:Hpre.
  assert (createReference refs_i (VData v) i st d_i = (marker i, refs_i, d_i)) as Hstep.
  { destruct v as [[]|]; simpl in Hv; done. }
  destruct (assemble_after_step strs args st _ i _ _ _ _ _ _ _ Hi Hpre Hstep)
    as (rest & refs' & d1' & Hall & Hrefs).
  rewrite Hasm in Hall. injection Hall as -> <- <-.
  assert (refs_i !! i = None) as Hnone.
  { pose proof (assemble_refs_beyond strs (take i args) st 0
                  (stringAt strs 0, refs0, d) i) as Hb.
    rewrite Hpre in Hb. simpl in Hb. rewrite Hb; [done|].
    rewrite length_take. lia. }
  rewrite Hnone in Hrefs.
  destruct (assemble_pieces strs args refs0 st d _ _ _ Hasm) as [Hw Hlen].
  assert (getReferenceValue refs (argAt args (Some i)) (Some i) = VData v) as Hget.
  { unfold getReferenceValue, argAt. simpl. by rewrite Hrefs, Hi. }
  destruct (resolved_at_index parseHTML parseFragment strs args refs0 st d _ refs d1 u d2
              val i v Hasm Hjq Hval Hold Hapart Hget) as [Hroots Hbuild].
  split_and!; [|done|done|done].
  exists (pieces 0 args st refs0 d). split_and!; [done|done|].
  rewrite (pieces_lookup strs args st 0 _ _ _ i _ _ _ _ Hi Hpre).
  change (0 + i) with i. by rewrite Hstep.
Qed.

(** C6 as amended: when the value at index [i] is a callback whose call
    returns something that is not a string, the assembly step records the
    result in the table under [i] and splices the marker carrying [i]; the
    entry is there when the pass ends, while the values array holds the
    function.  Take a template whose assembled text [$] reads as markup and
    in whose parse every marker found below the roots carries a number and
    resolves to a value that is not a function, the values holding nodes
    that existed before the parse, no node held by the values of two
    markers.  Then a root of the parse is never among the markers found;
    the build completes, with the table cleared in its result; and every
    marker of index [i] found below the roots is replaced with the table
    entry, the result of the call: its nodes stand for the marker, between
    the static siblings of the marker, under the parent of the marker. *)
Theorem callback_result_recorded_and_preferred
    strs args refs0 st d i f prev refs_i d_i w d_i' html refs d1 u d2 (val : nid → data) :
  args !! i = Some (VFun f) →
  assemble strs 0 (take i args) st (stringAt strs 0, refs0, d) = (prev, refs_i, d_i) →
  f st d_i = (w, d_i') →
  isString w = None →
  assemble strs 0 args st (stringAt strs 0, refs0, d) = (html, refs, d1) →
  isMarkup html = true →
  jq parseHTML html d1 = (u, d2) →
  (∀ m, m ∈ findSlots u d2 →
     ∃ j, slotIndex d2 m = Some j ∧
          getReferenceValue refs (argAt args (Some j)) (Some j) = VData (val m)) →
  (∀ m n, m ∈ findSlots u d2 → n ∈ valueNodes (val m) → n < fresh d1) →
  (∀ m m' n, m ∈ findSlots u d2 → m' ∈ findSlots u d2 → m ≠ m' →
     n ∈ valueNodes (val m) → n ∉ valueNodes (val m')) →
  createReference refs_i (VFun f) i st d_i = (marker i, <[i := w]> refs_i, d_i') ∧
  (∃ rest, html = prev +:+ marker i +:+ rest) ∧
  refs !! i = Some w ∧
  argAt args (Some i) = VFun f ∧
  (∀ r, r ∈ u → r ∉ findSlots u d2) ∧
  ∃ d3 fr,
    buildComponent parseHTML parseFragment strs args refs0 st d = Some (u, ∅, d3) ∧
    slotsResolved (fresh d1) d2 val fr (findSlots u d2) d3 ∧
    ∀ m, m ∈ findSlots u d2 → slotIndex d2 m = Some i →
      val m = w ∧
      (∃ p, parentOf d2 m = Some p ∧ m ∈ kidsOf d2 p ∧
            kidsOf d3 p = flat_map (resolved fr (findSlots u d2)) (kidsOf d2 p) ∧
            ∀ pre post, kidsOf d2 p = pre ++ m :: post →
              (∀ c, c ∈ pre ++ post → c ∉ findSlots u d2) →
              kidsOf d3 p = pre ++ fr m ++ post) ∧
      (onlyNodes w → NoDup (valueNodes w) → fr m = valueNodes w) ∧
      (∀ n, n ∈ valueNodes w →
            n ∈ fr m ∧
            (is_Some (getNode d1 n) →
             parentOf d3 n = parentOf d2 m ∧ kindOf d3 n = kindOf d1 n
             ∧ attrsOf d3 n = attrsOf d1 n)).
Proof.
  intros Hi Hpre Hf Hns Hasm _ Hjq Hval Hold Hapart.
  destruct (callback_result_recorded parseFragment strs args refs0 st d i f prev refs_i d_i
              w d_i' Hi Hpre Hf Hns)
    as (Hstep & rest & refs' & d1' & Hall & Hrefs & Harg & Hget & _).
  rewrite Hasm in Hall. injection Hall as -> <- <-.
  destruct (resolved_at_index parseHTML parseFragment strs args refs0 st d _ refs d1 u d2
              val i w Hasm Hjq Hval Hold Hapart Hget) as [Hroots Hbuild].
  split_and!; try done. by exists rest.
Qed.

End Claims.

(** ** [refresh] and the resolved parse *)

Section RefreshResolved.

Context {St : Type}.
Variable parseHTML : string -> list html.
Variable parseFragment : string -> list html.
Implicit Types (d : Dom) (n p q x r this m : nid) (ns frag : list nid) (v w : data) (st : St).
Implicit Types (refs : gmap nat data) (args : list (value St)) (strs : list string) (i : nat).









End RefreshResolved.

(** ** The reference table when a callback throws *)

Section ThrowingTable.

Context {St : Type}.
Variable parseHTML : string -> list html.
Variable parseFragment : string -> list html.
Implicit Types (d : Dom) (st : St) (refs : gmap nat data) (strs : list string) (i j : nat).
Implicit Types (args vs : list (Throwing.value St)).





(** On callbacks that do not throw, the two readings of the closure agree. *)
Lemma throwing_createReference refs (v : value St) i st d :
  Throwing.createReference refs (lift v) i st d
  = (let '(piece, refs', d') := createReference refs v i st d in
     Throwing.Returned piece refs' d').
Proof.
  destruct v as [[[]|]|f]; simpl; try done.
  destruct (f st d) as [ev d']. by destruct (isString ev).
Qed.

Lemma throwing_assemble strs (ws : list (value St)) st i prev refs d :
  Throwing.assemble strs i (lift <$> ws) st prev refs d
  = (let '(html, refs', d') := assemble strs i ws st (prev, refs, d) in
     Throwing.Returned html refs' d').
Proof.
  revert i prev refs d. induction ws as [|w ws IH]; intros i prev refs d; [done|].
  cbn [fmap list_fmap Throwing.assemble assemble]. rewrite throwing_createReference.
  destruct (createReference refs w i st d) as [[piece refs'] d']. apply IH.
Qed.

Lemma throwing_resolveSlot refs (ws : list (value St)) st this d :
  Throwing.resolveSlot parseFragment refs (lift <$> ws) st this d
  = resolveSlot parseFragment refs ws st this d.
Proof.
  unfold Throwing.resolveSlot, resolveSlot, Throwing.getReferenceValue, getReferenceValue,
    Throwing.argAt, argAt.
  destruct (slotIndex d this) as [j|]; simpl; [|done].
  destruct (refs !! j) as [r|]; [done|].
  rewrite list_lookup_fmap. by destruct (ws !! j) as [[dv|f]|].
Qed.

Lemma throwing_agrees strs (ws : list (value St)) refs0 st d :
  Throwing.buildComponent parseHTML parseFragment strs (lift <$> ws) refs0 st d
  = match buildComponent parseHTML parseFragment strs ws refs0 st d with
    | Some (u, refs, d') => Throwing.Returned u refs d'
    | None => Throwing.Thrown (assemble strs 0 ws st (stringAt strs 0, refs0, d)).1.2
    end.
Proof.
  unfold Throwing.buildComponent, buildComponent. rewrite throwing_assemble.
  destruct (assemble strs 0 ws st (stringAt strs 0, refs0, d)) as [[html refs] d1].
  destruct (jq parseHTML html d1) as [component d2]. simpl.
  rewrite (each_ext _ (resolveSlot parseFragment refs ws st))
    by (intros; apply throwing_resolveSlot).
  by destruct (each _ _ d2).
Qed.

End ThrowingTable.

(** ** A callback that returns a string, in the assembled markup *)

Section StringCallbacks.

Context {St : Type}.
Variable parseHTML : string -> list html.
Variable parseFragment : string -> list html.
Implicit Types (d : Dom) (st : St) (refs : gmap nat data) (strs : list string) (i j : nat).
Implicit Types (args : list (value St)).

(** C5: a callback at index [i] that returns the string [s] is called by
    the assembly step, which splices [s] itself as piece [i] of the markup
    and leaves the table as it was: the table has after the pass the entry
    it had for [i] before it.  The store after the pass is the store after
    the calls of the callbacks, each called once; the pass assembles what
    it assembles when [s] stands at index [i] in place of the callback;
    the build parses that markup; and it gives what it gives when [s]
    stands at index [i] in place of the callback. *)
Theorem string_callback_spliced_as_text strs args refs0 st d i f s prev refs_i d_i :
  args !! i = Some (VFun f) →
  (∀ d, f st d = (DItem (IStr s), d)) →
  assemble strs 0 (take i args) st (stringAt strs 0, refs0, d) = (prev, refs_i, d_i) →
  createReference refs_i (VFun f) i st d_i = (s, refs_i, d_i) ∧
  createReference refs_i (VFun f) i st d_i
  = createReference refs_i (VData (DItem (IStr s))) i st d_i ∧
  pieces 0 args st refs0 d !! i = Some s ∧
  ∃ rest refs d1,
    assemble strs 0 args st (stringAt strs 0, refs0, d) = (prev +:+ s +:+ rest, refs, d1) ∧
    prev +:+ s +:+ rest = stringAt strs 0 +:+ weave strs 0 (pieces 0 args st refs0 d) ∧
    refs !! i = refs0 !! i ∧
    d1 = callbackEffects st args d ∧
    assemble strs 0 (<[i := VData (DItem (IStr s))]> args) st (stringAt strs 0, refs0, d)
    = (prev +:+ s +:+ rest, refs, d1) ∧
    buildComponent parseHTML parseFragment strs args refs0 st d
    = (let '(component, d2) := jq parseHTML (prev +:+ s +:+ rest) d1 in
       d3 ← each (resolveSlot parseFragment refs args st) (findSlots component d2) d2;
       Some (component, ∅, d3)) ∧
    buildComponent parseHTML parseFragment strs args refs0 st d
    = buildComponent parseHTML parseFragment strs (<[i := VData (DItem (IStr s))]> args)
        refs0 st d.
Proof.
  intros Hi Hf Hpre.
  assert (createReference refs_i (VFun f) i st d_i = (s, refs_i, d_i)) as Hstep
    by (simpl; by rewrite Hf).
  destruct (assemble_after_step strs args st _ i _ _ _ _ _ _ _ Hi Hpre Hstep)
    as (rest & refs & d1 & Hall & Hrefs).
  split_and!; [done|by rewrite Hstep| |].
  - rewrite (pieces_lookup strs args st 0 _ _ _ i _ _ _ _ Hi Hpre).
    change (0 + i) with i. by rewrite Hstep.
  - exists rest, refs, d1. split_and!.
    + done.
    + pose proof (assemble_weave strs args st 0 (stringAt strs 0) refs0 d) as Hw.
      by rewrite Hall in Hw.
    + rewrite Hrefs.
      pose proof (assemble_refs_beyond strs (take i args) st 0
                    (stringAt strs 0, refs0, d) i) as Hb.
      rewrite Hpre in Hb. simpl in Hb. apply Hb. rewrite length_take. lia.
    + pose proof (assemble_store strs args st 0 (stringAt strs 0) refs0 d) as Hs.
      by rewrite Hall in Hs.
    + rewrite <- Hall. symmetry. apply (alike_assemble st f s Hf). by apply alike_insert.
    + unfold buildComponent. by rewrite Hall.
    + apply (alike_buildComponent parseHTML parseFragment st f s Hf). by apply alike_insert.
Qed.

End StringCallbacks.

(** ** The claims on the build at concrete inputs *)

Section Witnesses.

Lemma in_singleton_inv (m a : nid) : m ∈ [a] → m = a.
Proof. by intros ->%list_elem_of_singleton. Qed.

Lemma nothing_in_nil (c : nid) (l : list nid) : c ∈ [] ++ [] → c ∉ l.
Proof. by intros ?%elem_of_nil. Qed.

(** [template`<div>${button}</div>`]: the button itself, node 0, is the
    child of the built [div]. *)
Lemma node_value_resolved_by_identity_witness :
  ∃ d3,
    buildComponent (St:=unit) MiniHtml.parse MiniHtml.parse inDivStrings [button] ∅ tt buttonDom
    = Some ([2], ∅, d3) ∧
    kidsOf d3 2 = [0] ∧ parentOf d3 0 = Some 2 ∧
    kindOf d3 0 = Some (Element "button").
Proof.
  set (u := (jq MiniHtml.parse inDivMarkup buttonDom).1).
  set (d2 := (jq MiniHtml.parse inDivMarkup buttonDom).2).
  assert (findSlots u d2 = [3]) as Hs by (vm_compute; reflexivity).
  assert (u = [2]) as Hu by (vm_compute; reflexivity).
  assert (slotIndex d2 3 = Some 0) as Hidx by (vm_compute; reflexivity).
  assert (parentOf d2 3 = Some 2) as Hp2 by (vm_compute; reflexivity).
  assert (kidsOf d2 2 = [] ++ 3 :: []) as Hk2 by (vm_compute; reflexivity).
  assert (kindOf buttonDom 0 = Some (Element "button")) as Hkind by (vm_compute; reflexivity).
  assert (is_Some (getNode buttonDom 0)) as Hex by (vm_compute; by eexists).
  destruct (node_value_resolved_by_identity MiniHtml.parse MiniHtml.parse inDivStrings
              [button] ∅ tt buttonDom 0 (DItem (IJq [0])) inDivMarkup ∅ buttonDom u d2
              (λ _, DItem (IJq [0])))
    as (_ & _ & _ & d3 & fr & Hb & _ & Hat).
  - reflexivity.
  - exact I.
  - reflexivity.
  - reflexivity.
  - reflexivity.
  - apply surjective_pairing.
  - intros m Hm. rewrite Hs in Hm. apply in_singleton_inv in Hm as ->.
    exists 0. split; [exact Hidx|reflexivity].
  - intros m n _ Hn. apply in_singleton_inv in Hn as ->. vm_compute. lia.
  - intros m m' n Hm Hm' Hne. rewrite Hs in Hm, Hm'.
    apply in_singleton_inv in Hm, Hm'. congruence.
  - destruct (Hat 3 ltac:(rewrite Hs; by left) Hidx)
      as (_ & (p & Hp & _ & _ & Hmid) & Hfr & Hn).
    rewrite Hp2 in Hp. injection Hp as <-.
    specialize (Hmid [] [] Hk2 (λ c Hc, nothing_in_nil c _ Hc)).
    rewrite Hfr in Hmid.
    2:{ repeat constructor. }
    2:{ apply NoDup_singleton. }
    destruct (Hn 0 ltac:(by left)) as [_ Hn0]. destruct (Hn0 Hex) as (Hpar & Hk & _).
    exists d3. rewrite Hu in Hb. split_and!.
    + exact Hb.
    + exact Hmid.
    + rewrite Hpar. exact Hp2.
    + rewrite Hk. exact Hkind.
Defined.

(** [template`<ul>${() => items.map(...)}</ul>`] with one item: the array
    is recorded under index 0 and its node is the child of the built
    [ul]. *)
Lemma callback_result_recorded_and_preferred_witness :
  ∃ d3,
    itemsCallback ["A"] dom0 = (DArr [IJq [0]], (itemsCallback ["A"] dom0).2) ∧
    (assemble listStrings 0 [VFun itemsCallback] ["A"]
       (stringAt listStrings 0, ∅, dom0)).1.2 !! 0
    = Some (DArr [IJq [0]]) ∧
    buildComponent MiniHtml.parse MiniHtml.parse listStrings [VFun itemsCallback] ∅ ["A"] dom0
    = Some ([2], ∅, d3) ∧
    kidsOf d3 2 = [0] ∧ parentOf d3 0 = Some 2.
Proof.
  set (d1 := (itemsCallback ["A"] dom0).2).
  set (u := (jq MiniHtml.parse listMarkup d1).1).
  set (d2 := (jq MiniHtml.parse listMarkup d1).2).
  assert (itemsCallback ["A"] dom0 = (DArr [IJq [0]], d1)) as Hf by (vm_compute; reflexivity).
  assert (assemble listStrings 0 [VFun itemsCallback] ["A"] (stringAt listStrings 0, ∅, dom0)
          = (listMarkup, {[0 := DArr [IJq [0]]]}, d1)) as Hasm by (vm_compute; reflexivity).
  assert (findSlots u d2 = [3]) as Hs by (vm_compute; reflexivity).
  assert (u = [2]) as Hu by (vm_compute; reflexivity).
  assert (slotIndex d2 3 = Some 0) as Hidx by (vm_compute; reflexivity).
  assert (parentOf d2 3 = Some 2) as Hp2 by (vm_compute; reflexivity).
  assert (kidsOf d2 2 = [] ++ 3 :: []) as Hk2 by (vm_compute; reflexivity).
  assert (is_Some (getNode d1 0)) as Hex by (vm_compute; by eexists).
  destruct (callback_result_recorded_and_preferred MiniHtml.parse MiniHtml.parse listStrings
              [VFun itemsCallback] ∅ ["A"] dom0 0 itemsCallback "<ul>" ∅ dom0
              (DArr [IJq [0]]) d1 listMarkup {[0 := DArr [IJq [0]]]} d1 u d2
              (λ _, DArr [IJq [0]]))
    as (_ & _ & Hrefs & _ & _ & d3 & fr & Hb & _ & Hat).
  - reflexivity.
  - reflexivity.
  - exact Hf.
  - reflexivity.
  - exact Hasm.
  - reflexivity.
  - apply surjective_pairing.
  - intros m Hm. rewrite Hs in Hm. apply in_singleton_inv in Hm as ->.
    exists 0. split; [exact Hidx|reflexivity].
  - intros m n _ Hn. apply in_singleton_inv in Hn as ->. vm_compute. lia.
  - intros m m' n Hm Hm' Hne. rewrite Hs in Hm, Hm'.
    apply in_singleton_inv in Hm, Hm'. congruence.
  - destruct (Hat 3 ltac:(rewrite Hs; by left) Hidx)
      as (_ & (p & Hp & _ & _ & Hmid) & Hfr & Hn).
    rewrite Hp2 in Hp. injection Hp as <-.
    specialize (Hmid [] [] Hk2 (λ c Hc, nothing_in_nil c _ Hc)).
    rewrite Hfr in Hmid.
    2:{ repeat constructor. }
    2:{ apply NoDup_singleton. }
    destruct (Hn 0 ltac:(by left)) as [_ Hn0]. destruct (Hn0 Hex) as (Hpar & _).
    exists d3. rewrite Hu in Hb. split_and!.
    + exact Hf.
    + rewrite Hasm. exact Hrefs.
    + exact Hb.
    + exact Hmid.
    + rewrite Hpar. exact Hp2.
Defined.


(** A component mounted under [main] and refreshed: its root is still a
    [div] and still the child of [main]. *)
Lemma refresh_keeps_instance_witness :
  ∃ d',
    parentOf mountedDom 0 = Some 1 ∧
    kindOf mountedDom 0 = Some (Element "div") ∧
    flagRefresh flagClosure false mountedDom = Some (flagClosure, d') ∧
    kindOf d' 0 = kindOf mountedDom 0 ∧
    parentOf d' 0 = parentOf mountedDom 0 ∧
    (0 ∈ kidsOf d' 1 ↔ 0 ∈ kidsOf mountedDom 1).
Proof.
  assert (parentOf mountedDom 0 = Some 1) as Hp by (vm_compute; reflexivity).
  assert (kindOf mountedDom 0 = Some (Element "div")) as Hk by (vm_compute; reflexivity).
  set (dR := match flagRefresh flagClosure false mountedDom with
             | Some (_, d) => d | None => dom0 end).
  assert (flagRefresh flagClosure false mountedDom = Some (flagClosure, dR)) as Hr
    by (vm_compute; reflexivity).
  assert (contents [0] mountedDom = []) as Hc by (vm_compute; reflexivity).
  assert (1 < fresh mountedDom) as Hone by (vm_compute; lia).
  destruct (refresh_keeps_instance MiniHtml.parse MiniHtml.parse flagClosure false mountedDom
              flagClosure dR 0 Hr)
    as (_ & Hkind & Hpar & Hkids & _).
  - vm_compute. reflexivity.
  - by left.
  - intros q Hq. apply in_singleton_inv in Hq as ->. vm_compute. lia.
  - change (componentInstance flagClosure) with [0]. rewrite Hc. apply not_elem_of_nil.
  - intros w Hw. apply list_elem_of_singleton in Hw as ->. intros d. split.
    + apply not_elem_of_nil.
    + apply untouched_refl.
  - intros i v Hv. vm_compute in Hv. discriminate.
  - eexists. split_and!; [exact Hp|exact Hk|exact Hr|exact Hkind|exact Hpar|exact (Hkids 1 Hone)].
Defined.

(** [template`<button id=b>Hello, ${() => "World"}!</button>`] builds what
    the template with the string itself builds. *)
Lemma string_callback_spliced_as_text_witness :
  pieces 0 [VFun helloCallback] tt ∅ dom0 !! 0 = Some "World" ∧
  buildComponent MiniHtml.parse MiniHtml.parse ["<button id=b>Hello, "; "!</button>"]
    [VFun helloCallback] ∅ tt dom0
  = buildComponent MiniHtml.parse MiniHtml.parse ["<button id=b>Hello, "; "!</button>"]
      [str "World"] ∅ tt dom0.
Proof.
  destruct (string_callback_spliced_as_text MiniHtml.parse MiniHtml.parse
              ["<button id=b>Hello, "; "!</button>"] [VFun helloCallback]
              ∅ tt dom0 0 helloCallback "World" "<button id=b>Hello, " ∅ dom0)
    as (_ & _ & Hps & rest & refs & d1 & _ & _ & _ & _ & _ & _ & Heq).
  - reflexivity.
  - intros d. reflexivity.
  - reflexivity.
  - split; [exact Hps|exact Heq].
Defined.



(** C6 fails on [template`${() => held}`]: the callback returns nodes,
    they are recorded under index 0, but the marker is the root of the
    parsed markup, the search does not find it and the component is the
    marker; the nodes are nowhere in it. *)
Lemma root_level_callback_result_not_inserted :
  ∃ c d,
    isString (heldNodes [0] buttonDom).1 = None ∧
    (assemble [EmptyString; EmptyString] 0 [VFun heldNodes] [0]
       (stringAt [EmptyString; EmptyString] 0, ∅, buttonDom)).1.2 !! 0
    = Some (DItem (IJq [0])) ∧
    template MiniHtml.parse MiniHtml.parse [EmptyString; EmptyString] [VFun heldNodes] [0]
      buttonDom = Some (c, d) ∧
    componentInstance c = [2] ∧
    shape 5 d <$> componentInstance c = [HElem "b" [("data-slot-index", "0")] []] ∧
    parentOf d 0 = None.
Proof. do 2 eexists. split_and!; vm_compute; reflexivity. Qed.

(** A node that two values hold ends where the last of them is resolved:
    on [template`<div>${button}<i></i>${button}</div>`] the button stands
    after the [i], and nothing stands where the first marker stood. *)
Lemma shared_node_ends_at_last_marker :
  ∃ d3,
    buildComponent (St:=unit) MiniHtml.parse MiniHtml.parse ["<div>"; "<i></i>"; "</div>"]
      [button; button] ∅ tt buttonDom = Some ([2], ∅, d3) ∧
    shape 5 d3 2 = HElem "div" [] [HElem "i" [] []; HElem "button" [] [HText "ok"]].
Proof. eexists. split; vm_compute; reflexivity. Qed.

(** A callback may move the root itself: here it takes node 0, the root
    of the component, out of [main] while [refresh] rebuilds. *)
Lemma callback_side_effect_moves_root :
  ∃ c d m d1 c' d',
    template MiniHtml.parse MiniHtml.parse ["<div>"; "</div>"] [VFun movesRoot] tt dom0
    = Some (c, d) ∧
    componentInstance c = [0] ∧
    template MiniHtml.parse MiniHtml.parse ["<main>"; "</main>"]
      [VData (DItem (IJq [0]))] tt d = Some (m, d1) ∧
    parentOf d1 0 = Some 2 ∧
    refresh MiniHtml.parse MiniHtml.parse c tt d1 = Some (c', d') ∧
    parentOf d' 0 = None.
Proof. do 6 eexists. split_and!; vm_compute; reflexivity. Qed.

End Witnesses.
